(** * go-mongo: the BSON decoder, struct metadata, object ids and the
      collection facade, embedded in Rocq.

    Conventions of the embedding.
    - Go [int] is the 64-bit [int] of current 64-bit platforms; [int],
      [int64] and offsets are [Z] values, and every narrowing conversion of
      the source is written out ([to_int32], [to_int64], [to_uint64]).
      Offsets stay within [-2^31 .. len + 2^32] (every unchecked addition is
      followed by a bounds check), so offset arithmetic never wraps and is
      plain [Z] addition.
    - [[]byte] is [list byte]; a Go [string] is a Rocq [string] (a sequence
      of 8-bit characters); [string(p)] is [string_of_list_byte p].
    - The capacity of the input slice equals its length.
    - A Go panic is a result of its own: [abort] raises [aborted err], the
      runtime raises [runtimeError].  The decoder mutates its target in
      place; the embedding passes the target value through and returns the
      updated value.
    - The decoder need not terminate (a negative length prefix moves the read
      offset backwards), so the recursive functions take fuel. *)

Set Warnings "-register-all".
From Stdlib Require Import ZArith Lia.
From Stdlib.Strings Require Import String Ascii Byte.
From Stdlib Require Import DecimalString.
From stdpp Require Import gmap strings list.

Local Open Scope Z_scope.

(** ** Bytes and fixed-width integers *)

Definition byte_to_Z (b : byte) : Z := Z.of_N (Byte.to_N b).

(** [byte(x)]: the low eight bits. *)
Definition byte_of_Z (z : Z) : byte :=
  default x00 (Byte.of_N (Z.to_N (z mod 256))).

Definition to_int32 (u : Z) : Z :=
  let r := u mod 2^32 in if r <? 2^31 then r else r - 2^32.

Definition to_int64 (u : Z) : Z :=
  let r := u mod 2^64 in if r <? 2^63 then r else r - 2^64.

Definition to_uint64 (n : Z) : Z := n mod 2^64.

(** [len(s)] as an [int]. *)
Definition len {A} (l : list A) : Z := Z.of_nat (length l).

(** [s[i]]: [None] stands for the runtime's index-out-of-range panic. *)
Definition index {A} (l : list A) (i : Z) : option A :=
  if i <? 0 then None else l !! Z.to_nat i.

(** [s[lo:hi]]: [None] stands for the runtime's slice-bounds panic. *)
Definition slice {A} (l : list A) (lo hi : Z) : option (list A) :=
  if (0 <=? lo) && (lo <=? hi) && (hi <=? len l)
  then Some (take (Z.to_nat (hi - lo)) (drop (Z.to_nat lo) l))
  else None.

(** [wire] is [binary.LittleEndian]. *)
Module wire.
Definition Uint32 (b : list byte) : Z :=
    match b with
    | b0 :: b1 :: b2 :: b3 :: _ =>
        Z.lor (byte_to_Z b0)
          (Z.lor (Z.shiftl (byte_to_Z b1) 8)
             (Z.lor (Z.shiftl (byte_to_Z b2) 16) (Z.shiftl (byte_to_Z b3) 24)))
    | _ => 0
    end.

Definition Uint64 (b : list byte) : Z :=
    match b with
    | b0 :: b1 :: b2 :: b3 :: b4 :: b5 :: b6 :: b7 :: _ =>
        Z.lor (byte_to_Z b0)
          (Z.lor (Z.shiftl (byte_to_Z b1) 8)
             (Z.lor (Z.shiftl (byte_to_Z b2) 16)
                (Z.lor (Z.shiftl (byte_to_Z b3) 24)
                   (Z.lor (Z.shiftl (byte_to_Z b4) 32)
                      (Z.lor (Z.shiftl (byte_to_Z b5) 40)
                         (Z.lor (Z.shiftl (byte_to_Z b6) 48)
                            (Z.shiftl (byte_to_Z b7) 56)))))))
    | _ => 0
    end.
End wire.

(** ** The BSON kind table *)

Definition kindFloat : Z := 0x1.
Definition kindString : Z := 0x2.
Definition kindDocument : Z := 0x3.
Definition kindArray : Z := 0x4.
Definition kindBinary : Z := 0x5.
Definition kindObjectId : Z := 0x7.
Definition kindBool : Z := 0x8.
Definition kindDateTime : Z := 0x9.
Definition kindNull : Z := 0xA.
Definition kindRegexp : Z := 0xB.
Definition kindCode : Z := 0xD.
Definition kindSymbol : Z := 0xE.
Definition kindCodeWithScope : Z := 0xF.
Definition kindInt32 : Z := 0x10.
Definition kindTimestamp : Z := 0x11.
Definition kindInt64 : Z := 0x12.
Definition kindMinValue : Z := 0xff.
Definition kindMaxValue : Z := 0x7f.

(** The keys of [kindNames]. *)
Definition kindNames : list (Z * string) :=
  [ (kindFloat, "float"); (kindString, "string"); (kindDocument, "document");
    (kindArray, "array"); (kindBinary, "binary"); (kindObjectId, "objectId");
    (kindBool, "bool"); (kindDateTime, "dateTime"); (kindNull, "null");
    (kindRegexp, "regexp"); (kindCode, "code"); (kindSymbol, "symbol");
    (kindCodeWithScope, "codeWithScope"); (kindInt32, "int32");
    (kindTimestamp, "timestamp"); (kindInt64, "int64");
    (kindMinValue, "minValue"); (kindMaxValue, "maxValue") ].

(** ** Go types and values as [reflect] shows them *)

(** [reflect.Kind] *)
Module reflect.
Inductive Kind :=
  | Invalid | Bool | Int | Int8 | Int16 | Int32 | Int64
  | Uint | Uint8 | Uint16 | Uint32 | Uint64 | Uintptr
  | Float32 | Float64 | Complex64 | Complex128
  | Array | Chan | Func | Interface | Map | Ptr | Slice | String | Struct
  | UnsafePointer.
End reflect.

Abbreviation rkind := reflect.Kind.

Inductive intSize := W8 | W16 | W32 | W64 | WInt.

Definition bitSize (w : intSize) : Z :=
  match w with W8 => 8 | W16 => 16 | W32 => 32 | W64 => 64 | WInt => 64 end.

(** [reflect.StructField], with [Tag] holding [f.Tag.Get("bson")]. *)
Record StructField_ (T : Type) := mkField {
  Name : string;
  PkgPath : string;
  Type_ : T;
  Tag : string;
  Anonymous : bool
}.
Arguments mkField {T}.
Arguments Name {T}.
Arguments PkgPath {T}.
Arguments Type_ {T}.
Arguments Tag {T}.
Arguments Anonymous {T}.

(** The kinds of types that have no structure of interest here: [uintptr],
    complex numbers, channels, functions, interfaces with methods, unsafe
    pointers. *)
Inductive otherKind :=
| OUintptr | OComplex64 | OComplex128 | OChan | OFunc | OInterface
| OUnsafePointer.

Definition otherKind_Kind (k : otherKind) : rkind :=
  match k with
  | OUintptr => reflect.Uintptr
  | OComplex64 => reflect.Complex64
  | OComplex128 => reflect.Complex128
  | OChan => reflect.Chan
  | OFunc => reflect.Func
  | OInterface => reflect.Interface
  | OUnsafePointer => reflect.UnsafePointer
  end.

(** [reflect.Type].  [TDefined name u] is a defined type [type name u]; a
    defined type is identified by its name.  [TOther k] is a type of one of
    the other kinds. *)
Inductive rtype :=
| TBool
| TInt (w : intSize)
| TUint (w : intSize)
| TFloat32
| TFloat64
| TString
| TInterface
| TMap (key elem : rtype)
| TSlice (elem : rtype)
| TArray (n : nat) (elem : rtype)
| TStruct (fields : list (StructField_ rtype))
| TPtr (elem : rtype)
| TDefined (name : string) (underlying : rtype)
| TOther (k : otherKind).

Abbreviation StructField := (StructField_ rtype).

Fixpoint underlying (t : rtype) : rtype :=
  match t with
  | TDefined _ u => underlying u
  | _ => t
  end.

(** [t.Kind()] *)
Definition Kind (t : rtype) : rkind :=
  match underlying t with
  | TBool => reflect.Bool
  | TInt W8 => reflect.Int8 | TInt W16 => reflect.Int16
  | TInt W32 => reflect.Int32 | TInt W64 => reflect.Int64
  | TInt WInt => reflect.Int
  | TUint W8 => reflect.Uint8 | TUint W16 => reflect.Uint16
  | TUint W32 => reflect.Uint32 | TUint W64 => reflect.Uint64
  | TUint WInt => reflect.Uint
  | TFloat32 => reflect.Float32
  | TFloat64 => reflect.Float64
  | TString => reflect.String
  | TInterface => reflect.Interface
  | TMap _ _ => reflect.Map
  | TSlice _ => reflect.Slice
  | TArray _ _ => reflect.Array
  | TStruct _ => reflect.Struct
  | TPtr _ => reflect.Ptr
  | TDefined _ _ => reflect.Invalid
  | TOther k => otherKind_Kind k
  end.

(** The domain types of the package. *)
Definition tDateTime : rtype := TDefined "mongo.DateTime" (TInt W64).
Definition tTimestamp : rtype := TDefined "mongo.Timestamp" (TInt W64).
Definition tObjectId : rtype := TDefined "mongo.ObjectId" TString.
Definition tSymbol : rtype := TDefined "mongo.Symbol" TString.
Definition tCode : rtype := TDefined "mongo.Code" TString.
Definition tMinMax : rtype := TDefined "mongo.MinMax" (TInt WInt).
Definition tByteSlice : rtype := TSlice (TUint W8).
Definition tMapStringInterface : rtype := TMap TString TInterface.
Definition tM : rtype := TDefined "mongo.M" (TMap TString TInterface).
Definition tA : rtype := TDefined "mongo.A" (TSlice TInterface).
Definition tBSONData : rtype :=
  TDefined "mongo.BSONData"
    (TStruct [ mkField "Kind" "" (TInt WInt) "" false;
               mkField "Data" "" tByteSlice "" false ]).

(** A Go value.  Integers are stored as their numeric value, a float as the
    bits of the float64 it was set from, a slice as its backing array up to
    the capacity together with its length ([None] is the nil slice), an
    interface as its dynamic type and value ([None] is the nil interface). *)
Inductive rvalue :=
| VBool (b : bool)
| VInt (n : Z)
| VUint (n : Z)
| VFloat (bits : Z)
| VString (s : string)
| VInterface (dyn : option (rtype * rvalue))
| VMap (m : option (gmap string rvalue))
| VSlice (s : option (list rvalue * nat))
| VArray (l : list rvalue)
| VStruct (l : list rvalue)
| VPtr (p : option rvalue)
| VOther.

(** [reflect.Zero(t)] *)
Fixpoint zero (t : rtype) : rvalue :=
  match t with
  | TBool => VBool false
  | TInt _ => VInt 0
  | TUint _ => VUint 0
  | TFloat32 | TFloat64 => VFloat 0
  | TString => VString ""
  | TInterface => VInterface None
  | TMap _ _ => VMap None
  | TSlice _ => VSlice None
  | TArray n e => VArray (replicate n (zero e))
  | TStruct fs => VStruct (map (fun f => zero (Type_ f)) fs)
  | TPtr _ => VPtr None
  | TDefined _ u => zero u
  | TOther OInterface => VInterface None
  | TOther _ => VOther
  end.

(** The value of a [[]byte]. *)
Definition bytesValue (p : list byte) : rvalue :=
  VSlice (Some (map (fun b => VUint (byte_to_Z b)) p, length p)).

(** ** Errors *)

Inductive error :=
| errorString (s : string)
| DecodeConvertError (kind : Z) (t : rtype)
| DecodeTypeError (kind : Z).

Definition ErrEOD : error :=
  errorString "bson: unexpected end of data when parsing BSON".

Definition errDocLength : error := errorString "bson: doc length wrong".

(** ** The decoder state and its monad *)

Record decodeState := mkState {
  data : list byte;
  offset : Z;
  savedError : option error
}.

Definition setOffset (d : decodeState) (o : Z) : decodeState :=
  mkState (data d) o (savedError d).

Definition setSavedError (d : decodeState) (e : option error) : decodeState :=
  mkState (data d) (offset d) e.

(** What a panic carries: [aborted{err}] or a runtime error. *)
Inductive panicValue :=
| aborted (err : error)
| runtimeError (msg : string).

Inductive result (A : Type) :=
| Ok (a : A) (d : decodeState)
| Panic (p : panicValue)
| OutOfFuel.
Arguments Ok {A}.
Arguments Panic {A}.
Arguments OutOfFuel {A}.

Definition M (A : Type) : Type := decodeState -> result A.

Definition ret {A} (a : A) : M A := fun d => Ok a d.

Definition bind {A B} (m : M A) (k : A -> M B) : M B :=
  fun d =>
    match m d with
    | Ok a d' => k a d'
    | Panic p => Panic p
    | OutOfFuel => OutOfFuel
    end.

Notation "'let*' x ':=' m 'in' k" := (bind m (fun x => k))
  (at level 10, x name, m at level 100, k at level 200).
Notation "'let*' ' pat ':=' m 'in' k" :=
  (bind m (fun x => match x with pat => k end))
  (at level 10, pat pattern, m at level 100, k at level 200).
Notation "m ';;' k" := (bind m (fun _ => k))
  (at level 100, k at level 200, right associativity).

(** [abort(err)] is [panic(aborted{err})]. *)
Definition abort {A} (err : error) : M A := fun _ => Panic (aborted err).

Definition runtimePanic {A} (msg : string) : M A :=
  fun _ => Panic (runtimeError msg).

Definition timeout {A} : M A := fun _ => OutOfFuel.

Definition get : M decodeState := fun d => Ok d d.
Definition addOffset (n : Z) : M unit := fun d => Ok tt (setOffset d (offset d + n)).

(** ** Scanning *)

Definition saveError (err : error) : M unit :=
  fun d =>
    match savedError d with
    | None => Ok tt (setSavedError d (Some err))
    | Some _ => Ok tt d
    end.

Definition scanByte : M byte :=
  fun d =>
    if len (data d) <=? offset d then abort ErrEOD d
    else match index (data d) (offset d) with
         | Some b => Ok b (setOffset d (offset d + 1))
         | None => runtimePanic "index out of range" d
         end.

Definition scanSlice (n : Z) : M (list byte) :=
  fun d =>
    let offset' := offset d + n in
    if len (data d) <? offset' then abort ErrEOD d
    else match slice (data d) (offset d) offset' with
         | Some p => Ok p (setOffset d offset')
         | None => runtimePanic "slice bounds out of range" d
         end.

Definition beginDoc : M Z :=
  fun d =>
    let offset0 := offset d in
    (let* p := scanSlice 4 in
     ret (offset0 + wire.Uint32 p)) d.

Definition endDoc (offset' : Z) : M unit :=
  fun d =>
    if negb (offset d =? offset') then abort errDocLength d
    else Ok tt d.

(** The index of the first zero byte, as the [range] loop of [scanKindName]
    finds it. *)
Fixpoint indexZero (l : list byte) : option Z :=
  match l with
  | [] => None
  | b :: l' =>
      if byte_to_Z b =? 0 then Some 0
      else option_map Z.succ (indexZero l')
  end.

Definition scanKindName : M (Z * list byte) :=
  let* b := scanByte in
  let kind := byte_to_Z b in
  if kind =? 0 then ret (0, [])
  else fun d =>
    match slice (data d) (offset d) (len (data d)) with
    | None => runtimePanic "slice bounds out of range" d
    | Some rest =>
        match indexZero rest with
        | Some i =>
            match slice (data d) (offset d) (offset d + i) with
            | Some name => Ok (kind, name) (setOffset d (offset d + (i + 1)))
            | None => runtimePanic "slice bounds out of range" d
            end
        | None => abort ErrEOD d
        end
    end.

(** [scanFloat] returns the bits of the float64. *)
Definition scanFloat : M Z :=
  let* p := scanSlice 8 in ret (wire.Uint64 p).

Definition scanString : M string :=
  let* p := scanSlice 4 in
  let n := wire.Uint32 p in
  let* s := scanSlice (n - 1) in
  addOffset 1 ;;
  ret (string_of_list_byte s).

Definition scanBinary : M (list byte * Z) :=
  let* p := scanSlice 4 in
  let n := wire.Uint32 p in
  let* b := scanByte in
  let subtype := byte_to_Z b in
  let* q := scanSlice n in
  ret (q, subtype).

Definition scanBool : M bool :=
  let* b := scanByte in
  if byte_to_Z b =? 0 then ret false else ret true.

Definition scanInt32 : M Z :=
  let* p := scanSlice 4 in ret (to_int32 (wire.Uint32 p)).

Definition scanInt64 : M Z :=
  let* p := scanSlice 8 in ret (to_int64 (wire.Uint64 p)).

(** The [switch] statements of the decoder compare [kind] with the
    constants of the kind table. *)
Definition isKind (kind : Z) (ks : list Z) : bool :=
  existsb (Z.eqb kind) ks.

Definition skipValue (kind : Z) : M unit :=
  if isKind kind [kindString; kindSymbol] then
    let* n := scanInt32 in addOffset n
  else if isKind kind [kindDocument; kindArray] then
    let* n := scanInt32 in addOffset (n - 4)
  else if isKind kind [kindBinary] then
    let* n := scanInt32 in addOffset (n + 1)
  else if isKind kind [kindObjectId] then addOffset 12
  else if isKind kind [kindBool] then addOffset 1
  else if isKind kind [kindDateTime; kindTimestamp; kindInt64; kindFloat] then
    addOffset 8
  else if isKind kind [kindInt32] then addOffset 4
  else if isKind kind [kindMinValue; kindMaxValue; kindNull] then addOffset 0
  else abort (DecodeTypeError kind).

Definition saveErrorAndSkip (kind : Z) (t : rtype) : M unit :=
  skipValue kind ;;
  fun d =>
    match savedError d with
    | None => Ok tt (setSavedError d (Some (DecodeConvertError kind t)))
    | Some _ => Ok tt d
    end.

(** ** Decoding into an interface value *)

(** An [interface{}] result: [None] is [nil], otherwise the dynamic type and
    the value. *)
Abbreviation dynamic := (option (rtype * rvalue)).

(** [append(a, x)] on a [[]interface{}]; the capacity that [append] picks is
    not specified, the model keeps it equal to the length. *)
Definition appendInterface (a : option (list rvalue * nat)) (x : dynamic)
  : option (list rvalue * nat) :=
  match a with
  | None => Some ([VInterface x], 1%nat)
  | Some (l, n) => Some (take n l ++ [VInterface x], S n)
  end.

Fixpoint decodeValueInterface (fuel : nat) (kind : Z) {struct fuel} : M dynamic :=
  match fuel with
  | O => timeout
  | S fuel' =>
      if kind =? kindFloat then
        let* f := scanFloat in ret (Some (TFloat64, VFloat f))
      else if kind =? kindString then
        let* s := scanString in ret (Some (TString, VString s))
      else if kind =? kindDocument then
        let* offset' := beginDoc in
        let* m := interfaceDocLoop fuel' ∅ in
        endDoc offset' ;;
        ret (Some (tMapStringInterface, VMap (Some m)))
      else if kind =? kindArray then
        let* offset' := beginDoc in
        let* a := interfaceArrayLoop fuel' None in
        endDoc offset' ;;
        ret (Some (TSlice TInterface, VSlice a))
      else if kind =? kindBinary then
        let* '(p, _) := scanBinary in
        ret (Some (tByteSlice, bytesValue p))
      else if kind =? kindObjectId then
        let* p := scanSlice 12 in
        ret (Some (tObjectId, VString (string_of_list_byte p)))
      else if kind =? kindBool then
        let* b := scanBool in ret (Some (TBool, VBool b))
      else if kind =? kindDateTime then
        let* n := scanInt64 in ret (Some (tDateTime, VInt n))
      else if kind =? kindNull then
        ret None
      else if kind =? kindSymbol then
        let* s := scanString in ret (Some (tSymbol, VString s))
      else if kind =? kindInt32 then
        let* n := scanInt32 in ret (Some (TInt WInt, VInt n))
      else if kind =? kindTimestamp then
        let* n := scanInt64 in ret (Some (tTimestamp, VInt n))
      else if kind =? kindInt64 then
        let* n := scanInt64 in ret (Some (TInt W64, VInt n))
      else if kind =? kindMinValue then
        ret (Some (tMinMax, VInt (-1)))
      else if kind =? kindMaxValue then
        ret (Some (tMinMax, VInt 1))
      else abort (DecodeTypeError kind)
  end
with interfaceDocLoop (fuel : nat) (m : gmap string rvalue) {struct fuel}
  : M (gmap string rvalue) :=
  match fuel with
  | O => timeout
  | S fuel' =>
      let* '(kind, name) := scanKindName in
      if kind =? 0 then ret m
      else
        let* x := decodeValueInterface fuel' kind in
        interfaceDocLoop fuel' (<[string_of_list_byte name := VInterface x]> m)
  end
with interfaceArrayLoop (fuel : nat) (a : option (list rvalue * nat)) {struct fuel}
  : M (option (list rvalue * nat)) :=
  match fuel with
  | O => timeout
  | S fuel' =>
      let* '(kind, _) := scanKindName in
      if kind =? 0 then ret a
      else
        let* x := decodeValueInterface fuel' kind in
        interfaceArrayLoop fuel' (appendInterface a x)
  end.

(** ** Numeric conversions of Go *)

(** A float64 is handled through its bits: sign, biased exponent, fraction. *)
Definition float64_sign (bits : Z) : bool := Z.testbit bits 63.
Definition float64_exp (bits : Z) : Z := Z.land (Z.shiftr bits 52) 0x7ff.
Definition float64_frac (bits : Z) : Z := Z.land bits (2^52 - 1).

(** The float truncated toward zero; [None] for NaN and the infinities. *)
Definition float64_trunc (bits : Z) : option Z :=
  let e := float64_exp bits in
  let m := float64_frac bits in
  if e =? 0x7ff then None
  else
    let mag :=
      if e =? 0 then 0
      else if 1075 <=? e then (2^52 + m) * 2^(e - 1075)
      else (2^52 + m) / 2^(1075 - e) in
    Some (if float64_sign bits then - mag else mag).

(** [f != 0] *)
Definition float64_nonzero (bits : Z) : bool :=
  negb (Z.land bits (2^63 - 1) =? 0).

(** [float64(n)] for an integer [n]: round to nearest, ties to even. *)
Definition float64_of_int (n : Z) : Z :=
  if n =? 0 then 0
  else
    let s := if n <? 0 then 2^63 else 0 in
    let a := Z.abs n in
    let e := Z.log2 a in
    let '(q, e') :=
      if e <=? 52 then (a * 2^(52 - e), e)
      else
        let sh := e - 52 in
        let q := a / 2^sh in
        let r := a mod 2^sh in
        let half := 2^(sh - 1) in
        let q1 := if (half <? r) || ((r =? half) && Z.odd q) then q + 1 else q in
        if q1 =? 2^53 then (2^52, e + 1) else (q1, e) in
    s + (e' + 1023) * 2^52 + (q - 2^52).

Definition MaxFloat32_bits : Z := 0x47EFFFFFE0000000.
Definition MaxFloat64_bits : Z := 0x7FEFFFFFFFFFFFFF.

(** [reflect]'s [overflowFloat32]: [MaxFloat32 < |x| && |x| <= MaxFloat64];
    non-negative floats are ordered as their bits. *)
Definition overflowFloat32 (bits : Z) : bool :=
  let mag := Z.land bits (2^63 - 1) in
  (MaxFloat32_bits <? mag) && (mag <=? MaxFloat64_bits).

(** [v.OverflowFloat(x)]; [None] is the panic of [reflect] on another kind. *)
Definition OverflowFloat (t : rtype) (x : Z) : option bool :=
  match underlying t with
  | TFloat32 => Some (overflowFloat32 x)
  | TFloat64 => Some false
  | _ => None
  end.

(** [v.OverflowInt(x)]: [trunc := (x << (64-bitSize)) >> (64-bitSize)]. *)
Definition OverflowInt (t : rtype) (x : Z) : option bool :=
  match underlying t with
  | TInt w =>
      let s := 64 - bitSize w in
      let trunc := Z.shiftr (to_int64 (Z.shiftl x s)) s in
      Some (negb (x =? trunc))
  | _ => None
  end.

(** [v.OverflowUint(x)], on uint64. *)
Definition OverflowUint (t : rtype) (x : Z) : option bool :=
  match underlying t with
  | TUint w =>
      let s := 64 - bitSize w in
      let trunc := Z.shiftr (to_uint64 (Z.shiftl x s)) s in
      Some (negb (x =? trunc))
  | _ => None
  end.

(** [intN(x)] and [uintN(x)] *)
Definition to_intN (w : intSize) (x : Z) : Z :=
  let r := x mod 2^(bitSize w) in
  if r <? 2^(bitSize w - 1) then r else r - 2^(bitSize w).

Definition to_uintN (w : intSize) (x : Z) : Z := x mod 2^(bitSize w).

(** ** The flags and the setters of [reflect.Value]

    Two of the flag bits of a [reflect.Value] decide what the decoder may do
    with it: [flagAddr], the value is addressable, and [flagRO], the value
    was obtained through an unexported struct field.  [Elem] of a pointer
    and [Index] of a slice give an addressable value, [Elem] of an interface
    a value that is not addressable, [Index] of an array and [Field] keep
    [flagAddr]; all of them keep [flagRO], and [Field] sets it for an
    unexported field. *)
Record flag := mkFlag { flagAddr : bool; flagRO : bool }.

(** [v.CanSet()] *)
Definition CanSet (fl : flag) : bool := flagAddr fl && negb (flagRO fl).

(** The flags of [reflect.ValueOf(p).Elem()] and of
    [reflect.New(t).Elem()]. *)
Definition settable : flag := mkFlag true false.

(** The flags of [reflect.ValueOf(x)]. *)
Definition unaddressable : flag := mkFlag false false.

(** [p.Elem()] for a pointer and [s.Index(i)] for a slice. *)
Definition flagElem (fl : flag) : flag := mkFlag true (flagRO fl).

(** [i.Elem()] for an interface. *)
Definition flagInterfaceElem (fl : flag) : flag := mkFlag false (flagRO fl).

(** [v.Field(i)], and [v.FieldByIndex(index)] for a path whose fields are
    all [exported] or not. *)
Definition flagField (fl : flag) (exported : bool) : flag :=
  mkFlag (flagAddr fl) (flagRO fl || negb exported).

(** A setter panics when the value is read-only or not addressable
    ([mustBeAssignable], which tests [flagRO] first), or has another kind.
    The messages name [Set] for every setter. *)
Definition notSettableMessage : string :=
  "reflect: reflect.Value.Set using unaddressable value".

Definition readOnlyMessage : string :=
  "reflect: reflect.Value.Set using value obtained using unexported field".

Definition notSettable {A} : M A := runtimePanic notSettableMessage.

Definition readOnly {A} : M A := runtimePanic readOnlyMessage.

(** The panic of [mustBeAssignable] on a value that cannot be set. *)
Definition cannotSetMessage (fl : flag) : string :=
  if flagRO fl then readOnlyMessage else notSettableMessage.

Definition cannotSet {A} (fl : flag) : M A := runtimePanic (cannotSetMessage fl).

(** [mustBeExported], which [SetMapIndex] calls on the map. *)
Definition mustBeExported (fl : flag) : M unit :=
  if flagRO fl then readOnly else ret tt.

Definition wrongKind {A} : M A :=
  runtimePanic "reflect: call of reflect.Value method on wrong kind".

Definition Set_ (fl : flag) (x : rvalue) : M rvalue :=
  if CanSet fl then ret x else cannotSet fl.

Definition SetInt (fl : flag) (t : rtype) (x : Z) : M rvalue :=
  match underlying t with
  | TInt w => Set_ fl (VInt (to_intN w x))
  | _ => wrongKind
  end.

Definition SetUint (fl : flag) (t : rtype) (x : Z) : M rvalue :=
  match underlying t with
  | TUint w => Set_ fl (VUint (to_uintN w x))
  | _ => wrongKind
  end.

(** A float32 slot is represented by the float64 it is set from. *)
Definition SetFloat (fl : flag) (t : rtype) (x : Z) : M rvalue :=
  match underlying t with
  | TFloat32 | TFloat64 => Set_ fl (VFloat x)
  | _ => wrongKind
  end.

Definition SetString (fl : flag) (t : rtype) (x : string) : M rvalue :=
  match underlying t with
  | TString => Set_ fl (VString x)
  | _ => wrongKind
  end.

Definition SetBool (fl : flag) (t : rtype) (x : bool) : M rvalue :=
  match underlying t with
  | TBool => Set_ fl (VBool x)
  | _ => wrongKind
  end.

(** ** The decoder tables *)

Inductive decoderFunc :=
| DecodeBool | DecodeFloat | DecodeInt | DecodeUint | DecodeMap
| DecodeString | DecodeStruct | DecodeSlice | DecodeArray
| DecodeBSONData | DecodeDateTime | DecodeMinMax | DecodeObjectId
| DecodeTimestamp | DecodeByteSlice | DecodeMapStringInterface
| DecodeInterface.

Definition kindDecoder (k : rkind) : option decoderFunc :=
  match k with
  | reflect.Bool => Some DecodeBool
  | reflect.Float32 | reflect.Float64 => Some DecodeFloat
  | reflect.Int8 | reflect.Int16 | reflect.Int32 | reflect.Int64
  | reflect.Int => Some DecodeInt
  | reflect.Uint8 | reflect.Uint16 | reflect.Uint32 | reflect.Uint64
  | reflect.Uint => Some DecodeUint
  | reflect.Map => Some DecodeMap
  | reflect.String => Some DecodeString
  | reflect.Struct => Some DecodeStruct
  | reflect.Slice => Some DecodeSlice
  | reflect.Array => Some DecodeArray
  | _ => None
  end.

Definition typeDecoder (t : rtype) : option decoderFunc :=
  match t with
  | TDefined name _ =>
      if String.eqb name "mongo.BSONData" then Some DecodeBSONData
      else if String.eqb name "mongo.DateTime" then Some DecodeDateTime
      else if String.eqb name "mongo.MinMax" then Some DecodeMinMax
      else if String.eqb name "mongo.ObjectId" then Some DecodeObjectId
      else if String.eqb name "mongo.Symbol" then Some DecodeString
      else if String.eqb name "mongo.Timestamp" then Some DecodeTimestamp
      else if String.eqb name "mongo.M" then Some DecodeMapStringInterface
      else None
  | TSlice (TUint W8) => Some DecodeByteSlice
  | TMap TString TInterface => Some DecodeMapStringInterface
  | TInterface => Some DecodeInterface
  | _ => None
  end.

(** The lookup at the head of [decodeValue]. *)
Definition decoderFor (t : rtype) : option decoderFunc :=
  match typeDecoder t with
  | Some f => Some f
  | None => kindDecoder (Kind t)
  end.

(** ** The typed decoders *)

Section Decoder.

  (** The result of [int64(f)] and of [uint64(f)] when the truncated float
      is NaN, infinite or outside the range of the target: Go leaves it to
      the implementation.  Both take the bits of [f]. *)
Variable int64_unrepresentable : Z -> Z.
Variable uint64_unrepresentable : Z -> Z.

  (** [structSpecForType(t).fieldSpec(name)] reduced to the field's index
      path; the struct-spec table is declared outside the decoder's file. *)
Variable structSpecForType : rtype -> list byte -> option (list nat).

  (** [int64(f)] *)
Definition int64_of_float64 (bits : Z) : Z :=
    match float64_trunc bits with
    | Some z =>
        if (- 2^63 <=? z) && (z <? 2^63) then z
        else to_int64 (int64_unrepresentable bits)
    | None => to_int64 (int64_unrepresentable bits)
    end.

  (** [uint64(f)] *)
Definition uint64_of_float64 (bits : Z) : Z :=
    match float64_trunc bits with
    | Some z =>
        if (0 <=? z) && (z <? 2^64) then z
        else to_uint64 (uint64_unrepresentable bits)
    | None => to_uint64 (uint64_unrepresentable bits)
    end.

Definition decodeFloat (kind : Z) (t : rtype) (v : rvalue) (fl : flag)
    : M rvalue :=
    let finish (f : Z) : M rvalue :=
      match OverflowFloat t f with
      | None => wrongKind
      | Some true => saveError (DecodeConvertError kind t) ;; ret v
      | Some false => SetFloat fl t f
      end in
    if kind =? kindFloat then
      let* f := scanFloat in finish f
    else if kind =? kindInt64 then
      let* n := scanInt64 in finish (float64_of_int n)
    else if kind =? kindInt32 then
      let* n := scanInt32 in finish (float64_of_int n)
    else
      saveErrorAndSkip kind t ;; ret v.

Definition decodeInt (kind : Z) (t : rtype) (v : rvalue) (fl : flag)
    : M rvalue :=
    let finish (n : Z) : M rvalue :=
      match OverflowInt t n with
      | None => wrongKind
      | Some true => saveError (DecodeConvertError kind t) ;; ret v
      | Some false => SetInt fl t n
      end in
    if isKind kind [kindInt64; kindTimestamp; kindDateTime] then
      let* n := scanInt64 in finish n
    else if kind =? kindInt32 then
      let* n := scanInt32 in finish n
    else if kind =? kindFloat then
      let* f := scanFloat in finish (int64_of_float64 f)
    else
      saveErrorAndSkip kind t ;; ret v.

Definition decodeUint (kind : Z) (t : rtype) (v : rvalue) (fl : flag)
    : M rvalue :=
    let finish (n : Z) : M rvalue :=
      match OverflowUint t n with
      | None => wrongKind
      | Some true => saveError (DecodeConvertError kind t) ;; ret v
      | Some false => SetUint fl t n
      end in
    if isKind kind [kindInt64; kindTimestamp; kindDateTime] then
      let* n := scanInt64 in finish (to_uint64 n)
    else if kind =? kindInt32 then
      let* n := scanInt32 in finish (to_uint64 n)
    else if kind =? kindFloat then
      let* f := scanFloat in finish (uint64_of_float64 f)
    else
      saveErrorAndSkip kind t ;; ret v.

Definition decodeTimestamp (kind : Z) (t : rtype) (v : rvalue) (fl : flag)
    : M rvalue :=
    if isKind kind [kindInt64; kindTimestamp] then decodeInt kindInt64 t v fl
    else saveErrorAndSkip kind t ;; ret v.

Definition decodeDateTime (kind : Z) (t : rtype) (v : rvalue) (fl : flag)
    : M rvalue :=
    if isKind kind [kindInt64; kindDateTime] then decodeInt kindInt64 t v fl
    else saveErrorAndSkip kind t ;; ret v.

Definition decodeString (kind : Z) (t : rtype) (v : rvalue) (fl : flag)
    : M rvalue :=
    if isKind kind [kindString; kindSymbol; kindCode] then
      let* s := scanString in SetString fl t s
    else saveErrorAndSkip kind t ;; ret v.

Definition decodeObjectId (kind : Z) (t : rtype) (v : rvalue) (fl : flag)
    : M rvalue :=
    if kind =? kindObjectId then
      let* p := scanSlice 12 in SetString fl t (string_of_list_byte p)
    else saveErrorAndSkip kind t ;; ret v.

Definition decodeBSONData (kind : Z) (t : rtype) (v : rvalue) (fl : flag)
    : M rvalue :=
    let* d0 := get in
    let start := offset d0 in
    skipValue kind ;;
    let* d1 := get in
    match slice (data d1) start (offset d1) with
    | None => runtimePanic "slice bounds out of range"
    | Some p => Set_ fl (VStruct [VInt kind; bytesValue p])
    end.

Definition decodeByteSlice (kind : Z) (t : rtype) (v : rvalue) (fl : flag)
    : M rvalue :=
    if kind =? kindBinary then
      let* '(p, _) := scanBinary in
      match v with
      | VSlice None => Set_ fl (bytesValue p)
      | VSlice (Some (backing, _)) =>
          if (length backing <? length p)%nat then Set_ fl (bytesValue p)
          else
            Set_ fl
              (VSlice (Some (map (fun b => VUint (byte_to_Z b)) p
                               ++ drop (length p) backing, length p)))
      | _ => wrongKind
      end
    else saveErrorAndSkip kind t ;; ret v.

Definition decodeBool (kind : Z) (t : rtype) (v : rvalue) (fl : flag)
    : M rvalue :=
    if kind =? kindBool then
      let* b := scanBool in SetBool fl t b
    else if kind =? kindInt32 then
      let* n := scanInt32 in SetBool fl t (negb (n =? 0))
    else if kind =? kindInt64 then
      let* n := scanInt64 in SetBool fl t (negb (n =? 0))
    else if kind =? kindFloat then
      let* f := scanFloat in SetBool fl t (float64_nonzero f)
    else saveErrorAndSkip kind t ;; ret v.

Definition decodeMinMax (kind : Z) (t : rtype) (v : rvalue) (fl : flag)
    : M rvalue :=
    if kind =? kindMaxValue then SetInt fl t 1
    else if kind =? kindMinValue then SetInt fl t (-1)
    else saveError (DecodeConvertError kind t) ;; ret v.

  (** The element loop of [decodeMapStringInterface]. *)
Fixpoint mapStringInterfaceLoop (fuel : nat) (m : gmap string rvalue)
    : M (gmap string rvalue) :=
    match fuel with
    | O => timeout
    | S fuel' =>
        let* '(kind, name) := scanKindName in
        if kind =? 0 then ret m
        else if kind =? kindNull then mapStringInterfaceLoop fuel' m
        else
          let* x := decodeValueInterface fuel' kind in
          mapStringInterfaceLoop fuel'
            (<[string_of_list_byte name := VInterface x]> m)
    end.

Definition decodeMapStringInterface (fuel : nat) (kind : Z) (t : rtype)
    (v : rvalue) (fl : flag) : M rvalue :=
    (if negb (kind =? kindDocument) then saveErrorAndSkip kind t else ret tt) ;;
    match v with
    | VMap mv =>
        let* m :=
          match mv with
          | None => if CanSet fl then ret ∅ else cannotSet fl
          | Some m => ret m
          end in
        (if flagRO fl then
           runtimePanic
             "reflect.Value.Interface: cannot return value obtained from unexported field or method"
         else ret tt) ;;
        let* offset' := beginDoc in
        let* m' := mapStringInterfaceLoop fuel m in
        endDoc offset' ;;
        ret (VMap (Some m'))
    | _ => wrongKind
    end.

  (** [reflect.ValueOf(x)] of a nil interface is the zero [Value], which
      [Set] refuses once it has found [v] assignable. *)
Definition decodeInterface (fuel : nat) (kind : Z) (t : rtype) (v : rvalue)
    (fl : flag) : M rvalue :=
    let* x := decodeValueInterface fuel kind in
    if CanSet fl then
      match x with
      | None => runtimePanic "reflect: call of reflect.Value.Set on zero Value"
      | Some _ => ret (VInterface x)
      end
    else cannotSet fl.

  (** [v.FieldByIndex(index)]: the type of the field, whether every field on
      the path is exported, and the field's value. *)
Fixpoint fieldTypeByIndex (t : rtype) (index : list nat) : option (rtype * bool) :=
    match index with
    | [] => Some (t, true)
    | i :: rest =>
        match underlying t with
        | TStruct fs =>
            match fs !! i with
            | Some f =>
                match fieldTypeByIndex (Type_ f) rest with
                | Some (ft, exported) =>
                    Some (ft, String.eqb (PkgPath f) "" && exported)
                | None => None
                end
            | None => None
            end
        | _ => None
        end
    end.

Fixpoint FieldByIndex (v : rvalue) (index : list nat) : option rvalue :=
    match index with
    | [] => Some v
    | i :: rest =>
        match v with
        | VStruct l =>
            match l !! i with
            | Some x => FieldByIndex x rest
            | None => None
            end
        | _ => None
        end
    end.

  (** The struct with the field at [index] replaced by [x]. *)
Fixpoint withField (v : rvalue) (index : list nat) (x : rvalue) : rvalue :=
    match index with
    | [] => x
    | i :: rest =>
        match v with
        | VStruct l =>
            match l !! i with
            | Some y => VStruct (<[i := withField y rest x]> l)
            | None => v
            end
        | _ => v
        end
    end.

Section Containers.

    (** The recursive call [d.decodeValue(kind, v)]. *)
Variable decodeValue : Z -> rtype -> rvalue -> flag -> M rvalue.

Fixpoint mapLoop (fuel : nat) (key elem : rtype) (m : gmap string rvalue)
      (fl : flag) : M (gmap string rvalue) :=
      match fuel with
      | O => timeout
      | S fuel' =>
          let* '(kind, name) := scanKindName in
          if kind =? 0 then ret m
          else if kind =? kindNull then mapLoop fuel' key elem m fl
          else
            let* subv := decodeValue kind elem (zero elem) settable in
            mustBeExported fl ;;
            match key with
            | TString =>
                mapLoop fuel' key elem (<[string_of_list_byte name := subv]> m) fl
            | _ =>
                runtimePanic
                  "reflect.Value.SetMapIndex: value of type string is not assignable"
            end
      end.

Definition decodeMap (fuel : nat) (kind : Z) (t : rtype) (v : rvalue)
  (fl : flag) : M rvalue :=
  match underlying t with
  | TMap key elem =>
      if negb (match Kind key with reflect.String => true | _ => false end)
         || negb (kind =? kindDocument)
      then saveErrorAndSkip kind t ;; ret v
      else
        match v with
        | VMap mv =>
            let* m :=
              match mv with
              | None => if CanSet fl then ret ∅ else cannotSet fl
              | Some m => ret m
              end in
            let* offset' := beginDoc in
            let* m' := mapLoop fuel key elem m fl in
            endDoc offset' ;;
            ret (VMap (Some m'))
        | _ => wrongKind
        end
  | _ => wrongKind
  end.

(** The slice is its backing array (up to the capacity) and its length. *)
Fixpoint sliceLoop (fuel : nat) (elem : rtype) (s : option (list rvalue * nat))
      (fl : flag) (i : nat) : M (option (list rvalue * nat)) :=
      match fuel with
      | O => timeout
      | S fuel' =>
          let* '(kind, _) := scanKindName in
          if kind =? 0 then ret s
          else
            let backing := match s with Some (b, _) => b | None => [] end in
            let ln := match s with Some (_, n) => n | None => O end in
            let cap := length backing in
            let* backing1 :=
              if (cap <=? i)%nat then
                let newcap := (cap + cap / 2)%nat in
                let newcap := if (newcap <? 4)%nat then 4%nat else newcap in
                if CanSet fl then
                  ret (take ln backing ++ replicate (newcap - ln) (zero elem))
                else cannotSet fl
              else ret backing in
            let* ln1 :=
              if (ln <=? i)%nat then
                (if CanSet fl then ret (S i) else cannotSet fl)
              else ret ln in
            match backing1 !! i with
            | None => runtimePanic "reflect: slice index out of range"
            | Some x =>
                let* x' := decodeValue kind elem x (flagElem fl) in
                sliceLoop fuel' elem (Some (<[i := x']> backing1, ln1)) fl (S i)
            end
      end.

Definition decodeSlice (fuel : nat) (kind : Z) (t : rtype) (v : rvalue)
      (fl : flag) : M rvalue :=
      if negb (kind =? kindArray) then saveErrorAndSkip kind t ;; ret v
      else
        match underlying t, v with
        | TSlice elem, VSlice s =>
            let* offset' := beginDoc in
            let* s' := sliceLoop fuel elem s fl O in
            endDoc offset' ;;
            ret (VSlice s')
        | _, _ => wrongKind
        end.

Fixpoint arrayLoop (fuel : nat) (elem : rtype) (l : list rvalue)
      (fl : flag) (i : nat) : M (list rvalue) :=
      match fuel with
      | O => timeout
      | S fuel' =>
          let* '(kind, _) := scanKindName in
          if kind =? 0 then ret l
          else
            match l !! i with
            | Some x =>
                let* x' := decodeValue kind elem x fl in
                arrayLoop fuel' elem (<[i := x']> l) fl (S i)
            | None =>
                skipValue kind ;;
                arrayLoop fuel' elem l fl (S i)
            end
      end.

Definition decodeArray (fuel : nat) (kind : Z) (t : rtype) (v : rvalue)
      (fl : flag) : M rvalue :=
      if negb (kind =? kindArray) then saveErrorAndSkip kind t ;; ret v
      else
        match underlying t, v with
        | TArray _ elem, VArray l =>
            let* offset' := beginDoc in
            let* l' := arrayLoop fuel elem l fl O in
            endDoc offset' ;;
            ret (VArray l')
        | _, _ => wrongKind
        end.

Fixpoint structLoop (fuel : nat) (t : rtype) (v : rvalue) (fl : flag)
      : M rvalue :=
      match fuel with
      | O => timeout
      | S fuel' =>
          let* '(kind, name) := scanKindName in
          if kind =? 0 then ret v
          else if kind =? kindNull then structLoop fuel' t v fl
          else
            match structSpecForType t name with
            | Some index =>
                match fieldTypeByIndex t index, FieldByIndex v index with
                | Some (ft, exported), Some x =>
                    let* x' := decodeValue kind ft x (flagField fl exported) in
                    structLoop fuel' t (withField v index x') fl
                | _, _ => runtimePanic "reflect: Field index out of range"
                end
            | None =>
                skipValue kind ;;
                structLoop fuel' t v fl
            end
      end.

Definition decodeStruct (fuel : nat) (kind : Z) (t : rtype) (v : rvalue)
      (fl : flag) : M rvalue :=
      let* offset' := beginDoc in
      let* v' := structLoop fuel t v fl in
      endDoc offset' ;;
      ret v'.

    (** The call [decoder(d, kind, v)] through the table entry. *)
Definition callDecoder (f : decoderFunc) (fuel : nat) (kind : Z) (t : rtype)
      (v : rvalue) (fl : flag) : M rvalue :=
      match f with
      | DecodeBool => decodeBool kind t v fl
      | DecodeFloat => decodeFloat kind t v fl
      | DecodeInt => decodeInt kind t v fl
      | DecodeUint => decodeUint kind t v fl
      | DecodeMap => decodeMap fuel kind t v fl
      | DecodeString => decodeString kind t v fl
      | DecodeStruct => decodeStruct fuel kind t v fl
      | DecodeSlice => decodeSlice fuel kind t v fl
      | DecodeArray => decodeArray fuel kind t v fl
      | DecodeBSONData => decodeBSONData kind t v fl
      | DecodeDateTime => decodeDateTime kind t v fl
      | DecodeMinMax => decodeMinMax kind t v fl
      | DecodeObjectId => decodeObjectId kind t v fl
      | DecodeTimestamp => decodeTimestamp kind t v fl
      | DecodeByteSlice => decodeByteSlice kind t v fl
      | DecodeMapStringInterface => decodeMapStringInterface fuel kind t v fl
      | DecodeInterface => decodeInterface fuel kind t v fl
      end.

End Containers.

  (** [indirect] on a freshly allocated zero value of pointer type [e]:
      the type it ends at, that type's zero value, and how the pointer chain
      is rebuilt around the decoded value.  [None] when [e] is not a pointer
      type. *)
Fixpoint indirectNew (e : rtype) : option (rtype * rvalue * (rvalue -> rvalue)) :=
    match e with
    | TPtr e' =>
        match indirectNew e' with
        | Some (t', z, rebuild) => Some (t', z, fun x => VPtr (Some (rebuild x)))
        | None => Some (e', zero e', fun x => VPtr (Some x))
        end
    | TDefined _ u => indirectNew u
    | _ => None
    end.

  (** [indirect]: walks down [v] through non-nil interfaces and pointers,
      allocating nil pointers.  Returns the type, value and flags of the
      value it stops at and how [v] is rebuilt around the decoded value, or
      the message of the panic of [Set] on a nil pointer that cannot be
      set. *)
Fixpoint indirect (t : rtype) (v : rvalue) (fl : flag)
    : string + (rtype * rvalue * flag * (rvalue -> rvalue)) :=
    match v with
    | VInterface (Some (dt, dv)) =>
        match indirect dt dv (flagInterfaceElem fl) with
        | inr (t', v', c, rebuild) =>
            inr (t', v', c, fun x => VInterface (Some (dt, rebuild x)))
        | inl msg => inl msg
        end
    | VPtr (Some x) =>
        match underlying t with
        | TPtr e =>
            match indirect e x (flagElem fl) with
            | inr (t', v', c, rebuild) =>
                inr (t', v', c, fun y => VPtr (Some (rebuild y)))
            | inl msg => inl msg
            end
        | _ => inl notSettableMessage
        end
    | VPtr None =>
        if CanSet fl then
          match indirectNew t with
          | Some (t', z, rebuild) => inr (t', z, settable, rebuild)
          | None => inl notSettableMessage
          end
        else inl (cannotSetMessage fl)
    | _ => inr (t, v, fl, fun x => x)
    end.

Fixpoint decodeValue (fuel : nat) (kind : Z) (t : rtype) (v : rvalue)
    (fl : flag) {struct fuel} : M rvalue :=
    match fuel with
    | O => timeout
    | S fuel' =>
        match indirect t v fl with
        | inl msg => runtimePanic msg
        | inr (t, v, fl, rebuild) =>
            let* v' :=
              match decoderFor t with
              | None => saveErrorAndSkip kind t ;; ret v
              | Some decoder =>
                  callDecoder (decodeValue fuel') decoder fuel' kind t v fl
              end in
            ret (rebuild v')
        end
    end.

  (** ** The entry points *)

  (** The argument [v interface{}] of [Decode]: a [reflect.Value] (type,
      value, flags) or any other Go value. *)
Inductive target :=
  | ReflectValue (t : rtype) (v : rvalue) (fl : flag)
  | Interface_ (x : dynamic).

  (** How a call ends: it returns [err] and leaves the target holding
      [v] ([None] after an abort, where the target is left partially
      decoded), it panics, or the model runs out of fuel. *)
Inductive outcome :=
  | Returned (err : option error) (v : option rvalue)
  | Panicked (p : panicValue)
  | Unfinished.

  (** [defer handleAbort(&err)] *)
Definition handleAbort (o : outcome) : outcome :=
    match o with
    | Panicked (aborted err) => Returned (Some err) None
    | _ => o
    end.

Definition decodeInternal (fuel : nat) (kind : Z) (data : list byte) (v : target)
    : outcome :=
    handleAbort
      (let run (t : rtype) (value : rvalue) (fl : flag)
           (rebuild : rvalue -> rvalue) : outcome :=
         let d := mkState data 0 None in
         match decodeValue fuel kind t value fl d with
         | Ok v' d' => Returned (savedError d') (Some (rebuild v'))
         | Panic p => Panicked p
         | OutOfFuel => Unfinished
         end in
       match v with
       | ReflectValue t value fl => run t value fl (fun x => x)
       | Interface_ None =>
           Returned (Some (errorString "bson: Decode arg must be pointer or map.")) None
       | Interface_ (Some (t, value)) =>
           match Kind t, value with
           | reflect.Map, VMap None =>
               Returned (Some (errorString "bson: Decode map arg must not be nil.")) None
           | reflect.Map, _ => run t value unaddressable (fun x => x)
           | reflect.Ptr, VPtr None =>
               Returned (Some (errorString "bson: Decode pointer arg must not be nil.")) None
           | reflect.Ptr, VPtr (Some x) =>
               match underlying t with
               | TPtr e => run e x settable (fun y => VPtr (Some y))
               | _ => Panicked (runtimeError "reflect: ill-typed value")
               end
           | reflect.Ptr, _ => Panicked (runtimeError "reflect: ill-typed value")
           | _, _ =>
               Returned (Some (errorString "bson: Decode arg must be pointer or map.")) None
           end
       end).

Definition Decode (fuel : nat) (data : list byte) (v : target) : outcome :=
    decodeInternal fuel kindDocument data v.

End Decoder.

(** ** Ordered documents *)

(** [DocItem]; the value is an [interface{}]. *)
Record DocItem := mkDocItem { Key : string; Value : dynamic }.

(** [D] *)
Abbreviation D := (list DocItem).

(** [d.Append(name, value)] *)
Definition Append (d : D) (name : string) (value : dynamic) : D :=
  d ++ [mkDocItem name value].

(** A Go [int] held in an interface. *)
Definition intValue (n : Z) : dynamic := Some (TInt WInt, VInt n).
Definition stringValue (s : string) : dynamic := Some (TString, VString s).

(** ** Object ids *)

Abbreviation ObjectId := string (only parsing).

Definition newObjectId (t : Z) (c : Z) : ObjectId :=
  string_of_list_byte
    [ byte_of_Z (Z.shiftr t 24);
      byte_of_Z (Z.shiftr t 16);
      byte_of_Z (Z.shiftr t 8);
      byte_of_Z t;
      byte_of_Z (Z.shiftr c 56);
      byte_of_Z (Z.shiftr c 48);
      byte_of_Z (Z.shiftr c 40);
      byte_of_Z (Z.shiftr c 32);
      byte_of_Z (Z.shiftr c 24);
      byte_of_Z (Z.shiftr c 16);
      byte_of_Z (Z.shiftr c 8);
      byte_of_Z c ].

Definition MaxObjectIdForTime (t : Z) : ObjectId :=
  newObjectId t 0xffffffffffffffff.

Definition MinObjectIdForTime (t : Z) : ObjectId :=
  newObjectId t 0.

(** [encoding/hex]: [EncodeToString] writes two lower-case digits per
    byte; [DecodeString] refuses an input of odd length and a character that
    is not a hexadecimal digit, and takes digits of either case. *)
Module hex.
Inductive error :=
| OddLengthInputError
| InvalidHexCharError (c : byte).

Definition hextable : list byte := list_byte_of_string "0123456789abcdef".

Fixpoint Encode (src : list byte) : list byte :=
  match src with
  | [] => []
  | v :: rest =>
      default x00 (index hextable (Z.shiftr (byte_to_Z v) 4))
      :: default x00 (index hextable (Z.land (byte_to_Z v) 0x0f))
      :: Encode rest
  end.

Definition fromHexChar (c : byte) : option Z :=
  let c := byte_to_Z c in
  if (48 <=? c) && (c <=? 57) then Some (c - 48)
  else if (97 <=? c) && (c <=? 102) then Some (c - 97 + 10)
  else if (65 <=? c) && (c <=? 70) then Some (c - 65 + 10)
  else None.

(** The loop of [Decode] over the pairs of digits. *)
Fixpoint decodePairs (src : list byte) : error + list byte :=
  match src with
  | a :: b :: rest =>
      match fromHexChar a with
      | None => inl (InvalidHexCharError a)
      | Some x =>
          match fromHexChar b with
          | None => inl (InvalidHexCharError b)
          | Some y =>
              match decodePairs rest with
              | inl e => inl e
              | inr p => inr (byte_of_Z (Z.lor (Z.shiftl x 4) y) :: p)
              end
          end
      end
  | _ => inr []
  end.

Definition Decode (src : list byte) : error + list byte :=
  if len src mod 2 =? 1 then inl OddLengthInputError else decodePairs src.

Definition EncodeToString (src : list byte) : string :=
  string_of_list_byte (Encode src).

Definition DecodeString (s : string) : error + list byte :=
  Decode (list_byte_of_string s).
End hex.

(** [id.String()] *)
Definition ObjectId_String (id : ObjectId) : string :=
  hex.EncodeToString (list_byte_of_string id).

(** [NewObjectIdHex(hexString)]: the id and the error; the error is the one
    of [hex.DecodeString] or the message of [os.NewError]. *)
Definition NewObjectIdHex (hexString : string)
  : ObjectId * option (hex.error + string) :=
  match hex.DecodeString hexString with
  | inl err => ("", Some (inl err))
  | inr p =>
      if negb (len p =? 12) then ("", Some (inr "mongo: bad object id string len"))
      else (string_of_list_byte p, None)
  end.

(** [int64(id[i])]; an index in range is read, the callers check [len(id)]. *)
Definition idByte (id : ObjectId) (i : nat) : Z :=
  match list_byte_of_string id !! i with
  | Some b => byte_to_Z b
  | None => 0
  end.

Definition CreationTime (id : ObjectId) : Z :=
  if negb (len (list_byte_of_string id) =? 12) then 0
  else
    Z.shiftl (idByte id 0) 24 + Z.shiftl (idByte id 1) 16
    + Z.shiftl (idByte id 2) 8 + idByte id 3.

(** [nextOidCounter] on the counter [oidCounter]; [rand] is what the
    cryptographic source delivers when the counter is still zero.  Returns
    the new counter, which is also the result. *)
Definition nextOidCounter (rand : Z) (oidCounter : Z) : Z :=
  let oidCounter := if oidCounter =? 0 then to_uint64 rand else oidCounter in
  to_uint64 (oidCounter + 1).

(** [NewObjectId] at wall-clock second [now]: the id and the new counter. *)
Definition NewObjectId (now rand oidCounter : Z) : ObjectId * Z :=
  let c := nextOidCounter rand oidCounter in
  (newObjectId now c, c).

(** ** Struct metadata *)

Record fieldInfo := mkFieldInfo {
  name : string;
  index_ : list nat;
  conditional : bool
}.

Record structInfo := mkStructInfo {
  m : gmap string fieldInfo;
  l : list fieldInfo;
  fields : D
}.

(** [si.FieldInfo(name)] *)
Definition FieldInfo (si : structInfo) (name : list byte) : option fieldInfo :=
  m si !! string_of_list_byte name.

(** [strings.Split(s, "/")] *)
Fixpoint splitSlash (s : string) : list string :=
  match s with
  | EmptyString => [EmptyString]
  | String c s' =>
      if Ascii.eqb c "/"%char then EmptyString :: splitSlash s'
      else
        match splitSlash s' with
        | x :: xs => String c x :: xs
        | [] => [String c EmptyString]
        end
  end.

(** The loop over the flags [p[1:]]: [None] is the panic on an unknown
    flag. *)
Fixpoint fieldFlags (flags : list string) (conditional : bool) : option bool :=
  match flags with
  | [] => Some conditional
  | s :: rest =>
      if String.eqb s "c" then fieldFlags rest true else None
  end.

(** The removal loop of the same-depth case: keeps the entries of [si.l]
    whose name differs. *)
Fixpoint removeName (name' : string) (l : list fieldInfo) : list fieldInfo :=
  match l with
  | [] => []
  | fi :: rest =>
      if negb (String.eqb name' (name fi)) then fi :: removeName name' rest
      else removeName name' rest
  end.

(** The [default] case of [compileStructInfo] for the field [f] at position
    [i]. *)
Definition compileField (f : StructField) (i : nat) (depth : gmap string Z)
  (index : list nat) (si : structInfo) : option (gmap string Z * structInfo) :=
  let p := splitSlash (Tag f) in
  let name0 := match p with
               | p0 :: _ => if (0 <? len (list_byte_of_string p0)) then p0 else Name f
               | [] => Name f
               end in
  match fieldFlags (tail p) false with
  | None => None
  | Some cond =>
      let d := match depth !! name0 with Some d => d | None => Z.shiftl 1 30 end in
      if len index =? d then
        Some (depth, mkStructInfo (delete name0 (m si)) (removeName name0 (l si)) (fields si))
      else if len index <? d then
        let fi := mkFieldInfo name0 (index ++ [i]) cond in
        Some (<[name0 := len index]> depth,
              mkStructInfo (<[name0 := fi]> (m si)) (l si ++ [fi]) (fields si))
      else Some (depth, si)
  end.

(** The loop of [compileStructInfo] over the fields from position [i];
    [recurse] is the recursive call for an embedded struct. *)
Fixpoint compileFields
  (recurse : rtype -> gmap string Z -> list nat -> structInfo
             -> option (gmap string Z * structInfo))
  (index : list nat) (fs : list StructField) (i : nat) (depth : gmap string Z)
  (si : structInfo) {struct fs} : option (gmap string Z * structInfo) :=
  match fs with
  | [] => Some (depth, si)
  | f :: rest =>
      let r :=
        if negb (String.eqb (PkgPath f) "") then Some (depth, si)
        else if Anonymous f then
          match Kind (Type_ f) with
          | reflect.Struct => recurse (Type_ f) depth (index ++ [i]) si
          | _ => Some (depth, si)
          end
        else compileField f i depth index si in
      match r with
      | Some (depth', si') => compileFields recurse index rest (S i) depth' si'
      | None => None
      end
  end.

(** [compileStructInfo(t, depth, index, si)]: the updated [depth] and [si];
    [None] is a panic (an unknown field flag, or [NumField] of a type that
    is not a struct). *)
Fixpoint compileStructInfo (t : rtype) (depth : gmap string Z) (index : list nat)
  (si : structInfo) {struct t} : option (gmap string Z * structInfo) :=
  match t with
  | TStruct fs =>
      compileFields
        (fun t' depth' index' si' => compileStructInfo t' depth' index' si')
        index fs O depth si
  | TDefined _ u => compileStructInfo u depth index si
  | _ => None
  end.

(** The loop of [structInfoForType] that builds [si.fields]. *)
Fixpoint projectionLoop (l : list fieldInfo) (hasId : bool) (fields : D) : bool * D :=
  match l with
  | [] => (hasId, fields)
  | fi :: rest =>
      if String.eqb (name fi) "_id" then projectionLoop rest true fields
      else projectionLoop rest hasId (Append fields (name fi) (intValue 1))
  end.

(** What [structInfoForType] computes for [t] on a cache miss: the compiled
    metadata with the projection [si.fields]; [None] is the panic of
    [compileStructInfo]. *)
Definition newStructInfo (t : rtype) : option structInfo :=
  match compileStructInfo t ∅ [] (mkStructInfo ∅ [] []) with
  | None => None
  | Some (_, si) =>
      let '(hasId, fields) := projectionLoop (l si) false (fields si) in
      let fields := if negb hasId then Append fields "_id" (intValue 0) else fields in
      Some (mkStructInfo (m si) (l si) fields)
  end.

(** Identity of types, the equality of the keys of [structInfoCache]. *)
Definition intSize_eqb (a b : intSize) : bool :=
  match a, b with
  | W8, W8 | W16, W16 | W32, W32 | W64, W64 | WInt, WInt => true
  | _, _ => false
  end.

Definition otherKind_eqb (a b : otherKind) : bool :=
  match a, b with
  | OUintptr, OUintptr | OComplex64, OComplex64 | OComplex128, OComplex128
  | OChan, OChan | OFunc, OFunc | OInterface, OInterface
  | OUnsafePointer, OUnsafePointer => true
  | _, _ => false
  end.

Fixpoint rtype_eqb (a b : rtype) {struct a} : bool :=
  match a, b with
  | TBool, TBool | TFloat32, TFloat32 | TFloat64, TFloat64
  | TString, TString | TInterface, TInterface => true
  | TInt w, TInt w' | TUint w, TUint w' => intSize_eqb w w'
  | TMap k e, TMap k' e' => rtype_eqb k k' && rtype_eqb e e'
  | TSlice e, TSlice e' | TPtr e, TPtr e' => rtype_eqb e e'
  | TArray n e, TArray n' e' => Nat.eqb n n' && rtype_eqb e e'
  | TStruct fs, TStruct fs' =>
      (fix fields_eqb (fs fs' : list StructField) {struct fs} : bool :=
         match fs, fs' with
         | [], [] => true
         | f :: r, f' :: r' =>
             String.eqb (Name f) (Name f') && String.eqb (PkgPath f) (PkgPath f')
             && rtype_eqb (Type_ f) (Type_ f') && String.eqb (Tag f) (Tag f')
             && Bool.eqb (Anonymous f) (Anonymous f') && fields_eqb r r'
         | _, _ => false
         end) fs fs'
  | TDefined n u, TDefined n' u' => String.eqb n n' && rtype_eqb u u'
  | TOther k, TOther k' => otherKind_eqb k k'
  | _, _ => false
  end.

(** [structInfoCache]: the entries, the latest first.  The calls are taken
    one after the other, so [structInfoMutex] does not appear. *)
Abbreviation structInfoCache := (list (rtype * structInfo)).

(** [structInfoCache[t]] *)
Fixpoint cacheLookup (cache : structInfoCache) (t : rtype) : option structInfo :=
  match cache with
  | [] => None
  | (t', si) :: rest => if rtype_eqb t' t then Some si else cacheLookup rest t
  end.

(** [structInfoForType(t)] on the cache: the metadata and the cache
    afterwards; [None] is the panic of [compileStructInfo].  The second
    lookup, under the write lock, finds what the first one found. *)
Definition structInfoForType (cache : structInfoCache) (t : rtype)
  : option (structInfo * structInfoCache) :=
  match cacheLookup cache t with
  | Some si => Some (si, cache)
  | None =>
      match cacheLookup cache t with
      | Some si => Some (si, cache)
      | None =>
          match newStructInfo t with
          | Some si => Some (si, (t, si) :: cache)
          | None => None
          end
      end
  end.

Definition StructFields (cache : structInfoCache) (t : rtype)
  : option (D * structInfoCache) :=
  match structInfoForType cache t with
  | Some (si, cache') => Some (fields si, cache')
  | None => None
  end.

(** ** The collection facade *)

Record MongoError := mkMongoError {
  Err : string;
  N : Z;
  Code : Z;
  Updated : bool;
  UpsertedId : dynamic
}.

Record CommandResponse := mkCommandResponse {
  Ok_ : bool;
  Errmsg : string
}.

(** An [os.Error] of the facade.  [ErrNotFound] is the package variable;
    [NewError msg] is a value made by [os.NewError] at the point of use;
    [MongoErr e] is a [*MongoError] returned as an error; [ConnError msg] is
    an error that the connection or one of its cursors returned. *)
Inductive oserror :=
| ErrNotFound
| NewError (msg : string)
| MongoErr (e : MongoError)
| ConnError (msg : string).

(** [s.Error()] of a [CommandResponse] *)
Definition CommandResponse_Error (s : CommandResponse) : option oserror :=
  if Ok_ s then None
  else
    let errmsg := Errmsg s in
    let errmsg := if String.eqb errmsg "" then "unspecified error" else errmsg in
    Some (NewError errmsg).

(** [strings.Index(s, ".")]; [-1] when there is no dot. *)
Fixpoint indexDot (s : string) : Z :=
  match s with
  | EmptyString => -1
  | String c s' =>
      if Ascii.eqb c "."%char then 0
      else let i := indexDot s' in if i <? 0 then -1 else i + 1
  end.

Definition SplitNamespace (s : string) : string * string :=
  let i := indexDot s in
  if 0 <? i then
    (substring 0 (Z.to_nat i) s,
     substring (Z.to_nat (i + 1)) (String.length s - Z.to_nat (i + 1)) s)
  else (s, "").

Record IndexOptions := mkIndexOptions {
  ixName : string;
  Unique : bool;
  DropDups : bool;
  Background : bool;
  Sparse : bool;
  Min : dynamic;
  Max : dynamic;
  Bits : Z
}.

(** The zero [IndexOptions]. *)
Definition zeroIndexOptions : IndexOptions :=
  mkIndexOptions "" false false false false None None 0.

(** [o.Name = n] *)
Definition setName (o : IndexOptions) (n : string) : IndexOptions :=
  mkIndexOptions n (Unique o) (DropDups o) (Background o) (Sparse o) (Min o)
    (Max o) (Bits o).

(** The anonymous struct [index] of [CreateIndex]. *)
Record indexDescriptor := mkIndex {
  ixKeys : D;
  ixNamespace : string;
  ixOptions : IndexOptions
}.

(** A document handed to [Insert]: any Go value, or the pointer to the index
    descriptor that [CreateIndex] builds. *)
Inductive document :=
| Document (x : dynamic)
| IndexDocument (index : indexDescriptor).

Record UpdateOptions := mkUpdateOptions { Upsert : bool; Multi : bool }.
Record RemoveOptions := mkRemoveOptions { Single : bool }.
Record FindOptions := mkFindOptions { BatchSize : Z; SlaveOk : bool }.

Definition upsertOptions : UpdateOptions := mkUpdateOptions true false.
Definition updateAllOptions : UpdateOptions := mkUpdateOptions false true.
Definition removeFirstOptions : RemoveOptions := mkRemoveOptions true.
Definition runFindOptions : FindOptions := mkFindOptions (-1) false.

(** [map[string]int{"getLastError": 1}] *)
Definition DefaultLastErrorCmd : dynamic :=
  Some (TMap TString (TInt WInt), VMap (Some {[ "getLastError" := VInt 1 ]})).

(** The target [r] of [LastError]: the embedded [CommandResponse] and
    [MongoError]. *)
Record lastErrorReply := mkReply {
  replyResponse : CommandResponse;
  replyError : MongoError
}.

Definition zeroReply : lastErrorReply :=
  mkReply (mkCommandResponse false "") (mkMongoError "" 0 0 false None).

(** [strconv.Itoa] *)
Definition Itoa (v : Z) : string := NilZero.string_of_int (Z.to_int v).

(** The loop of [IndexName] over [keys] from position [i] with the buffer
    [buf]; [None] is the panic on a direction that is neither an [int] nor a
    [string]. *)
Fixpoint IndexName_loop (keys : D) (i : nat) (buf : string) : option string :=
  match keys with
  | [] => Some buf
  | key :: rest =>
      let buf := if negb (i =? 0)%nat then buf +:+ "_" else buf in
      let buf := buf +:+ Key key in
      let buf := buf +:+ "_" in
      match Value key with
      | Some (TInt WInt, VInt v) => IndexName_loop rest (S i) (buf +:+ Itoa v)
      | Some (TString, VString v) => IndexName_loop rest (S i) (buf +:+ v)
      | _ => None
      end
  end.

Definition IndexName (keys : D) : option string := IndexName_loop keys O "".

Section Facade.

(** The state of the world outside the process: the server and the
    connection to it. *)
Variable World : Type.

(** The options of [Conn.Insert]; the facade only ever passes [nil]. *)
Variable InsertOptions : Type.

(** Modelled from the spec: the [Conn] interface and its cursors are not in
    the sources.  Section 6 gives the operations [Update], [Insert], [Remove]
    and [Find], each returning an error or nothing, and raw cursors with
    [Next(target)] and [Close()].  Every operation may change the world.  An
    error of the connection is its message; the facade sees it as
    [ConnError].  A cursor's [Next] is given here for the target of
    [LastError]: it returns the error, if any, and the target as decoded. *)
Record Cursor := mkCursor {
  cursor_Next : lastErrorReply -> World -> option string * lastErrorReply * World;
  cursor_Close : World -> World
}.

Record Conn := mkConn {
  conn_Update : string -> dynamic -> dynamic -> option UpdateOptions -> World
                -> option string * World;
  conn_Insert : string -> option InsertOptions -> list document -> World
                -> option string * World;
  conn_Remove : string -> dynamic -> option RemoveOptions -> World
                -> option string * World;
  conn_Find : string -> dynamic -> FindOptions -> World
              -> (string + Cursor) * World
}.

Definition connError (e : option string) : option oserror :=
  option_map ConnError e.

Record Database := mkDatabase {
  dbConn : Conn;
  dbName : string;
  dbLastErrorCmd : dynamic
}.

Record Collection := mkCollection {
  cConn : Conn;
  Namespace : string;
  LastErrorCmd : dynamic
}.

(** [db.C(name)] *)
Definition C (db : Database) (name' : string) : Collection :=
  mkCollection (dbConn db) (dbName db +:+ "." +:+ name') (dbLastErrorCmd db).

(** [c.Db()] *)
Definition Db (c : Collection) : Database :=
  let '(name', _) := SplitNamespace (Namespace c) in
  mkDatabase (cConn c) name' (LastErrorCmd c).

(** [c.Name()] *)
Definition Collection_Name (c : Collection) : string :=
  let '(_, name') := SplitNamespace (Namespace c) in name'.

(** [db.LastError(cmd)]: the [*MongoError] (never nil), the error and the
    world afterwards.  The deferred [cursor.Close()] runs on every return
    after the cursor was obtained. *)
Definition LastError (db : Database) (cmd : dynamic) (w : World)
  : MongoError * option oserror * World :=
  let cmd := match cmd with None => DefaultLastErrorCmd | Some _ => cmd end in
  let r := zeroReply in
  match conn_Find (dbConn db) (dbName db +:+ ".$cmd") cmd runFindOptions w with
  | (inl err, w1) => (replyError r, Some (ConnError err), w1)
  | (inr cursor, w1) =>
      match cursor_Next cursor r w1 with
      | (Some err, r', w2) => (replyError r', Some (ConnError err), cursor_Close cursor w2)
      | (None, r', w2) =>
          let w3 := cursor_Close cursor w2 in
          match CommandResponse_Error (replyResponse r') with
          | Some err => (replyError r', Some err, w3)
          | None =>
              if negb (String.eqb (Err (replyError r')) "")
              then (replyError r', Some (MongoErr (replyError r')), w3)
              else (replyError r', None, w3)
          end
      end
  end.

(** [c.checkError(err)]; the [*MongoError] is [None] when nil. *)
Definition checkError (c : Collection) (err : option oserror) (w : World)
  : option MongoError * option oserror * World :=
  match err with
  | Some _ => (None, err, w)
  | None =>
      match LastErrorCmd c with
      | None => (None, None, w)
      | Some _ =>
          let '(merr, err', w') := LastError (Db c) (LastErrorCmd c) w in
          (Some merr, err', w')
      end
  end.

Definition Insert (c : Collection) (documents : list document) (w : World)
  : option oserror * World :=
  let '(e, w1) := conn_Insert (cConn c) (Namespace c) None documents w in
  let '(_, err, w2) := checkError c (connError e) w1 in
  (err, w2).

Definition Update (c : Collection) (selector update : dynamic) (w : World)
  : option oserror * World :=
  let '(e, w1) := conn_Update (cConn c) (Namespace c) selector update None w in
  let '(merr, err, w2) := checkError c (connError e) w1 in
  let err :=
    match merr, err with
    | Some merr, None => if negb (Updated merr) then Some ErrNotFound else err
    | _, _ => err
    end in
  (err, w2).

Definition UpdateAll (c : Collection) (selector update : dynamic) (w : World)
  : option oserror * World :=
  let '(e, w1) :=
    conn_Update (cConn c) (Namespace c) selector update (Some updateAllOptions) w in
  let '(merr, err, w2) := checkError c (connError e) w1 in
  let err :=
    match merr, err with
    | Some merr, None => if negb (Updated merr) then Some ErrNotFound else err
    | _, _ => err
    end in
  (err, w2).

Definition Upsert_ (c : Collection) (selector update : dynamic) (w : World)
  : option oserror * World :=
  let '(e, w1) :=
    conn_Update (cConn c) (Namespace c) selector update (Some upsertOptions) w in
  let '(_, err, w2) := checkError c (connError e) w1 in
  (err, w2).

Definition RemoveFirst (c : Collection) (selector : dynamic) (w : World)
  : option oserror * World :=
  let '(e, w1) :=
    conn_Remove (cConn c) (Namespace c) selector (Some removeFirstOptions) w in
  let '(_, err, w2) := checkError c (connError e) w1 in
  (err, w2).

Definition Remove (c : Collection) (selector : dynamic) (w : World)
  : option oserror * World :=
  let '(e, w1) := conn_Remove (cConn c) (Namespace c) selector None w in
  let '(_, err, w2) := checkError c (connError e) w1 in
  (err, w2).

(** [c.CreateIndex(keys, options)]; [None] is the panic of [IndexName]. *)
Definition CreateIndex (c : Collection) (keys : D) (options : option IndexOptions)
  (w : World) : option (option oserror * World) :=
  let opts :=
    match options with
    | Some o => o
    | None => zeroIndexOptions
    end in
  let named :=
    if String.eqb (ixName opts) "" then
      match IndexName keys with
      | Some n => Some (setName opts n)
      | None => None
      end
    else Some opts in
  match named with
  | None => None
  | Some opts' =>
      let index := mkIndex keys (Namespace c) opts' in
      let c :=
        match LastErrorCmd c with
        | None => mkCollection (cConn c) (Namespace c) DefaultLastErrorCmd
        | Some _ => c
        end in
      Some (Insert (C (Db c) "system.indexes") [IndexDocument index] w)
  end.

End Facade.

(** The value that a byte sequence denotes in big-endian order. *)
Definition bigEndian (p : list byte) : Z :=
  fold_left (fun acc b => acc * 256 + byte_to_Z b) p 0.

(** ** The standard index name, as the specification words it

    The name is the concatenation [k1_v1_k2_v2_...], each direction written
    as a signed integer or as the direction name. *)

Definition directionString (v : dynamic) : option string :=
  match v with
  | Some (TInt WInt, VInt n) => Some (Itoa n)
  | Some (TString, VString s) => Some s
  | _ => None
  end.

(** [[k1; v1; k2; v2; ...]], or [None] when a direction is neither an [int]
    nor a [string]. *)
Fixpoint nameParts (keys : D) : option (list string) :=
  match keys with
  | [] => Some []
  | key :: rest =>
      match directionString (Value key), nameParts rest with
      | Some v, Some ps => Some (Key key :: v :: ps)
      | _, _ => None
      end
  end.

Fixpoint joinUnderscore (parts : list string) : string :=
  match parts with
  | [] => ""
  | [p] => p
  | p :: rest => p +:+ "_" +:+ joinUnderscore rest
  end.

(** ** A connection for the examples

    The world is the log of the operations, latest first.  Every operation
    succeeds; the acknowledge reply is the one of a server that matched no
    document: [ok] is true, [err] is empty, [updatedExisting] is false. *)

Inductive logEntry :=
| LogUpdate (ns : string) (options : option UpdateOptions)
| LogInsert (ns : string) (documents : list document)
| LogRemove (ns : string)
| LogFind (ns : string) (cmd : dynamic)
| LogNext
| LogClose.

Definition noMatchReply : lastErrorReply :=
  mkReply (mkCommandResponse true "") (mkMongoError "" 0 0 false None).

Definition logCursor : Cursor (list logEntry) :=
  mkCursor (list logEntry)
    (fun _ w => (None, noMatchReply, LogNext :: w))
    (fun w => LogClose :: w).

Definition logConn : Conn (list logEntry) unit :=
  mkConn (list logEntry) unit
    (fun ns _ _ options w => (None, LogUpdate ns options :: w))
    (fun ns _ documents w => (None, LogInsert ns documents :: w))
    (fun ns _ _ w => (None, LogRemove ns :: w))
    (fun ns cmd _ w => (inr logCursor, LogFind ns cmd :: w)).

(** ** The projection of a struct, as the specification words it

    All present fields are requested with value [1] in declaration order,
    and [_id:0] is appended when the struct has no field named [_id]. *)

Definition specStructFields (names : list string) : D :=
  map (fun n => mkDocItem n (intValue 1)) names
  ++ (if existsb (String.eqb "_id") names then []
      else [mkDocItem "_id" (intValue 0)]).

(** What [structInfoForType] builds from the names of [si.l]: the fields
    other than [_id] with value [1], then [_id:0] when no field is named
    [_id]. *)
Definition projection (names : list string) : D :=
  map (fun n => mkDocItem n (intValue 1))
    (filter (fun n => n <> "_id") names)
  ++ (if existsb (String.eqb "_id") names then []
      else [mkDocItem "_id" (intValue 0)]).

(** The name under which [compileStructInfo] records the field [f]. *)
Definition fieldName (f : StructField) : string :=
  match splitSlash (Tag f) with
  | p0 :: _ => if (0 <? len (list_byte_of_string p0)) then p0 else Name f
  | [] => Name f
  end.

(** A struct field that is exported, not embedded, and whose tag has no
    unknown flag. *)
Definition plainField (f : StructField) : Prop :=
  PkgPath f = "" /\ Anonymous f = false /\
  exists c, fieldFlags (tail (splitSlash (Tag f))) false = Some c.

(** ** Struct types for the examples *)

(** [type Inner struct { X int }] *)
Definition tInner : rtype :=
  TDefined "Inner" (TStruct [mkField "X" "" (TInt WInt) "" false]).

(** [type Other struct { X int }] *)
Definition tOther : rtype :=
  TDefined "Other" (TStruct [mkField "X" "" (TInt WInt) "" false]).

(** [type EmbeddedFirst struct { Inner; X string }] *)
Definition tEmbeddedFirst : rtype :=
  TDefined "EmbeddedFirst"
    (TStruct [mkField "Inner" "" tInner "" true; mkField "X" "" TString "" false]).

(** [type EmbeddedLast struct { X string; Inner }] *)
Definition tEmbeddedLast : rtype :=
  TDefined "EmbeddedLast"
    (TStruct [mkField "X" "" TString "" false; mkField "Inner" "" tInner "" true]).

(** [type Twins struct { Inner; Other; Y int }] *)
Definition tTwins : rtype :=
  TDefined "Twins"
    (TStruct [mkField "Inner" "" tInner "" true; mkField "Other" "" tOther "" true;
              mkField "Y" "" (TInt WInt) "" false]).

(** [type WithId struct { Id ObjectId `bson:"_id"`; X float64 `bson:"x"` }] *)
Definition tWithId : rtype :=
  TDefined "WithId"
    (TStruct [mkField "Id" "" tObjectId "_id" false;
              mkField "X" "" TFloat64 "x" false]).

(** [type NoId struct { X float64 `bson:"x"`; Y int `bson:"y/c"` }] *)
Definition tNoId : rtype :=
  TDefined "NoId"
    (TStruct [mkField "X" "" TFloat64 "x" false;
              mkField "Y" "" (TInt WInt) "y/c" false]).

(** ** The payload layout of a kind

    The number of bytes of the value of a kind at the read offset, as the
    BSON layout gives it: fixed for the scalars, and derived from the int32
    length prefix for strings (prefix, bytes, terminator counted by the
    prefix), documents (the prefix counts itself) and binary data (prefix,
    subtype byte, bytes). *)

Definition lengthPrefix (d : decodeState) : option Z :=
  option_map (fun p => to_int32 (wire.Uint32 p))
    (slice (data d) (offset d) (offset d + 4)).

Definition payloadSize (kind : Z) (d : decodeState) : option Z :=
  if isKind kind [kindString; kindSymbol] then
    option_map (fun n => 4 + n) (lengthPrefix d)
  else if isKind kind [kindDocument; kindArray] then lengthPrefix d
  else if isKind kind [kindBinary] then
    option_map (fun n => 4 + 1 + n) (lengthPrefix d)
  else if isKind kind [kindObjectId] then Some 12
  else if isKind kind [kindBool] then Some 1
  else if isKind kind [kindDateTime; kindTimestamp; kindInt64; kindFloat] then Some 8
  else if isKind kind [kindInt32] then Some 4
  else if isKind kind [kindMinValue; kindMaxValue; kindNull] then Some 0
  else None.

(** The saved error after recording [err]: the first one wins. *)
Definition firstError (saved : option error) (err : error) : option error :=
  match saved with
  | Some e => Some e
  | None => Some err
  end.

(** The kinds that a decoder function converts; for every other kind the
    function takes its [default] case.  [DecodeBSONData] and
    [DecodeInterface] have no kind switch, and [DecodeStruct] has no kind
    check. *)
Definition accepts (f : decoderFunc) (kind : Z) : bool :=
  match f with
  | DecodeBool => isKind kind [kindBool; kindInt32; kindInt64; kindFloat]
  | DecodeFloat => isKind kind [kindFloat; kindInt64; kindInt32]
  | DecodeInt | DecodeUint =>
      isKind kind [kindInt64; kindTimestamp; kindDateTime; kindInt32; kindFloat]
  | DecodeTimestamp => isKind kind [kindInt64; kindTimestamp]
  | DecodeDateTime => isKind kind [kindInt64; kindDateTime]
  | DecodeString => isKind kind [kindString; kindSymbol; kindCode]
  | DecodeObjectId => isKind kind [kindObjectId]
  | DecodeByteSlice => isKind kind [kindBinary]
  | DecodeMinMax => isKind kind [kindMaxValue; kindMinValue]
  | DecodeMap | DecodeMapStringInterface => isKind kind [kindDocument]
  | DecodeSlice | DecodeArray => isKind kind [kindArray]
  | DecodeStruct | DecodeBSONData | DecodeInterface => true
  end.

(** The decoder functions whose [default] case is [saveErrorAndSkip]
    followed by [return]. *)
Definition skipsOnMismatch (f : decoderFunc) : bool :=
  match f with
  | DecodeBool | DecodeFloat | DecodeInt | DecodeUint | DecodeTimestamp
  | DecodeDateTime | DecodeString | DecodeObjectId | DecodeByteSlice
  | DecodeMap | DecodeSlice | DecodeArray => true
  | _ => false
  end.

(** A value that [indirect] leaves alone: not a pointer and not an
    interface holding a value. *)
Definition direct (v : rvalue) : Prop :=
  match v with
  | VPtr _ | VInterface (Some _) => False
  | _ => True
  end.

(** The targets that [decodeInternal] refuses: the nil interface, a nil map,
    a nil pointer, a value that is neither a pointer nor a map.  A
    [reflect.Value] is never refused, whatever it holds. *)
Definition invalidTarget (v : target) : Prop :=
  match v with
  | ReflectValue _ _ _ => False
  | Interface_ None => True
  | Interface_ (Some (t, x)) =>
      match Kind t with
      | reflect.Map => x = VMap None
      | reflect.Ptr => x = VPtr None
      | _ => True
      end
  end.

(** ** What every step of the decoder preserves

    A computation of the decoder never changes the input, and never
    replaces an error that has been saved. *)

Definition keeps {A} (c : M A) : Prop :=
  forall d a d',
    c d = Ok a d' ->
    data d' = data d /\
    forall e, savedError d = Some e -> savedError d' = Some e.

(** ** Parameters for the examples *)

(** The result of [int64(f)] and [uint64(f)] for a float that the target
    cannot represent, as amd64 gives it. *)
Definition unrepresentable_int64 (bits : Z) : Z := - 2^63.
Definition unrepresentable_uint64 (bits : Z) : Z := 2^63.

(** Modelled from the spec: [structSpecForType] and [fieldSpec], which the
    decoder calls, are not in the sources.  Section 4.3 describes one
    metadata table per struct type; the sources hold it as
    [structInfoForType] and [FieldInfo], whose metadata is used here. *)
Definition structSpecOfInfo (t : rtype) (name' : list byte) : option (list nat) :=
  match newStructInfo t with
  | Some si => option_map index_ (FieldInfo si name')
  | None => None
  end.

Abbreviation Decode' :=
  (Decode unrepresentable_int64 unrepresentable_uint64 structSpecOfInfo).

Abbreviation decodeValue' :=
  (decodeValue unrepresentable_int64 unrepresentable_uint64 structSpecOfInfo).

(** The kinds that [skipValue] has a case for. *)
Definition skipTable : list Z :=
  [ kindString; kindSymbol; kindDocument; kindArray; kindBinary; kindObjectId;
    kindBool; kindDateTime; kindTimestamp; kindInt64; kindFloat; kindInt32;
    kindMinValue; kindMaxValue; kindNull ].

(** The element's kind does not fit the slot of type [t]: no decoder is
    registered for [t], or the registered decoder is one of those that skip
    on a mismatch and it does not convert [kind]. *)
Definition mismatch (t : rtype) (kind : Z) : Prop :=
  decoderFor t = None \/
  exists f, decoderFor t = Some f /\ skipsOnMismatch f = true /\
            accepts f kind = false.

(** ** Numeric elements and the values a slot can hold *)

(** The number of payload bytes of a numeric element. *)
Definition numericSize (kind : Z) : Z := if kind =? kindInt32 then 4 else 8.

(** The integer that an int32 or int64 element holds. *)
Definition elementInt (kind : Z) (p : list byte) : Z :=
  if kind =? kindInt32 then to_int32 (wire.Uint32 p)
  else to_int64 (wire.Uint64 p).

(** The integers that a slot of an integer type can hold. *)
Definition representable (t : rtype) (n : Z) : Prop :=
  match underlying t with
  | TInt w => - 2^(bitSize w - 1) <= n < 2^(bitSize w - 1)
  | TUint w => 0 <= n < 2^(bitSize w)
  | _ => True
  end.

(** An integer type of fewer than 64 bits. *)
Definition narrowInt (t : rtype) : Prop :=
  match underlying t with
  | TInt w | TUint w => bitSize w < 64
  | _ => False
  end.

Section Overflow.

Variable int64_unrepresentable : Z -> Z.
Variable uint64_unrepresentable : Z -> Z.

(** Whether the numeric element of kind [kind] with payload [p] overflows
    the slot of type [t], as [decodeInt], [decodeUint] and [decodeFloat]
    test it: on the int64 or uint64 that Go converts the element to, or on
    the float64 for a float slot. *)
Definition overflows (t : rtype) (kind : Z) (p : list byte) : option bool :=
  match underlying t with
  | TInt _ =>
      OverflowInt t
        (if kind =? kindFloat
         then int64_of_float64 int64_unrepresentable (wire.Uint64 p)
         else elementInt kind p)
  | TUint _ =>
      OverflowUint t
        (if kind =? kindFloat
         then uint64_of_float64 uint64_unrepresentable (wire.Uint64 p)
         else to_uint64 (elementInt kind p))
  | TFloat32 | TFloat64 =>
      OverflowFloat t
        (if kind =? kindFloat then wire.Uint64 p
         else float64_of_int (elementInt kind p))
  | _ => None
  end.

End Overflow.

(** [struct { A int8 `bson:"a"`; B int8 `bson:"b"` }] *)
Definition tTwoBytes : rtype :=
  TDefined "TwoBytes"
    (TStruct [mkField "A" "" (TInt W8) "a" false;
              mkField "B" "" (TInt W8) "b" false]).

(** The document [{"a": int32(300), "b": int32(7)}]. *)
Definition docOverflow : list byte :=
  [ x13; x00; x00; x00;
    x10; x61; x00; x2c; x01; x00; x00;
    x10; x62; x00; x07; x00; x00; x00;
    x00 ].

(** The document [{"a": int32(300), "z": regexp}] with an empty pattern and
    no options. *)
Definition docOverflowRegexp : list byte :=
  [ x11; x00; x00; x00;
    x10; x61; x00; x2c; x01; x00; x00;
    x0b; x7a; x00; x00; x00;
    x00 ].

(** ** Inputs for the examples of the decoder *)

(** [struct { Value BSONData `bson:"value"` }], the shape of the reply of
    [findAndModify]. *)
Definition tValueReply : rtype :=
  TDefined "ValueReply" (TStruct [mkField "Value" "" tBSONData "value" false]).

(** The document [{"value": int64}] cut off after four of the eight bytes
    of the int64. *)
Definition docTruncatedValue : list byte :=
  [ x14; x00; x00; x00;
    x12; x76; x61; x6c; x75; x65; x00;
    x01; x02; x03; x04 ].

(** The document [{"a": {"b": null}}]. *)
Definition docNestedNull : list byte :=
  [ x10; x00; x00; x00;
    x03; x61; x00;
    x08; x00; x00; x00; x0a; x62; x00; x00;
    x00 ].

(** The document [{"b": null}]. *)
Definition docNull : list byte :=
  [ x08; x00; x00; x00; x0a; x62; x00; x00 ].

(** The payload of the string ["hi"], followed by a zero byte. *)
Definition payloadString : list byte :=
  [ x03; x00; x00; x00; x68; x69; x00; x00 ].

(** The document [{"m": int32(1), "n": int32(2)}]. *)
Definition docTwoInts : list byte :=
  [ x13; x00; x00; x00;
    x10; x6d; x00; x01; x00; x00; x00;
    x10; x6e; x00; x02; x00; x00; x00;
    x00 ].

(** [struct { M MinMax `bson:"m"`; N int32 `bson:"n"` }] *)
Definition tMinMaxThenInt : rtype :=
  TDefined "MinMaxThenInt"
    (TStruct [mkField "M" "" tMinMax "m" false;
              mkField "N" "" (TInt W32) "n" false]).

(** The type that the generic decoding gives to a value of each kind; the
    result for [null] is the nil interface. *)
Definition canonicalType (kind : Z) : option rtype :=
  if kind =? kindFloat then Some TFloat64
  else if kind =? kindString then Some TString
  else if kind =? kindDocument then Some tMapStringInterface
  else if kind =? kindArray then Some (TSlice TInterface)
  else if kind =? kindBinary then Some tByteSlice
  else if kind =? kindObjectId then Some tObjectId
  else if kind =? kindBool then Some TBool
  else if kind =? kindDateTime then Some tDateTime
  else if kind =? kindSymbol then Some tSymbol
  else if kind =? kindInt32 then Some (TInt WInt)
  else if kind =? kindTimestamp then Some tTimestamp
  else if kind =? kindInt64 then Some (TInt W64)
  else if kind =? kindMinValue then Some tMinMax
  else if kind =? kindMaxValue then Some tMinMax
  else None.

(** A pointer to a zero value of type [t], as a target of [Decode]. *)
Definition pointerTo (t : rtype) : target :=
  Interface_ (Some (TPtr t, VPtr (Some (zero t)))).

(** The cache holds, for a type, the metadata computed for that type. *)
Definition cacheValid (cache : structInfoCache) : Prop :=
  forall t si, cacheLookup cache t = Some si -> newStructInfo t = Some si.

(** ** The order of strings

    Go's [a < b] on strings, which is also the order of object ids: bytewise,
    a proper prefix first. *)

Fixpoint bytes_lt (a b : list byte) : bool :=
  match a, b with
  | _, [] => false
  | [], _ :: _ => true
  | x :: a', y :: b' =>
      (byte_to_Z x <? byte_to_Z y)
      || ((byte_to_Z x =? byte_to_Z y) && bytes_lt a' b')
  end.

Definition string_lt (a b : string) : bool :=
  bytes_lt (list_byte_of_string a) (list_byte_of_string b).

(** [a <= b] *)
Definition string_le (a b : string) : bool := negb (string_lt b a).

(** ** The acknowledge of a write

    What a write operation on a collection of database [db] returns after
    the transport call gave [r]: the transport's error as it is, and
    otherwise the result of the acknowledge command [lec] on [db], if there
    is one. *)

Section Acknowledge.

Variable World : Type.
Variable InsertOptions : Type.

Definition acknowledge (conn : Conn World InsertOptions) (db : string)
  (lec : dynamic) (r : option string * World) : option oserror * World :=
  match r with
  | (Some msg, w1) => (Some (ConnError msg), w1)
  | (None, w1) =>
      match lec with
      | None => (None, w1)
      | Some _ =>
          let '(_, err, w2) :=
            LastError World InsertOptions (mkDatabase _ _ conn db lec) lec w1 in
          (err, w2)
      end
  end.

End Acknowledge.

(** ** Invariants of the struct metadata *)

(** Every entry of the map [si.m] is in the list [si.l], under its name. *)
Definition listed (si : structInfo) : Prop :=
  forall n fi, m si !! n = Some fi -> fi ∈ l si /\ name fi = n.

(** The entries that a compilation of [t] under the index prefix [index]
    adds to [si.l] hold paths below the prefix that lead to a field of [t]
    through exported fields only. *)
Definition paths (t : rtype) (index : list nat) (si si' : structInfo) : Prop :=
  forall fi, fi ∈ l si' ->
    fi ∈ l si \/
    exists suffix ft,
      suffix <> [] /\ index_ fi = index ++ suffix /\
      fieldTypeByIndex t suffix = Some (ft, true).

(** The number of fields named [n]. *)
Definition occurrences (n : string) (names : list string) : nat :=
  length (filter (fun x => x = n) names).

(** The state of a compilation at depth 0 after the fields named [seen]:
    the names seen have depth 0, and the map holds the names seen once. *)
Definition flatState (seen : list string) (depth : gmap string Z)
  (si : structInfo) : Prop :=
  forall n,
    depth !! n = (if (occurrences n seen =? 0)%nat then None else Some 0) /\
    (is_Some (m si !! n) <-> occurrences n seen = 1%nat).

(** ** Values and states for the properties of the decoder *)

(** [BSONData] *)
Record BSONData := mkBSONData { bdKind : Z; bdData : list byte }.

(** A [BSONData] as a Go value. *)
Definition BSONData_value (bd : BSONData) : rvalue :=
  VStruct [VInt (bdKind bd); bytesValue (bdData bd)].

(** [bd.Decode(v)] *)
Definition BSONData_Decode (int64_unrepresentable uint64_unrepresentable : Z -> Z)
  (structSpecForType : rtype -> list byte -> option (list nat))
  (fuel : nat) (bd : BSONData) (v : target) : outcome :=
  decodeInternal int64_unrepresentable uint64_unrepresentable structSpecForType
    fuel (bdKind bd) (bdData bd) v.

(** [v.Len()] and [v.Cap()] of a slice *)
Definition sliceLen (s : option (list rvalue * nat)) : nat :=
  match s with Some (_, n) => n | None => O end.

Definition sliceCap (s : option (list rvalue * nat)) : nat :=
  match s with Some (b, _) => length b | None => O end.

(** The decoders of documents and arrays, with the kind that each one
    converts; [decodeStruct] takes every kind for a document. *)
Definition framed (f : decoderFunc) (t : rtype) (kind : Z) : Prop :=
  match f with
  | DecodeStruct => True
  | DecodeMapStringInterface => kind = kindDocument
  | DecodeMap =>
      kind = kindDocument /\
      exists key elem, underlying t = TMap key elem /\ Kind key = reflect.String
  | DecodeSlice | DecodeArray => kind = kindArray
  | _ => False
  end.

(** [d2] reads the bytes [base .. lim) of the input of [d], at the same
    place. *)
Definition shifted (base lim : Z) (d d2 : decodeState) : Prop :=
  0 <= base /\ base <= offset d /\ lim <= len (data d) /\
  data d2 = take (Z.to_nat (lim - base)) (drop (Z.to_nat base) (data d)) /\
  offset d2 = offset d - base.

(** A computation that only moves the read offset forward. *)
Definition forward {A} (c : M A) : Prop :=
  forall d a d', c d = Ok a d' -> offset d <= offset d'.

(** A computation that gives the same result on a part of the input that
    holds all the bytes it reads. *)
Definition local_ {A} (c : M A) : Prop :=
  forall base lim d d2 a d',
    shifted base lim d d2 -> c d = Ok a d' -> offset d' <= lim ->
    exists d2',
      c d2 = Ok a d2' /\ shifted base lim d' d2' /\
      savedError d2' = savedError d2.

(** Both. *)
Definition streaming {A} (c : M A) : Prop := forward c /\ local_ c.

(** The document [{"q": <string of declared length -7>}]: skipping the
    value of [q] moves the read offset back to the start of the element. *)
Definition docSkipBack : list byte :=
  [ x0b; x00; x00; x00;
    x02; x71; x00; xf9; xff; xff; xff ].

(** * Properties *)

(** ** Bytes *)

Lemma byte_to_Z_range (b : byte) : 0 <= byte_to_Z b < 256.
Proof.
  unfold byte_to_Z. pose proof (Byte.to_N_bounded b). lia.
Qed.

Lemma byte_to_Z_of_Z (z : Z) : byte_to_Z (byte_of_Z z) = z mod 256.
Proof.
  unfold byte_to_Z, byte_of_Z.
  assert (Hr : 0 <= z mod 256 < 256) by (apply Z.mod_pos_bound; lia).
  destruct (Byte.of_N (Z.to_N (z mod 256))) as [b|] eqn:E.
  - simpl. apply Byte.to_of_N in E. rewrite E. lia.
  - apply Byte.of_N_None_iff in E. lia.
Qed.

(** ** Object ids *)

Lemma newObjectId_bytes (t c : Z) :
  list_byte_of_string (newObjectId t c) =
  [ byte_of_Z (Z.shiftr t 24); byte_of_Z (Z.shiftr t 16);
    byte_of_Z (Z.shiftr t 8); byte_of_Z t;
    byte_of_Z (Z.shiftr c 56); byte_of_Z (Z.shiftr c 48);
    byte_of_Z (Z.shiftr c 40); byte_of_Z (Z.shiftr c 32);
    byte_of_Z (Z.shiftr c 24); byte_of_Z (Z.shiftr c 16);
    byte_of_Z (Z.shiftr c 8); byte_of_Z c ].
Proof.
  unfold newObjectId. apply list_byte_of_string_of_list_byte.
Qed.

Lemma bigEndian_time (t : Z) :
  0 <= t < 2^32 ->
  (((t / 2^24) mod 256 * 256 + (t / 2^16) mod 256) * 256
   + (t / 2^8) mod 256) * 256 + t mod 256 = t.
Proof.
  intros Ht.
  assert (H0 : t / 256 / 256 / 256 / 256 = 0)
    by (rewrite !Z.div_div by lia; apply Z.div_small; lia).
  replace (t / 2^24) with (t / 256 / 256 / 256)
    by (rewrite !Z.div_div by lia; reflexivity).
  replace (t / 2^16) with (t / 256 / 256)
    by (rewrite !Z.div_div by lia; reflexivity).
  change (2^8) with 256.
  pose proof (Z_div_mod_eq_full t 256).
  pose proof (Z_div_mod_eq_full (t / 256) 256).
  pose proof (Z_div_mod_eq_full (t / 256 / 256) 256).
  pose proof (Z_div_mod_eq_full (t / 256 / 256 / 256) 256).
  lia.
Qed.
Lemma bigEndian_counter (c : Z) :
  0 <= c < 2^64 ->
  (((((((c / 2^56) mod 256 * 256 + (c / 2^48) mod 256) * 256
       + (c / 2^40) mod 256) * 256 + (c / 2^32) mod 256) * 256
     + (c / 2^24) mod 256) * 256 + (c / 2^16) mod 256) * 256
   + (c / 2^8) mod 256) * 256 + c mod 256 = c.
Proof.
  intros Hc.
  assert (H0 : c / 256 / 256 / 256 / 256 / 256 / 256 / 256 / 256 = 0)
    by (rewrite !Z.div_div by lia; apply Z.div_small; lia).
  replace (c / 2^56) with (c / 256 / 256 / 256 / 256 / 256 / 256 / 256)
    by (rewrite !Z.div_div by lia; reflexivity).
  replace (c / 2^48) with (c / 256 / 256 / 256 / 256 / 256 / 256)
    by (rewrite !Z.div_div by lia; reflexivity).
  replace (c / 2^40) with (c / 256 / 256 / 256 / 256 / 256)
    by (rewrite !Z.div_div by lia; reflexivity).
  replace (c / 2^32) with (c / 256 / 256 / 256 / 256)
    by (rewrite !Z.div_div by lia; reflexivity).
  replace (c / 2^24) with (c / 256 / 256 / 256)
    by (rewrite !Z.div_div by lia; reflexivity).
  replace (c / 2^16) with (c / 256 / 256)
    by (rewrite !Z.div_div by lia; reflexivity).
  change (2^8) with 256.
  pose proof (Z_div_mod_eq_full c 256).
  pose proof (Z_div_mod_eq_full (c / 256) 256).
  pose proof (Z_div_mod_eq_full (c / 256 / 256) 256).
  pose proof (Z_div_mod_eq_full (c / 256 / 256 / 256) 256).
  pose proof (Z_div_mod_eq_full (c / 256 / 256 / 256 / 256) 256).
  pose proof (Z_div_mod_eq_full (c / 256 / 256 / 256 / 256 / 256) 256).
  pose proof (Z_div_mod_eq_full (c / 256 / 256 / 256 / 256 / 256 / 256) 256).
  pose proof (Z_div_mod_eq_full (c / 256 / 256 / 256 / 256 / 256 / 256 / 256) 256).
  lia.
Qed.

Lemma CreationTime_newObjectId (t c : Z) :
  0 <= t < 2^32 -> CreationTime (newObjectId t c) = t.
Proof.
  intros Ht. unfold CreationTime, idByte.
  rewrite newObjectId_bytes.
  change (negb (len _ =? 12)) with false. cbv iota.
  cbn [lookup list_lookup].
  rewrite !byte_to_Z_of_Z, !Z.shiftl_mul_pow2, !Z.shiftr_div_pow2 by lia.
  generalize (bigEndian_time t Ht).
  generalize ((t / 2^24) mod 256) ((t / 2^16) mod 256) ((t / 2^8) mod 256)
    (t mod 256).
  intros; lia.
Qed.

(** C9: for a time [0 <= t < 2^32] and a counter [0 <= c < 2^64] the id
    made by [newObjectId] has twelve bytes, bytes 0..3 are [t] in big-endian
    order and bytes 4..11 are [c] in big-endian order; the counter bytes of
    [MinObjectIdForTime t] are all zero, those of [MaxObjectIdForTime t] are
    all [0xff], and [CreationTime] gives back [t] from each of them. *)
Theorem newObjectId_layout (t c : Z) :
  0 <= t < 2^32 -> 0 <= c < 2^64 ->
  let id := list_byte_of_string (newObjectId t c) in
  length id = 12%nat /\
  bigEndian (take 4 id) = t /\
  bigEndian (drop 4 id) = c /\
  drop 4 (list_byte_of_string (MinObjectIdForTime t)) = replicate 8 x00 /\
  take 4 (list_byte_of_string (MinObjectIdForTime t)) = take 4 id /\
  drop 4 (list_byte_of_string (MaxObjectIdForTime t)) = replicate 8 xff /\
  take 4 (list_byte_of_string (MaxObjectIdForTime t)) = take 4 id /\
  CreationTime (newObjectId t c) = t /\
  CreationTime (MinObjectIdForTime t) = t /\
  CreationTime (MaxObjectIdForTime t) = t.
Proof.
  intros Ht Hc id. subst id. unfold MinObjectIdForTime, MaxObjectIdForTime.
  rewrite !newObjectId_bytes.
  repeat split; try reflexivity; try (apply CreationTime_newObjectId; exact Ht).
  - cbn [take bigEndian fold_left].
    rewrite !byte_to_Z_of_Z, !Z.shiftr_div_pow2 by lia.
    apply (bigEndian_time t Ht).
  - cbn [drop bigEndian fold_left].
    rewrite !byte_to_Z_of_Z, !Z.shiftr_div_pow2 by lia.
    apply (bigEndian_counter c Hc).
Qed.

Lemma newObjectId_layout_witness :
  let id := list_byte_of_string (newObjectId 0x4f1a2b3c 0x0102030405060708) in
  id = [x4f; x1a; x2b; x3c; x01; x02; x03; x04; x05; x06; x07; x08] /\
  bigEndian (take 4 id) = 0x4f1a2b3c /\
  CreationTime (newObjectId 0x4f1a2b3c 0x0102030405060708) = 0x4f1a2b3c.
Proof.
  split; [reflexivity|].
  pose proof (newObjectId_layout 0x4f1a2b3c 0x0102030405060708
                ltac:(lia) ltac:(lia)) as H.
  cbv zeta in H. destruct H as (_ & H1 & _ & _ & _ & _ & _ & H2 & _).
  split; [exact H1 | exact H2].
Defined.

(** ** The collection facade *)

Section FacadeProperties.

Context {World InsertOptions : Type}.

Abbreviation Collection' := (Collection World InsertOptions).

(** When the acknowledge command runs, [LastError] returns no error exactly
    when the find and the cursor's [Next] succeed, the reply is [ok] and its
    [err] field is empty. *)
Lemma LastError_no_error (db : Database World InsertOptions) (cmd : dynamic)
  (w : World) :
  let cmd' := match cmd with None => DefaultLastErrorCmd | Some _ => cmd end in
  forall merr w',
    LastError World InsertOptions db cmd w = (merr, None, w') <->
    exists cursor w1 r w2,
      conn_Find _ _ (dbConn _ _ db) (dbName _ _ db +:+ ".$cmd") cmd' runFindOptions w
      = (inr cursor, w1) /\
      cursor_Next _ cursor zeroReply w1 = (None, r, w2) /\
      Ok_ (replyResponse r) = true /\
      Err (replyError r) = "" /\
      merr = replyError r /\ w' = cursor_Close _ cursor w2.
Proof.
  intros cmd' merr w'. unfold LastError. fold cmd'.
  destruct (conn_Find _ _ (dbConn _ _ db) _ cmd' runFindOptions w)
    as [[err|cursor] w1] eqn:EF.
  - split; [discriminate|]. intros (? & ? & ? & ? & H & _). discriminate.
  - destruct (cursor_Next _ cursor zeroReply w1) as [[[err|] r] w2] eqn:EN.
    + split; [discriminate|].
      intros (c' & w1' & r' & w2' & H1 & H2 & _).
      injection H1 as <- <-. rewrite EN in H2. discriminate.
    + unfold CommandResponse_Error.
      destruct (Ok_ (replyResponse r)) eqn:EOk.
      * destruct (String.eqb (Err (replyError r)) "") eqn:EE; cbn [negb].
        -- apply String.eqb_eq in EE. split.
           ++ intros H. injection H as <- <-.
              exists cursor, w1, r, w2. repeat split; auto.
           ++ intros (c' & w1' & r' & w2' & H1 & H2 & _ & _ & -> & ->).
              injection H1 as <- <-. rewrite EN in H2.
              injection H2 as <- <-. reflexivity.
        -- apply String.eqb_neq in EE. split; [discriminate|].
           intros (c' & w1' & r' & w2' & H1 & H2 & _ & HE & _).
           injection H1 as <- <-. rewrite EN in H2.
           injection H2 as <- <-. contradiction.
      * split; [discriminate|].
        intros (c' & w1' & r' & w2' & H1 & H2 & HO & _).
        injection H1 as <- <-. rewrite EN in H2.
        injection H2 as <- <-. congruence.
Qed.

(** [LastError] never returns the not-found sentinel. *)
Lemma LastError_not_ErrNotFound (db : Database World InsertOptions)
  (cmd : dynamic) (w : World) merr w' :
  LastError World InsertOptions db cmd w <> (merr, Some ErrNotFound, w').
Proof.
  unfold LastError, CommandResponse_Error. cbv zeta.
  repeat match goal with
         | |- context [match ?x with _ => _ end] => destruct x eqn:?
         end; intros H; inversion H; subst.
  destruct (Ok_ (replyResponse _)); congruence.
Qed.

(** The two update operations differ in the options they pass to the
    connection only; [updateVia options] is their common shape. *)
Lemma Update_cases (c : Collection') (options : option UpdateOptions)
  (selector update : dynamic) (w : World) e w1 :
  conn_Update _ _ (cConn _ _ c) (Namespace _ _ c) selector update options w = (e, w1) ->
  let result :=
    let '(merr, err, w2) := checkError World InsertOptions c (connError e) w1 in
    (match merr, err with
     | Some merr, None => if negb (Updated merr) then Some ErrNotFound else err
     | _, _ => err
     end, w2) in
  (result.1 = Some ErrNotFound <->
   exists cmd merr w2,
     LastErrorCmd _ _ c = Some cmd /\ e = None /\
     LastError World InsertOptions (Db _ _ c) (Some cmd) w1 = (merr, None, w2) /\
     Updated merr = false) /\
  (LastErrorCmd _ _ c = None -> e = None -> result = (None, w1)).
Proof.
  intros EU result. subst result. unfold checkError, connError.
  destruct e as [msg|]; cbn [option_map].
  - split; [|discriminate]. split; [discriminate|].
    intros (? & ? & ? & _ & H & _). discriminate.
  - destruct (LastErrorCmd _ _ c) as [cmd|] eqn:EC.
    + destruct (LastError World InsertOptions (Db _ _ c) (Some cmd) w1)
        as [[merr err] w2] eqn:EL.
      split; [|discriminate]. cbn [fst]. split.
      * destruct err as [err|]; cbn [fst].
        -- intros [= ->]. exfalso. exact (LastError_not_ErrNotFound _ _ _ _ _ EL).
        -- destruct (Updated merr) eqn:EUp; cbn [negb]; [discriminate|].
           intros _. exists cmd, merr, w2. auto.
      * intros (cmd' & merr' & w2' & H1 & _ & H3 & H4).
        injection H1 as <-. rewrite EL in H3. injection H3 as Hm He Hw.
        subst. rewrite H4. reflexivity.
    + split; [|reflexivity]. cbn [fst]. split; [discriminate|].
      intros (? & ? & ? & H & _). discriminate.
Qed.

(** C7: [Update] and [UpdateAll] return [ErrNotFound] exactly when a
    write-acknowledge command is configured, the transport update returns no
    error, the acknowledge command returns no error and the acknowledge
    reply has [updatedExisting] false; when no acknowledge command is
    configured and the transport succeeds they return nil. *)
Theorem Update_ErrNotFound_iff (c : Collection') (selector update : dynamic)
  (w : World) :
  let acknowledged (options : option UpdateOptions) :=
    exists cmd w1 merr w2,
      LastErrorCmd _ _ c = Some cmd /\
      conn_Update _ _ (cConn _ _ c) (Namespace _ _ c) selector update options w
      = (None, w1) /\
      LastError World InsertOptions (Db _ _ c) (Some cmd) w1 = (merr, None, w2) /\
      Updated merr = false in
  let unchecked (options : option UpdateOptions) (r : option oserror * World) :=
    LastErrorCmd _ _ c = None ->
    forall w1,
      conn_Update _ _ (cConn _ _ c) (Namespace _ _ c) selector update options w
      = (None, w1) ->
      r = (None, w1) in
  ((Update World InsertOptions c selector update w).1 = Some ErrNotFound
   <-> acknowledged None) /\
  ((UpdateAll World InsertOptions c selector update w).1 = Some ErrNotFound
   <-> acknowledged (Some updateAllOptions)) /\
  unchecked None (Update World InsertOptions c selector update w) /\
  unchecked (Some updateAllOptions)
    (UpdateAll World InsertOptions c selector update w).
Proof.
  intros acknowledged unchecked. subst acknowledged unchecked. cbv beta.
  assert (Hgen : forall options,
    let r :=
      let '(e, w1) :=
        conn_Update _ _ (cConn _ _ c) (Namespace _ _ c) selector update options w in
      let '(merr, err, w2) := checkError World InsertOptions c (connError e) w1 in
      (match merr, err with
       | Some merr, None => if negb (Updated merr) then Some ErrNotFound else err
       | _, _ => err
       end, w2) in
    (r.1 = Some ErrNotFound <->
     exists cmd w1 merr w2,
       LastErrorCmd _ _ c = Some cmd /\
       conn_Update _ _ (cConn _ _ c) (Namespace _ _ c) selector update options w
       = (None, w1) /\
       LastError World InsertOptions (Db _ _ c) (Some cmd) w1 = (merr, None, w2) /\
       Updated merr = false) /\
    (LastErrorCmd _ _ c = None ->
     forall w1,
       conn_Update _ _ (cConn _ _ c) (Namespace _ _ c) selector update options w
       = (None, w1) ->
       r = (None, w1))).
  { intros options r. subst r.
    destruct (conn_Update _ _ (cConn _ _ c) (Namespace _ _ c) selector update options w)
      as [e w1] eqn:EU.
    destruct (Update_cases c options selector update w e w1 EU) as [Hiff Hnil].
    cbv zeta in Hiff, Hnil. split.
    - rewrite Hiff. split.
      + intros (cmd & merr & w2 & H1 & -> & H3 & H4).
        exists cmd, w1, merr, w2. auto.
      + intros (cmd & w1' & merr & w2 & H1 & H2 & H3 & H4).
        injection H2 as -> <-. exists cmd, merr, w2. auto.
    - intros HC w1' H. injection H as -> <-. apply Hnil; auto. }
  pose proof (Hgen None) as [H1 H2].
  pose proof (Hgen (Some updateAllOptions)) as [H3 H4].
  repeat split; try apply H1; try apply H3; auto.
Qed.

End FacadeProperties.

(** ** Strings and namespaces *)

Lemma append_nil_r (s : string) : s +:+ "" = s.
Proof.
  induction s as [|c s IH]; [reflexivity|].
  change (String c (s +:+ "") = String c s). now rewrite IH.
Qed.

Lemma append_assoc (s1 s2 s3 : string) :
  (s1 +:+ s2) +:+ s3 = s1 +:+ (s2 +:+ s3).
Proof.
  induction s1 as [|c s1 IH]; [reflexivity|].
  change (String c ((s1 +:+ s2) +:+ s3) = String c (s1 +:+ (s2 +:+ s3))).
  now rewrite IH.
Qed.

Lemma length_append (s1 s2 : string) :
  String.length (s1 +:+ s2) = (String.length s1 + String.length s2)%nat.
Proof.
  induction s1 as [|c s1 IH]; [reflexivity|].
  change (S (String.length (s1 +:+ s2)) = S (String.length s1 + String.length s2)).
  now rewrite IH.
Qed.

Lemma substring_all (s : string) : substring 0 (String.length s) s = s.
Proof.
  induction s as [|c s IH]; [reflexivity|].
  cbn [String.length substring]. now rewrite IH.
Qed.

Lemma substring_prefix (s rest : string) :
  substring 0 (String.length s) (s +:+ rest) = s.
Proof.
  induction s as [|c s IH].
  - destruct rest; reflexivity.
  - change (String c (substring 0 (String.length s) (s +:+ rest)) = String c s).
    now rewrite IH.
Qed.

Lemma substring_suffix (s rest : string) :
  substring (String.length s) (String.length rest) (s +:+ rest) = rest.
Proof.
  induction s as [|c s IH].
  - apply substring_all.
  - exact IH.
Qed.

Lemma indexDot_lower (s : string) : -1 <= indexDot s.
Proof.
  induction s as [|c s IH]; cbn [indexDot]; [lia|].
  destruct (Ascii.eqb c "."); [lia|].
  destruct (indexDot s <? 0) eqn:E; lia.
Qed.

Lemma indexDot_append (s rest : string) :
  indexDot s = -1 ->
  indexDot (s +:+ String "." rest) = Z.of_nat (String.length s).
Proof.
  induction s as [|c s IH]; intros H.
  - reflexivity.
  - change (indexDot (String c (s +:+ String "." rest))
            = Z.of_nat (S (String.length s))).
    cbn [indexDot] in *.
    destruct (Ascii.eqb c "."); [discriminate|].
    pose proof (indexDot_lower s).
    destruct (indexDot s <? 0) eqn:E; [|lia].
    rewrite IH by lia.
    destruct (Z.of_nat (String.length s) <? 0) eqn:E'; lia.
Qed.

(** A namespace [<db>.<col>] with a non-empty database name without dots
    splits into its two components. *)
Lemma SplitNamespace_db_col (db col : string) :
  indexDot db = -1 -> db <> "" ->
  SplitNamespace (db +:+ "." +:+ col) = (db, col).
Proof.
  intros Hdot Hne. unfold SplitNamespace.
  change ("." +:+ col) with (String "." col).
  rewrite indexDot_append by exact Hdot.
  assert (Hlen : (0 < String.length db)%nat)
    by (destruct db; [congruence | cbn; lia]).
  destruct (0 <? Z.of_nat (String.length db)) eqn:E; [|lia].
  rewrite Nat2Z.id. rewrite substring_prefix. f_equal.
  replace (Z.to_nat (Z.of_nat (String.length db) + 1))
    with (String.length (db +:+ ".")) by (rewrite length_append; cbn; lia).
  replace (db +:+ String "." col) with ((db +:+ ".") +:+ col)
    by (rewrite append_assoc; reflexivity).
  rewrite (length_append (db +:+ ".") col).
  replace (String.length (db +:+ ".") + String.length col
           - String.length (db +:+ "."))%nat
    with (String.length col) by lia.
  apply substring_suffix.
Qed.

(** ** Index names *)

Lemma IndexName_loop_next (keys : D) (i : nat) (buf : string) :
  IndexName_loop keys (S i) buf =
  option_map (fun ps => fold_left (fun acc p => acc +:+ "_" +:+ p) ps buf)
    (nameParts keys).
Proof.
  revert i buf. induction keys as [|key rest IH]; intros i buf; [reflexivity|].
  cbn [IndexName_loop nameParts Nat.eqb negb directionString].
  destruct (Value key) as [[t v]|]; [|reflexivity].
  destruct t; try reflexivity.
  - destruct w; try reflexivity. destruct v; try reflexivity.
    rewrite IH. destruct (nameParts rest) as [ps|]; [|reflexivity].
    cbn [directionString option_map fold_left]. now rewrite !append_assoc.
  - destruct v; try reflexivity.
    rewrite IH. destruct (nameParts rest) as [ps|]; [|reflexivity].
    cbn [directionString option_map fold_left]. now rewrite !append_assoc.
Qed.

Lemma joinUnderscore_fold (p : string) (ps : list string) :
  fold_left (fun acc p => acc +:+ "_" +:+ p) ps p = joinUnderscore (p :: ps).
Proof.
  revert p. induction ps as [|q ps IH]; intros p; [reflexivity|].
  cbn [fold_left]. rewrite IH.
  change (joinUnderscore (p :: q :: ps)) with (p +:+ "_" +:+ joinUnderscore (q :: ps)).
  destruct ps as [|q' ps]; [reflexivity|].
  change (joinUnderscore ((p +:+ "_" +:+ q) :: q' :: ps))
    with ((p +:+ "_" +:+ q) +:+ "_" +:+ joinUnderscore (q' :: ps)).
  change (joinUnderscore (q :: q' :: ps))
    with (q +:+ "_" +:+ joinUnderscore (q' :: ps)).
  now rewrite !append_assoc.
Qed.

(** [IndexName] computes the standard name [k1_v1_k2_v2_...], and panics
    exactly when some direction is neither an [int] nor a [string]. *)
Lemma IndexName_standard (keys : D) :
  IndexName keys = option_map joinUnderscore (nameParts keys).
Proof.
  unfold IndexName. destruct keys as [|key rest]; [reflexivity|].
  cbn [IndexName_loop nameParts Nat.eqb negb directionString].
  destruct (Value key) as [[t v]|]; [|reflexivity].
  destruct t; try reflexivity.
  - destruct w; try reflexivity. destruct v; try reflexivity.
    rewrite IndexName_loop_next. destruct (nameParts rest) as [ps|]; [|reflexivity].
    cbn [directionString option_map]. f_equal.
    change ("" +:+ Key key) with (Key key).
    rewrite append_assoc.
    change (fold_left (fun acc p => acc +:+ "_" +:+ p) (Itoa n :: ps) (Key key)
            = joinUnderscore (Key key :: Itoa n :: ps)).
    apply joinUnderscore_fold.
  - destruct v; try reflexivity.
    rewrite IndexName_loop_next. destruct (nameParts rest) as [ps|]; [|reflexivity].
    cbn [directionString option_map]. f_equal.
    change ("" +:+ Key key) with (Key key).
    rewrite append_assoc.
    change (fold_left (fun acc p => acc +:+ "_" +:+ p) (s :: ps) (Key key)
            = joinUnderscore (Key key :: s :: ps)).
    apply joinUnderscore_fold.
Qed.

Section CreateIndexProperties.

Context {World InsertOptions : Type}.

(** [Insert] on a collection of database [db] with an acknowledge command
    configured: the transport insert, then the acknowledge on [db]. *)
Lemma Insert_acknowledged (conn : Conn World InsertOptions) (db col : string)
  (cmd : rtype * rvalue) (documents : list document) (w : World) :
  indexDot db = -1 -> db <> "" ->
  Insert World InsertOptions
    (mkCollection _ _ conn (db +:+ "." +:+ col) (Some cmd)) documents w =
  (let '(e, w1) := conn_Insert _ _ conn (db +:+ "." +:+ col) None documents w in
   match e with
   | Some msg => (Some (ConnError msg), w1)
   | None =>
       let '(_, err, w2) :=
         LastError World InsertOptions (mkDatabase _ _ conn db (Some cmd))
           (Some cmd) w1 in
       (err, w2)
   end).
Proof.
  intros Hdot Hne. unfold Insert. cbn [cConn Namespace].
  destruct (conn_Insert _ _ conn (db +:+ "." +:+ col) None documents w)
    as [[msg|] w1]; [reflexivity|].
  unfold checkError, connError, Db. cbn [option_map LastErrorCmd Namespace cConn].
  rewrite SplitNamespace_db_col by assumption.
  destruct (LastError _ _ _ _ _) as [[merr err] w2]. reflexivity.
Qed.

(** C8, amended: for a collection with namespace [<db>.<col>] ([<db>]
    non-empty and without a dot), when the options give a name or every
    direction of the key list is an [int] or a [string], [CreateIndex]
    inserts the index descriptor (the keys, the collection's namespace and
    the name) into [<db>.system.indexes] and, unless the transport fails,
    runs the acknowledge on [<db>] with a non-nil command: the collection's
    own, or the default one when the collection has none.  The name is the one
    given, or else the standard name [k1_v1_k2_v2_...]. *)
Theorem CreateIndex_inserts (conn : Conn World InsertOptions) (db col : string)
  (lec : dynamic) (keys : D) (options : option IndexOptions) (w : World)
  (name' : string) :
  indexDot db = -1 -> db <> "" ->
  let c := mkCollection _ _ conn (db +:+ "." +:+ col) lec in
  let opts := match options with Some o => o | None => zeroIndexOptions end in
  (if String.eqb (ixName opts) "" then option_map joinUnderscore (nameParts keys)
   else Some (ixName opts)) = Some name' ->
  let index := mkIndex keys (db +:+ "." +:+ col) (setName opts name') in
  exists cmd,
    Some cmd = match lec with None => DefaultLastErrorCmd | Some _ => lec end /\
    CreateIndex World InsertOptions c keys options w =
    Some (let '(e, w1) :=
            conn_Insert _ _ conn (db +:+ ".system.indexes") None
              [IndexDocument index] w in
          match e with
          | Some msg => (Some (ConnError msg), w1)
          | None =>
              let '(_, err, w2) :=
                LastError World InsertOptions (mkDatabase _ _ conn db (Some cmd))
                  (Some cmd) w1 in
              (err, w2)
          end).
Proof.
  intros Hdot Hne c opts Hname index.
  assert (Hcmd : exists cmd,
             Some cmd = match lec with None => DefaultLastErrorCmd | Some _ => lec end).
  { destruct lec as [x|]; [exists x; reflexivity|]. unfold DefaultLastErrorCmd. eauto. }
  destruct Hcmd as [cmd Hcmd]. exists cmd. split; [exact Hcmd|].
  assert (Hc : forall c' : Collection World InsertOptions,
             c' = match lec with
                  | Some _ => c
                  | None => mkCollection _ _ conn (db +:+ "." +:+ col)
                              DefaultLastErrorCmd
                  end ->
             C World InsertOptions (Db World InsertOptions c') "system.indexes"
             = mkCollection _ _ conn (db +:+ "." +:+ "system.indexes") (Some cmd)).
  { intros c' ->. subst c. unfold C, Db.
    destruct lec as [x|]; cbn [Namespace cConn LastErrorCmd];
      rewrite SplitNamespace_db_col by assumption;
      cbn [dbConn dbName dbLastErrorCmd]; rewrite Hcmd; reflexivity. }
  unfold CreateIndex. rewrite IndexName_standard. fold opts.
  subst index. clearbody opts.
  destruct (String.eqb (ixName opts) "") eqn:EG.
  - destruct (nameParts keys) as [ps|]; [|discriminate].
    cbn [option_map] in *. injection Hname as <-.
    subst c. cbn [Namespace LastErrorCmd cConn].
    rewrite (Hc _ eq_refl).
    rewrite Insert_acknowledged by assumption. reflexivity.
  - injection Hname as <-.
    subst c. cbn [Namespace LastErrorCmd cConn].
    rewrite (Hc _ eq_refl).
    rewrite Insert_acknowledged by assumption.
    destruct opts. reflexivity.
Qed.

End CreateIndexProperties.

(** The index of the tests, [D{{"x", 1}, {"y", -1}}], on the collection
    [test.people] without an acknowledge command: the descriptor named
    [x_1_y_-1] is inserted into [test.system.indexes] and the default
    acknowledge command is run on [test]. *)
Lemma CreateIndex_inserts_witness :
  CreateIndex (list logEntry) unit
    (mkCollection _ _ logConn "test.people" None)
    [mkDocItem "x" (intValue 1); mkDocItem "y" (intValue (-1))] None [] =
  Some (None,
        [ LogClose; LogNext; LogFind "test.$cmd" DefaultLastErrorCmd;
          LogInsert "test.system.indexes"
            [IndexDocument
               (mkIndex [mkDocItem "x" (intValue 1); mkDocItem "y" (intValue (-1))]
                  "test.people"
                  (mkIndexOptions "x_1_y_-1" false false false false None None 0))] ]).
Proof.
  destruct (CreateIndex_inserts logConn "test" "people" None
              [mkDocItem "x" (intValue 1); mkDocItem "y" (intValue (-1))]
              None [] "x_1_y_-1" eq_refl ltac:(discriminate) eq_refl)
    as (cmd & H1 & H2).
  change ("test" +:+ "." +:+ "people") with "test.people" in H2.
  rewrite H2. clear H2.
  injection H1 as ->. reflexivity.
Defined.

(** C8 as stated fails on a key list with a direction that is neither an
    [int] nor a [string] when no name is given: with the direction
    [float64(1)] [CreateIndex] panics in [IndexName] and inserts nothing. *)
Lemma CreateIndex_counterexample :
  CreateIndex (list logEntry) unit
    (mkCollection _ _ logConn "test.people" None)
    [mkDocItem "x" (Some (TFloat64, VFloat 0x3FF0000000000000))] None [] = None.
Proof. reflexivity. Qed.

(** [Update] against a server that matches no document: the not-found
    sentinel with the acknowledge configured, nil without it. *)
Example Update_nothing_matched :
  (Update (list logEntry) unit
     (mkCollection _ _ logConn "test.people" DefaultLastErrorCmd) None None []).1
  = Some ErrNotFound /\
  (Update (list logEntry) unit
     (mkCollection _ _ logConn "test.people" None) None None []).1
  = None.
Proof. split; reflexivity. Qed.

(** ** Struct metadata *)

Lemma projectionLoop_spec (l : list fieldInfo) (hasId : bool) (fields : D) :
  projectionLoop l hasId fields =
  (hasId || existsb (String.eqb "_id") (map name l),
   fields ++ map (fun n => mkDocItem n (intValue 1))
               (filter (fun n => n <> "_id") (map name l))).
Proof.
  revert hasId fields. induction l as [|fi rest IH]; intros hasId fields.
  - cbn. now rewrite orb_false_r, app_nil_r.
  - cbn [projectionLoop map existsb].
    rewrite filter_cons.
    destruct (String.eqb (name fi) "_id") eqn:E.
    + apply String.eqb_eq in E. rewrite IH, E.
      rewrite decide_False by (intros H; now apply H).
      cbn. now rewrite orb_true_r.
    + pose proof E as E'. apply String.eqb_neq in E'.
      rewrite IH. rewrite decide_True by exact E'.
      rewrite String.eqb_sym, E. unfold Append.
      cbn [map orb]. now rewrite <- app_assoc.
Qed.

Lemma compileField_fresh (f : StructField) (i : nat) (depth : gmap string Z)
  (si : structInfo) :
  plainField f -> depth !! fieldName f = None ->
  exists c,
    compileField f i depth [] si =
    Some (<[fieldName f := 0]> depth,
          mkStructInfo (<[fieldName f := mkFieldInfo (fieldName f) [i] c]> (m si))
            (l si ++ [mkFieldInfo (fieldName f) [i] c]) (fields si)).
Proof.
  intros (_ & _ & c & Hc) Hfresh. exists c.
  unfold compileField. fold (fieldName f). rewrite Hc, Hfresh. reflexivity.
Qed.

Lemma compileFields_plain recurse (fs : list StructField) :
  forall (i : nat) (depth : gmap string Z) (si : structInfo),
    Forall plainField fs -> NoDup (map fieldName fs) ->
    (forall f, f ∈ fs -> depth !! fieldName f = None) ->
    exists depth' si',
      compileFields recurse [] fs i depth si = Some (depth', si') /\
      map name (l si') = map name (l si) ++ map fieldName fs /\
      fields si' = fields si.
Proof.
  induction fs as [|f rest IH]; intros i depth si Hplain Hnodup Hfresh.
  - exists depth, si. cbn. now rewrite app_nil_r.
  - apply Forall_cons in Hplain as [Hf Hrest].
    cbn [map] in Hnodup. apply NoDup_cons in Hnodup as [Hnotin Hnodup].
    destruct (compileField_fresh f i depth si Hf) as [c Hc].
    { apply Hfresh. left. }
    cbn [compileFields]. destruct Hf as (Hpkg & Hanon & _).
    rewrite Hpkg, Hanon. cbn [String.eqb negb]. rewrite Hc.
    destruct (IH (S i) (<[fieldName f := 0]> depth)
                (mkStructInfo
                   (<[fieldName f := mkFieldInfo (fieldName f) [i] c]> (m si))
                   (l si ++ [mkFieldInfo (fieldName f) [i] c]) (fields si))
                Hrest Hnodup) as (depth' & si' & H1 & H2 & H3).
    { intros f' Hin. rewrite lookup_insert_ne.
      - apply Hfresh. now right.
      - intros Heq. apply Hnotin. rewrite Heq.
        apply list_elem_of_fmap. now exists f'. }
    exists depth', si'. split; [exact H1|]. split; [|exact H3].
    rewrite H2. cbn [l map]. rewrite map_app. cbn [map name].
    now rewrite <- app_assoc.
Qed.

(** Induction on types that reaches the types of struct fields. *)
Lemma rtype_nested_ind (P : rtype -> Prop)
  (HBool : P TBool) (HInt : forall w, P (TInt w)) (HUint : forall w, P (TUint w))
  (HFloat32 : P TFloat32) (HFloat64 : P TFloat64) (HString : P TString)
  (HInterface : P TInterface)
  (HMap : forall k e, P k -> P e -> P (TMap k e))
  (HSlice : forall e, P e -> P (TSlice e))
  (HArray : forall n e, P e -> P (TArray n e))
  (HStruct : forall fs, Forall (fun f => P (Type_ f)) fs -> P (TStruct fs))
  (HPtr : forall e, P e -> P (TPtr e))
  (HDefined : forall n u, P u -> P (TDefined n u))
  (HOther : forall k, P (TOther k)) :
  forall t, P t.
Proof.
  fix IH 1. intros t. destruct t as [| | | | | | |k e|e|n e|fs|e|n u|k].
  - exact HBool.
  - apply HInt.
  - apply HUint.
  - exact HFloat32.
  - exact HFloat64.
  - exact HString.
  - exact HInterface.
  - apply HMap; apply IH.
  - apply HSlice; apply IH.
  - apply HArray; apply IH.
  - apply HStruct. induction fs as [|f fs IHfs]; constructor.
    + apply IH.
    + exact IHfs.
  - apply HPtr; apply IH.
  - apply HDefined; apply IH.
  - apply HOther.
Qed.

Lemma compileField_fields (f : StructField) (i : nat) (depth : gmap string Z)
  (index : list nat) (si : structInfo) depth' si' :
  compileField f i depth index si = Some (depth', si') -> fields si' = fields si.
Proof.
  unfold compileField.
  destruct (fieldFlags _ _); [|discriminate].
  destruct (_ =? _); [intros [= <- <-]; reflexivity|].
  destruct (_ <? _); intros [= <- <-]; reflexivity.
Qed.

(** [compileStructInfo] leaves [si.fields] alone. *)
Lemma compileStructInfo_fields (t : rtype) :
  forall depth index si depth' si',
    compileStructInfo t depth index si = Some (depth', si') ->
    fields si' = fields si.
Proof.
  induction t using rtype_nested_ind; try discriminate.
  - intros depth index. cbn [compileStructInfo]. generalize O.
    revert depth. induction H as [|f fs Hf Hfs IH]; intros depth i si depth' si'.
    + cbn. intros [= <- <-]. reflexivity.
    + cbn [compileFields].
      destruct (negb (String.eqb (PkgPath f) "")).
      * apply IH.
      * destruct (Anonymous f).
        -- destruct (Kind (Type_ f)); try apply IH.
           destruct (compileStructInfo (Type_ f) depth (index ++ [i]) si)
             as [[d1 s1]|] eqn:E; [|discriminate].
           intros H. apply IH in H. rewrite H. eapply Hf. exact E.
        -- destruct (compileField f i depth index si) as [[d1 s1]|] eqn:E;
             [|discriminate].
           intros H. apply IH in H. rewrite H. eapply compileField_fields. exact E.
  - intros depth index si depth' si'. cbn [compileStructInfo]. apply IHt.
Qed.

Lemma rtype_eqb_eq (a : rtype) : forall b, rtype_eqb a b = true <-> a = b.
Proof.
  induction a using rtype_nested_ind; intros b; destruct b; cbn [rtype_eqb];
    try (split; [discriminate | intros [=]]); try (split; reflexivity).
  - destruct w, w0; cbn; split; congruence.
  - destruct w, w0; cbn; split; congruence.
  - rewrite andb_true_iff, IHa1, IHa2.
    split; [intros [-> ->]; reflexivity | intros [= -> ->]; auto].
  - rewrite IHa. split; congruence.
  - rewrite andb_true_iff, Nat.eqb_eq, IHa.
    split; [intros [-> ->]; reflexivity | intros [= -> ->]; auto].
  - revert fields0. induction H as [|f fs Hf Hfs IH]; intros [|f' fs'];
      try (split; [discriminate | intros [=]]); [split; reflexivity|].
    rewrite !andb_true_iff, !String.eqb_eq, Hf, Bool.eqb_true_iff, IH.
    destruct f, f'; cbn. split.
    + intros (((((-> & ->) & ->) & ->) & ->) & [= ->]). reflexivity.
    + intros [= -> -> -> -> -> ->]. auto 10.
  - rewrite IHa. split; congruence.
  - rewrite andb_true_iff, String.eqb_eq, IHa.
    split; [intros [-> ->]; reflexivity | intros [= -> ->]; auto].
  - destruct k, k0; cbn; split; congruence.
Qed.

Lemma newStructInfo_fields (t : rtype) (si : structInfo) :
  newStructInfo t = Some si -> fields si = projection (map name (l si)).
Proof.
  unfold newStructInfo.
  destruct (compileStructInfo t ∅ [] (mkStructInfo ∅ [] [])) as [[depth si0]|] eqn:E;
    [|discriminate].
  rewrite projectionLoop_spec.
  rewrite (compileStructInfo_fields _ _ _ _ _ _ E).
  change (false || ?b) with b. change ([] ++ ?x) with x.
  unfold projection.
  remember (existsb (String.eqb "_id") (map name (l si0))) as hasId eqn:HhasId.
  remember (map (fun n => mkDocItem n (intValue 1))
              (filter (fun n => n <> "_id") (map name (l si0)))) as d eqn:Hd.
  intros H. injection H as <-.
  change (fields (mkStructInfo ?a ?b ?c)) with c.
  change (l (mkStructInfo ?a ?b ?c)) with b.
  rewrite <- HhasId, <- Hd.
  destruct hasId; cbn [negb]; unfold Append; [now rewrite app_nil_r | reflexivity].
Qed.

Lemma newStructInfo_plain (fs : list StructField) :
  Forall plainField fs -> NoDup (map fieldName fs) ->
  exists si, newStructInfo (TStruct fs) = Some si /\
             map name (l si) = map fieldName fs.
Proof.
  intros Hplain Hnodup.
  destruct (compileFields_plain
              (fun t' depth' index' si' => compileStructInfo t' depth' index' si')
              fs O ∅ (mkStructInfo ∅ [] []) Hplain Hnodup)
    as (depth' & si' & H1 & H2 & H3).
  { intros; apply lookup_empty. }
  unfold newStructInfo. cbn [compileStructInfo]. rewrite H1.
  destruct (projectionLoop (l si') false (fields si')) as [hasId fields'].
  eexists. split; [reflexivity|]. exact H2.
Qed.

(** A call of [structInfoForType] returns the metadata computed for the
    type and leaves a valid cache that holds it. *)
Lemma structInfoForType_cache (cache : structInfoCache) (t : rtype) si cache' :
  cacheValid cache ->
  structInfoForType cache t = Some (si, cache') ->
  newStructInfo t = Some si /\ cacheValid cache' /\ cacheLookup cache' t = Some si.
Proof.
  intros Hvalid. unfold structInfoForType.
  destruct (cacheLookup cache t) as [si0|] eqn:E.
  - intros [= <- <-]. auto.
  - destruct (newStructInfo t) as [si0|] eqn:En; [|discriminate].
    intros [= <- <-]. split; [reflexivity|].
    assert (Hrefl : rtype_eqb t t = true) by now apply rtype_eqb_eq.
    split.
    + intros t' si'. cbn [cacheLookup].
      destruct (rtype_eqb t t') eqn:Et.
      * apply rtype_eqb_eq in Et as <-. now intros [= <-].
      * apply Hvalid.
    + cbn [cacheLookup]. now rewrite Hrefl.
Qed.

(** A second call for the same type is answered from the cache, which it
    leaves as it is. *)
Lemma structInfoForType_again (cache : structInfoCache) (t : rtype) si cache' :
  structInfoForType cache t = Some (si, cache') ->
  structInfoForType cache' t = Some (si, cache').
Proof.
  unfold structInfoForType at 1.
  destruct (cacheLookup cache t) as [si0|] eqn:E.
  - intros [= <- <-]. unfold structInfoForType. now rewrite E.
  - destruct (newStructInfo t) as [si0|]; [|discriminate].
    intros [= <- <-]. unfold structInfoForType. cbn [cacheLookup].
    assert (Hrefl : rtype_eqb t t = true) by now apply rtype_eqb_eq.
    now rewrite Hrefl.
Qed.

(** C6, amended: on a cache that holds what was computed, [StructFields]
    returns the fields of the struct's metadata list other than [_id], each
    with value [1] in the order of the list, and appends [_id:0] exactly when
    no field of the list is named [_id]; the metadata is then cached for the
    type.  For a struct of exported, not embedded fields with distinct names
    the list holds the fields in declaration order. *)
Theorem StructFields_projection :
  (forall (cache : structInfoCache) (t : rtype) (fields' : D) cache',
     cacheValid cache ->
     StructFields cache t = Some (fields', cache') ->
     exists si,
       newStructInfo t = Some si /\
       fields' = projection (map name (l si)) /\
       cacheValid cache' /\ cacheLookup cache' t = Some si) /\
  (forall (cache : structInfoCache) (fs : list StructField),
     cacheValid cache ->
     Forall plainField fs -> NoDup (map fieldName fs) ->
     exists cache',
       StructFields cache (TStruct fs)
       = Some (projection (map fieldName fs), cache')).
Proof.
  split.
  - intros cache t fields' cache' Hvalid. unfold StructFields.
    destruct (structInfoForType cache t) as [[si c]|] eqn:E; [|discriminate].
    intros [= <- <-].
    destruct (structInfoForType_cache _ _ _ _ Hvalid E) as (H1 & H2 & H3).
    exists si. repeat split; auto. exact (newStructInfo_fields t si H1).
  - intros cache fs Hvalid Hplain Hnodup.
    destruct (newStructInfo_plain fs Hplain Hnodup) as (si & Hsi & Hnames).
    unfold StructFields, structInfoForType.
    destruct (cacheLookup cache (TStruct fs)) as [si0|] eqn:E.
    + apply Hvalid in E. rewrite Hsi in E. injection E as <-.
      exists cache. now rewrite (newStructInfo_fields (TStruct fs) si Hsi), Hnames.
    + rewrite Hsi. eexists.
      now rewrite (newStructInfo_fields (TStruct fs) si Hsi), Hnames.
Qed.

Lemma StructFields_projection_witness :
  (exists cache',
     StructFields []
       (TStruct [mkField "X" "" TFloat64 "x" false;
                 mkField "Y" "" (TInt WInt) "y/c" false])
     = Some ([mkDocItem "x" (intValue 1); mkDocItem "y" (intValue 1);
              mkDocItem "_id" (intValue 0)], cache')) /\
  option_map fst (StructFields [] tWithId) = Some [mkDocItem "x" (intValue 1)].
Proof.
  destruct StructFields_projection as [H1 H2].
  assert (Hempty : cacheValid []) by (intros t si; discriminate).
  split.
  - apply (H2 [] [mkField "X" "" TFloat64 "x" false;
                  mkField "Y" "" (TInt WInt) "y/c" false] Hempty).
    + repeat constructor; eexists; reflexivity.
    + vm_compute. repeat constructor; rewrite ?list_elem_of_In; cbn; intuition congruence.
  - destruct (StructFields [] tWithId) as [[fields' cache']|] eqn:E; [|discriminate E].
    destruct (H1 _ _ _ _ Hempty E) as (si & Hsi & -> & _).
    vm_compute in Hsi. injection Hsi as <-. reflexivity.
Defined.

(** C6 as stated fails on a struct that has an [_id] field: the field is
    left out of the projection instead of being listed with value [1]. *)
Lemma StructFields_counterexample :
  option_map fst (StructFields [] tWithId) = Some [mkDocItem "x" (intValue 1)] /\
  option_map fst (StructFields [] tWithId) <> Some (specStructFields ["_id"; "x"]).
Proof.
  split; [reflexivity|]. vm_compute. discriminate.
Qed.

(** C5 fails on [struct { Inner; X string }] with [Inner] holding a field
    [X]: the embedded [X] is compiled first, and when the shallower [X]
    follows, the map entry is replaced but the entry of the deeper [X] stays
    in the list [si.l], so [X] is listed twice. *)
Lemma compileStructInfo_keeps_shadowed_field :
  option_map (fun r => l r.1) (structInfoForType [] tEmbeddedFirst)
  = Some [mkFieldInfo "X" [0%nat; 0%nat] false; mkFieldInfo "X" [1%nat] false] /\
  option_map (fun r => m r.1 !! "X") (structInfoForType [] tEmbeddedFirst)
  = Some (Some (mkFieldInfo "X" [1%nat] false)) /\
  option_map fst (StructFields [] tEmbeddedFirst)
  = Some [mkDocItem "X" (intValue 1); mkDocItem "X" (intValue 1);
          mkDocItem "_id" (intValue 0)].
Proof. repeat split; reflexivity. Qed.

(** Where the shadowing works: the shallower field first, and two fields of
    the same name at the same depth. *)
Example compileStructInfo_shallow_first :
  option_map (fun r => l r.1) (structInfoForType [] tEmbeddedLast)
  = Some [mkFieldInfo "X" [0%nat] false].
Proof. reflexivity. Qed.

Example compileStructInfo_same_depth :
  option_map (fun r => l r.1) (structInfoForType [] tTwins)
  = Some [mkFieldInfo "Y" [2%nat] false] /\
  option_map (fun r => m r.1 !! "X") (structInfoForType [] tTwins) = Some None.
Proof. split; reflexivity. Qed.

(** ** The decoder: slices, words and the scanning primitives *)

Lemma len_nonneg {A} (l : list A) : 0 <= len l.
Proof. unfold len. lia. Qed.

Lemma slice_Some {A} (l : list A) (lo hi : Z) (p : list A) :
  slice l lo hi = Some p <->
  0 <= lo /\ lo <= hi /\ hi <= len l /\
  p = take (Z.to_nat (hi - lo)) (drop (Z.to_nat lo) l).
Proof.
  unfold slice.
  destruct (0 <=? lo) eqn:E1; destruct (lo <=? hi) eqn:E2;
    destruct (hi <=? len l) eqn:E3; cbn [andb];
    split; try discriminate; try (intros (? & ? & ? & ?); lia).
  - intros [= <-]. repeat split; lia.
  - intros (_ & _ & _ & ->). reflexivity.
Qed.

Lemma slice_length {A} (l : list A) (lo hi : Z) (p : list A) :
  slice l lo hi = Some p -> len p = hi - lo.
Proof.
  intros H. apply slice_Some in H as (H1 & H2 & H3 & ->).
  unfold len in *. rewrite length_take, length_drop. lia.
Qed.

Lemma slice_None {A} (l : list A) (lo hi : Z) :
  slice l lo hi = None <-> lo < 0 \/ hi < lo \/ len l < hi.
Proof.
  unfold slice.
  destruct (0 <=? lo) eqn:E1; destruct (lo <=? hi) eqn:E2;
    destruct (hi <=? len l) eqn:E3; cbn [andb];
    split; try discriminate; try lia; intros; reflexivity.
Qed.

Lemma lor_bound (a b n : Z) :
  0 <= n -> 0 <= a < 2^n -> 0 <= b < 2^n -> 0 <= Z.lor a b < 2^n.
Proof.
  intros Hn Ha Hb. split; [apply Z.lor_nonneg; lia|].
  assert (Hpos : 0 < 2^n) by (apply Z.pow_pos_nonneg; lia).
  destruct (Z.eq_dec n 0) as [->|Hn0].
  { assert (a = 0) by (change (2^0) with 1 in Ha; lia).
    assert (b = 0) by (change (2^0) with 1 in Hb; lia).
    subst. reflexivity. }
  destruct (Z.eq_dec (Z.lor a b) 0) as [->|Hne]; [lia|].
  apply Z.log2_lt_pow2; [pose proof (proj2 (Z.lor_nonneg a b)); lia|].
  rewrite Z.log2_lor by lia.
  apply Z.max_lub_lt.
  - destruct (Z.eq_dec a 0) as [->|]; [cbn; lia|]. apply Z.log2_lt_pow2; lia.
  - destruct (Z.eq_dec b 0) as [->|]; [cbn; lia|]. apply Z.log2_lt_pow2; lia.
Qed.

Lemma shiftl_byte_bound (b : byte) (k n : Z) :
  0 <= k -> k + 8 <= n -> 0 <= Z.shiftl (byte_to_Z b) k < 2^n.
Proof.
  intros Hk Hn. pose proof (byte_to_Z_range b) as Hb.
  rewrite Z.shiftl_mul_pow2 by lia.
  assert (0 < 2^k) by (apply Z.pow_pos_nonneg; lia).
  split; [nia|].
  apply Z.lt_le_trans with (2^8 * 2^k); [change (2^8) with 256; nia|].
  rewrite <- Z.pow_add_r by lia. apply Z.pow_le_mono_r; lia.
Qed.

Lemma byte_bound (b : byte) (n : Z) : 8 <= n -> 0 <= byte_to_Z b < 2^n.
Proof.
  intros Hn. pose proof (shiftl_byte_bound b 0 n ltac:(lia) ltac:(lia)) as H.
  now rewrite Z.shiftl_0_r in H.
Qed.

Lemma Uint32_range (p : list byte) : 0 <= wire.Uint32 p < 2^32.
Proof.
  unfold wire.Uint32.
  destruct p as [|b0 [|b1 [|b2 [|b3 p]]]]; try lia.
  repeat apply lor_bound; try lia;
    first [apply byte_bound; lia | apply shiftl_byte_bound; lia].
Qed.

Lemma Uint64_range (p : list byte) : 0 <= wire.Uint64 p < 2^64.
Proof.
  unfold wire.Uint64.
  destruct p as [|b0 [|b1 [|b2 [|b3 [|b4 [|b5 [|b6 [|b7 p]]]]]]]]; try lia.
  repeat apply lor_bound; try lia;
    first [apply byte_bound; lia | apply shiftl_byte_bound; lia].
Qed.

Lemma to_int32_small (u : Z) : 0 <= u < 2^31 -> to_int32 u = u.
Proof.
  intros H. unfold to_int32. rewrite Z.mod_small by lia.
  destruct (u <? 2^31) eqn:E; lia.
Qed.

Lemma to_int32_range (u : Z) : - 2^31 <= to_int32 u < 2^31.
Proof.
  unfold to_int32. pose proof (Z.mod_pos_bound u (2^32) ltac:(lia)).
  destruct (u mod 2^32 <? 2^31) eqn:E; lia.
Qed.

Lemma to_int64_range (u : Z) : - 2^63 <= to_int64 u < 2^63.
Proof.
  unfold to_int64. pose proof (Z.mod_pos_bound u (2^64) ltac:(lia)).
  destruct (u mod 2^64 <? 2^63) eqn:E; lia.
Qed.

Lemma to_int64_small (u : Z) : - 2^63 <= u < 2^63 -> to_int64 u = u.
Proof.
  intros H. unfold to_int64.
  destruct (Z_lt_le_dec u 0).
  - replace (u mod 2^64) with (u + 2^64).
    + destruct (u + 2^64 <? 2^63) eqn:E; lia.
    + apply Z.mod_unique with (-1); lia.
  - rewrite Z.mod_small by lia. destruct (u <? 2^63) eqn:E; lia.
Qed.

(** *** [scanSlice] and [scanByte] *)

Lemma scanSlice_inv (n : Z) (d : decodeState) (p : list byte) (d' : decodeState) :
  scanSlice n d = Ok p d' ->
  0 <= offset d /\ 0 <= n /\ offset d + n <= len (data d) /\
  slice (data d) (offset d) (offset d + n) = Some p /\
  d' = setOffset d (offset d + n).
Proof.
  unfold scanSlice.
  destruct (len (data d) <? offset d + n) eqn:E; [discriminate|].
  destruct (slice (data d) (offset d) (offset d + n)) as [q|] eqn:ES; [|discriminate].
  intros [= <- <-]. pose proof ES as ES'.
  apply slice_Some in ES as (H1 & H2 & H3 & _). repeat split; auto; lia.
Qed.

Lemma scanSlice_ok (n : Z) (d : decodeState) (p : list byte) :
  slice (data d) (offset d) (offset d + n) = Some p ->
  scanSlice n d = Ok p (setOffset d (offset d + n)).
Proof.
  intros H. unfold scanSlice. pose proof H as H'.
  apply slice_Some in H' as (H1 & H2 & H3 & _).
  destruct (len (data d) <? offset d + n) eqn:E; [lia|]. now rewrite H.
Qed.

(** Premature end of data in [scanSlice] *)
Lemma scanSlice_eod (n : Z) (d : decodeState) :
  len (data d) < offset d + n -> scanSlice n d = Panic (aborted ErrEOD).
Proof.
  intros H. unfold scanSlice.
  destruct (len (data d) <? offset d + n) eqn:E; [reflexivity | lia].
Qed.

Lemma scanByte_inv (d : decodeState) (b : byte) (d' : decodeState) :
  scanByte d = Ok b d' ->
  0 <= offset d < len (data d) /\ d' = setOffset d (offset d + 1).
Proof.
  unfold scanByte, index.
  destruct (len (data d) <=? offset d) eqn:E; [discriminate|].
  destruct (offset d <? 0) eqn:E'; [discriminate|].
  destruct (data d !! Z.to_nat (offset d)); [|discriminate].
  intros [= <- <-]. split; [lia | reflexivity].
Qed.

(** Premature end of data in [scanByte] *)
Lemma scanByte_eod (d : decodeState) :
  len (data d) <= offset d -> scanByte d = Panic (aborted ErrEOD).
Proof.
  intros H. unfold scanByte.
  destruct (len (data d) <=? offset d) eqn:E; [reflexivity | lia].
Qed.

(** ** The saved error is written once *)

Lemma keeps_ret {A} (a : A) : keeps (ret a).
Proof. intros d a' d' [= <- <-]. auto. Qed.

Lemma keeps_bind {A B} (c : M A) (k : A -> M B) :
  keeps c -> (forall a, keeps (k a)) -> keeps (bind c k).
Proof.
  intros Hc Hk d b d'. unfold bind.
  destruct (c d) as [a d1| |] eqn:E; try discriminate.
  intros H. destruct (Hc _ _ _ E) as [H1 H2]. destruct (Hk _ _ _ _ H) as [H3 H4].
  split; [congruence | auto].
Qed.

Lemma keeps_abort {A} (err : error) : keeps (@abort A err).
Proof. intros d a d'. discriminate. Qed.

Lemma keeps_runtimePanic {A} (msg : string) : keeps (@runtimePanic A msg).
Proof. intros d a d'. discriminate. Qed.

Lemma keeps_notSettable {A} : keeps (@notSettable A).
Proof. apply keeps_runtimePanic. Qed.

Lemma keeps_readOnly {A} : keeps (@readOnly A).
Proof. apply keeps_runtimePanic. Qed.

Lemma keeps_cannotSet {A} (fl : flag) : keeps (@cannotSet A fl).
Proof. apply keeps_runtimePanic. Qed.

Lemma keeps_mustBeExported (fl : flag) : keeps (mustBeExported fl).
Proof.
  unfold mustBeExported. destruct (flagRO fl);
    [apply keeps_runtimePanic | intros d a d' [= <- <-]; auto].
Qed.

Lemma keeps_wrongKind {A} : keeps (@wrongKind A).
Proof. apply keeps_runtimePanic. Qed.

Lemma keeps_timeout {A} : keeps (@timeout A).
Proof. intros d a d'. discriminate. Qed.

Lemma keeps_get : keeps get.
Proof. intros d a d' [= <- <-]. auto. Qed.

Lemma keeps_addOffset (n : Z) : keeps (addOffset n).
Proof. intros d a d' [= <- <-]. auto. Qed.

Lemma keeps_saveError (err : error) : keeps (saveError err).
Proof.
  intros d a d'. unfold saveError.
  destruct (savedError d) eqn:E; intros [= <- <-]; cbn; split; auto; congruence.
Qed.

Lemma keeps_scanByte : keeps scanByte.
Proof.
  intros d b d' H. apply scanByte_inv in H as [_ ->]. auto.
Qed.

Lemma keeps_scanSlice (n : Z) : keeps (scanSlice n).
Proof.
  intros d p d' H. apply scanSlice_inv in H as (_ & _ & _ & _ & ->). auto.
Qed.

Lemma keeps_endDoc (o : Z) : keeps (endDoc o).
Proof.
  intros d a d'. unfold endDoc.
  destruct (negb (offset d =? o)); [discriminate|]. intros [= <- <-]. auto.
Qed.

Create HintDb keeps.
#[local] Hint Resolve keeps_ret keeps_abort keeps_runtimePanic keeps_notSettable
  keeps_readOnly keeps_cannotSet keeps_mustBeExported keeps_wrongKind keeps_timeout keeps_get keeps_addOffset keeps_saveError
  keeps_scanByte keeps_scanSlice keeps_endDoc : keeps.

(** One step through a computation built from [bind], [if] and [match]. *)
Ltac keeps_step :=
  match goal with
  | |- keeps (bind _ _) => apply keeps_bind; [|intros]
  | |- keeps (if ?b then _ else _) => destruct b
  | |- keeps (match ?x with _ => _ end) => destruct x
  | |- keeps _ => solve [eauto with keeps]
  end.

Ltac keeps_auto := cbv zeta; repeat keeps_step.

Lemma keeps_beginDoc : keeps beginDoc.
Proof.
  intros d a d'. unfold beginDoc.
  change (bind (scanSlice 4) (fun p => ret (offset d + wire.Uint32 p)) d = Ok a d'
          -> data d' = data d /\
             (forall e, savedError d = Some e -> savedError d' = Some e)).
  apply keeps_bind; eauto with keeps.
Qed.

Lemma keeps_scanKindName : keeps scanKindName.
Proof.
  unfold scanKindName. apply keeps_bind; [eauto with keeps|]. intros b.
  destruct (byte_to_Z b =? 0); [eauto with keeps|].
  intros d a d'.
  destruct (slice (data d) (offset d) (len (data d))); [|discriminate].
  destruct (indexZero l0); [|discriminate].
  destruct (slice (data d) (offset d) (offset d + z)); [|discriminate].
  intros [= <- <-]. auto.
Qed.

#[local] Hint Resolve keeps_beginDoc keeps_scanKindName : keeps.

Lemma keeps_scanFloat : keeps scanFloat.
Proof. unfold scanFloat. keeps_auto. Qed.

Lemma keeps_scanString : keeps scanString.
Proof. unfold scanString. keeps_auto. Qed.

Lemma keeps_scanBinary : keeps scanBinary.
Proof. unfold scanBinary. keeps_auto. Qed.

Lemma keeps_scanBool : keeps scanBool.
Proof. unfold scanBool. keeps_auto. Qed.

Lemma keeps_scanInt32 : keeps scanInt32.
Proof. unfold scanInt32. keeps_auto. Qed.

Lemma keeps_scanInt64 : keeps scanInt64.
Proof. unfold scanInt64. keeps_auto. Qed.

#[local] Hint Resolve keeps_scanFloat keeps_scanString keeps_scanBinary
  keeps_scanBool keeps_scanInt32 keeps_scanInt64 : keeps.

Lemma keeps_skipValue (kind : Z) : keeps (skipValue kind).
Proof. unfold skipValue. keeps_auto. Qed.

#[local] Hint Resolve keeps_skipValue : keeps.

Lemma keeps_saveErrorAndSkip (kind : Z) (t : rtype) : keeps (saveErrorAndSkip kind t).
Proof.
  unfold saveErrorAndSkip. apply keeps_bind; [eauto with keeps|]. intros _.
  apply (keeps_saveError (DecodeConvertError kind t)).
Qed.

#[local] Hint Resolve keeps_saveErrorAndSkip : keeps.

Lemma keeps_Set_ (fl : flag) (x : rvalue) : keeps (Set_ fl x).
Proof. unfold Set_. keeps_auto. Qed.

#[local] Hint Resolve keeps_Set_ : keeps.

Lemma keeps_SetInt fl t x : keeps (SetInt fl t x).
Proof. unfold SetInt. keeps_auto. Qed.

Lemma keeps_SetUint fl t x : keeps (SetUint fl t x).
Proof. unfold SetUint. keeps_auto. Qed.

Lemma keeps_SetFloat fl t x : keeps (SetFloat fl t x).
Proof. unfold SetFloat. keeps_auto. Qed.

Lemma keeps_SetString fl t x : keeps (SetString fl t x).
Proof. unfold SetString. keeps_auto. Qed.

Lemma keeps_SetBool fl t x : keeps (SetBool fl t x).
Proof. unfold SetBool. keeps_auto. Qed.

#[local] Hint Resolve keeps_SetInt keeps_SetUint keeps_SetFloat keeps_SetString
  keeps_SetBool : keeps.

Lemma keeps_decodeValueInterface (fuel : nat) :
  (forall kind, keeps (decodeValueInterface fuel kind)) /\
  (forall m, keeps (interfaceDocLoop fuel m)) /\
  (forall a, keeps (interfaceArrayLoop fuel a)).
Proof.
  induction fuel as [|fuel (IH1 & IH2 & IH3)].
  - split; [|split]; intros x; apply keeps_timeout.
  - split; [|split]; intros x.
    + cbn [decodeValueInterface]. keeps_auto.
    + cbn [interfaceDocLoop]. keeps_auto.
    + cbn [interfaceArrayLoop]. keeps_auto.
Qed.

Lemma keeps_decodeValueInterface_1 fuel kind : keeps (decodeValueInterface fuel kind).
Proof. apply keeps_decodeValueInterface. Qed.

#[local] Hint Resolve keeps_decodeValueInterface_1 : keeps.

Section DecoderKeeps.

Variable cvtI cvtU : Z -> Z.
Variable spec : rtype -> list byte -> option (list nat).

Lemma keeps_decodeFloat kind t v fl : keeps (decodeFloat kind t v fl).
Proof. unfold decodeFloat. keeps_auto. Qed.

Lemma keeps_decodeInt kind t v fl : keeps (decodeInt cvtI kind t v fl).
Proof. unfold decodeInt. keeps_auto. Qed.

Lemma keeps_decodeUint kind t v fl : keeps (decodeUint cvtU kind t v fl).
Proof. unfold decodeUint. keeps_auto. Qed.

#[local] Hint Resolve keeps_decodeFloat keeps_decodeInt keeps_decodeUint : keeps.

Lemma keeps_decodeTimestamp kind t v fl :
  keeps (decodeTimestamp cvtI kind t v fl).
Proof. unfold decodeTimestamp. keeps_auto. Qed.

Lemma keeps_decodeDateTime kind t v fl :
  keeps (decodeDateTime cvtI kind t v fl).
Proof. unfold decodeDateTime. keeps_auto. Qed.

Lemma keeps_decodeString kind t v fl : keeps (decodeString kind t v fl).
Proof. unfold decodeString. keeps_auto. Qed.

Lemma keeps_decodeObjectId kind t v fl : keeps (decodeObjectId kind t v fl).
Proof. unfold decodeObjectId. keeps_auto. Qed.

Lemma keeps_decodeBSONData kind t v fl : keeps (decodeBSONData kind t v fl).
Proof. unfold decodeBSONData. keeps_auto. Qed.

Lemma keeps_decodeByteSlice kind t v fl : keeps (decodeByteSlice kind t v fl).
Proof. unfold decodeByteSlice. keeps_auto. Qed.

Lemma keeps_decodeBool kind t v fl : keeps (decodeBool kind t v fl).
Proof. unfold decodeBool. keeps_auto. Qed.

Lemma keeps_decodeMinMax kind t v fl : keeps (decodeMinMax kind t v fl).
Proof. unfold decodeMinMax. keeps_auto. Qed.

Lemma keeps_mapStringInterfaceLoop fuel m : keeps (mapStringInterfaceLoop fuel m).
Proof.
  revert m. induction fuel as [|fuel IH]; intros m; [apply keeps_timeout|].
  cbn [mapStringInterfaceLoop]. keeps_auto.
Qed.

#[local] Hint Resolve keeps_mapStringInterfaceLoop : keeps.

Lemma keeps_decodeMapStringInterface fuel kind t v fl :
  keeps (decodeMapStringInterface fuel kind t v fl).
Proof. unfold decodeMapStringInterface. keeps_auto. Qed.

Lemma keeps_decodeInterface fuel kind t v fl :
  keeps (decodeInterface fuel kind t v fl).
Proof. unfold decodeInterface. keeps_auto. Qed.

#[local] Hint Resolve keeps_decodeTimestamp keeps_decodeDateTime keeps_decodeString
  keeps_decodeObjectId keeps_decodeBSONData keeps_decodeByteSlice keeps_decodeBool
  keeps_decodeMinMax keeps_decodeMapStringInterface keeps_decodeInterface : keeps.

Section ContainersKeep.

Variable rec : Z -> rtype -> rvalue -> flag -> M rvalue.
Hypothesis keeps_rec : forall kind t v fl, keeps (rec kind t v fl).

#[local] Hint Resolve keeps_rec : keeps.

Lemma keeps_mapLoop fuel key elem m fl : keeps (mapLoop rec fuel key elem m fl).
Proof.
  revert m. induction fuel as [|fuel IH]; intros m; [apply keeps_timeout|].
  cbn [mapLoop]. keeps_auto.
Qed.

Lemma keeps_sliceLoop fuel elem s fl i : keeps (sliceLoop rec fuel elem s fl i).
Proof.
  revert s i. induction fuel as [|fuel IH]; intros s i; [apply keeps_timeout|].
  cbn [sliceLoop]. keeps_auto.
Qed.

Lemma keeps_arrayLoop fuel elem l fl i : keeps (arrayLoop rec fuel elem l fl i).
Proof.
  revert l i. induction fuel as [|fuel IH]; intros l i; [apply keeps_timeout|].
  cbn [arrayLoop]. keeps_auto.
Qed.

Lemma keeps_structLoop fuel t v fl : keeps (structLoop spec rec fuel t v fl).
Proof.
  revert v. induction fuel as [|fuel IH]; intros v; [apply keeps_timeout|].
  cbn [structLoop]. keeps_auto.
Qed.

#[local] Hint Resolve keeps_mapLoop keeps_sliceLoop keeps_arrayLoop
  keeps_structLoop : keeps.

Lemma keeps_callDecoder f fuel kind t v fl :
  keeps (callDecoder cvtI cvtU spec rec f fuel kind t v fl).
Proof.
  destruct f; cbn [callDecoder]; eauto with keeps.
  - unfold decodeMap. keeps_auto.
  - unfold decodeStruct. keeps_auto.
  - unfold decodeSlice. keeps_auto.
  - unfold decodeArray. keeps_auto.
Qed.

End ContainersKeep.

(** No run of [decodeValue] changes the input or replaces a saved error. *)
Lemma keeps_decodeValue fuel :
  forall kind t v fl, keeps (decodeValue cvtI cvtU spec fuel kind t v fl).
Proof.
  induction fuel as [|fuel IH]; intros kind t v fl; [apply keeps_timeout|].
  cbn [decodeValue].
  destruct (indirect t v fl) as [msg|[[[t' v'] c'] rebuild]];
    [apply keeps_runtimePanic|].
  apply keeps_bind; [|intros; apply keeps_ret].
  destruct (decoderFor t'); [|keeps_auto].
  apply keeps_callDecoder. exact IH.
Qed.

End DecoderKeeps.

(** ** The entry point *)

Section EntryPoint.

Variable cvtI cvtU : Z -> Z.
Variable spec : rtype -> list byte -> option (list nat).

(** [handleAbort] turns every abort into a returned error and lets every
    other outcome through. *)
Lemma handleAbort_spec (o : outcome) :
  match o with
  | Panicked (aborted err) => handleAbort o = Returned (Some err) None
  | _ => handleAbort o = o
  end.
Proof. destruct o as [| [|] |]; reflexivity. Qed.

(** An abort of the decoding is what [decodeInternal] returns, whatever
    the target. *)
Lemma decodeInternal_abort (fuel : nat) (kind : Z) (data : list byte)
  (v : target) (err : error) :
  match v with
  | ReflectValue t value fl =>
      decodeValue cvtI cvtU spec fuel kind t value fl (mkState data 0 None)
      = Panic (aborted err)
  | Interface_ (Some (t, VPtr (Some x))) =>
      exists e, underlying t = TPtr e /\
        decodeValue cvtI cvtU spec fuel kind e x settable (mkState data 0 None)
        = Panic (aborted err)
  | Interface_ (Some (t, VMap (Some m))) =>
      Kind t = reflect.Map /\
      decodeValue cvtI cvtU spec fuel kind t (VMap (Some m)) unaddressable
        (mkState data 0 None)
      = Panic (aborted err)
  | _ => False
  end ->
  decodeInternal cvtI cvtU spec fuel kind data v = Returned (Some err) None.
Proof.
  destruct v as [t value fl | [[t x]|]]; [| |tauto].
  - intros H. unfold decodeInternal. rewrite H. reflexivity.
  - destruct x as [| | | | | |[m|]| | | |[x|]|]; try tauto.
    + intros [HK H]. unfold decodeInternal. rewrite HK, H. reflexivity.
    + intros (e & He & H). unfold decodeInternal.
      assert (HK : Kind t = reflect.Ptr) by (unfold Kind; now rewrite He).
      rewrite HK, He, H. reflexivity.
Qed.

(** C10, amended: [decodeInternal] (and so [Decode]) called with an invalid
    target that is not a [reflect.Value], that is the nil interface, a nil
    map, a nil pointer or a value that is neither a pointer nor a map,
    returns an error whatever the input and the fuel, so it neither panics
    nor runs on; a target that is a [reflect.Value] is not checked: the
    outcome is the one of decoding into it as it is; and when the decoding
    of a target (a [reflect.Value], a non-nil pointer, a non-nil map) aborts
    with [err], the deferred [handleAbort] makes [decodeInternal] return
    [err]. *)
Theorem decodeInternal_invalid_target (fuel : nat) (kind : Z) (data : list byte)
  (v : target) :
  (invalidTarget v ->
   exists err, decodeInternal cvtI cvtU spec fuel kind data v = Returned (Some err) None) /\
  (forall t value fl,
     v = ReflectValue t value fl ->
     decodeInternal cvtI cvtU spec fuel kind data v =
     match decodeValue cvtI cvtU spec fuel kind t value fl (mkState data 0 None) with
     | Ok v' d' => Returned (savedError d') (Some v')
     | Panic (aborted err) => Returned (Some err) None
     | Panic (runtimeError msg) => Panicked (runtimeError msg)
     | OutOfFuel => Unfinished
     end) /\
  (forall err,
     match v with
     | ReflectValue t value fl =>
         decodeValue cvtI cvtU spec fuel kind t value fl (mkState data 0 None)
         = Panic (aborted err)
     | Interface_ (Some (t, VPtr (Some x))) =>
         exists e, underlying t = TPtr e /\
           decodeValue cvtI cvtU spec fuel kind e x settable (mkState data 0 None)
           = Panic (aborted err)
     | Interface_ (Some (t, VMap (Some m))) =>
         Kind t = reflect.Map /\
         decodeValue cvtI cvtU spec fuel kind t (VMap (Some m)) unaddressable
           (mkState data 0 None)
         = Panic (aborted err)
     | _ => False
     end ->
     decodeInternal cvtI cvtU spec fuel kind data v = Returned (Some err) None).
Proof.
  split; [|split].
  - destruct v as [t value fl | [[t x]|]]; cbn [invalidTarget]; [tauto | |eauto].
    unfold decodeInternal.
    destruct (Kind t) eqn:EK; intros H; subst; cbn [handleAbort]; eauto.
  - intros t value fl ->. unfold decodeInternal.
    destruct (decodeValue cvtI cvtU spec fuel kind t value fl (mkState data 0 None))
      as [v' d'|[err|msg]|]; reflexivity.
  - intros err. apply decodeInternal_abort.
Qed.

End EntryPoint.

(** The four refusals, and an abort that is returned: the empty input read
    into a map. *)
Example Decode_nil_targets :
  let run := Decode' 10 [] in
  run (Interface_ None)
  = Returned (Some (errorString "bson: Decode arg must be pointer or map.")) None /\
  run (Interface_ (Some (tM, VMap None)))
  = Returned (Some (errorString "bson: Decode map arg must not be nil.")) None /\
  run (Interface_ (Some (TPtr tM, VPtr None)))
  = Returned (Some (errorString "bson: Decode pointer arg must not be nil.")) None /\
  run (Interface_ (Some (TInt WInt, VInt 3)))
  = Returned (Some (errorString "bson: Decode arg must be pointer or map.")) None /\
  run (Interface_ (Some (tM, VMap (Some ∅)))) = Returned (Some ErrEOD) None.
Proof. repeat split; reflexivity. Qed.

(** C10 as stated fails for a target that is handed over as a
    [reflect.Value]: [decodeInternal] makes its checks only on an argument
    that is not one, so the nil map inside [reflect.ValueOf(m)] is decoded
    into, and [Set] panics on it; the panic is no abort, and [handleAbort]
    passes it on. *)
Lemma decodeInternal_counterexample :
  Decode' 10 [x05; x00; x00; x00; x00] (ReflectValue tM (VMap None) unaddressable)
  = Panicked (runtimeError "reflect: reflect.Value.Set using unaddressable value").
Proof. reflexivity. Qed.

Lemma decodeInternal_invalid_target_witness :
  exists err,
    decodeInternal unrepresentable_int64 unrepresentable_uint64 structSpecOfInfo 0
      kindDocument [x05; x00; x00; x00; x00]
      (Interface_ (Some (TPtr tM, VPtr None)))
    = Returned (Some err) None.
Proof.
  apply (decodeInternal_invalid_target unrepresentable_int64
           unrepresentable_uint64 structSpecOfInfo 0 kindDocument
           [x05; x00; x00; x00; x00]
           (Interface_ (Some (TPtr tM, VPtr None)))).
  reflexivity.
Defined.

(** ** Inversion of the scanning functions *)

Lemma bind_inv {A B} (c : M A) (k : A -> M B) d b d' :
  bind c k d = Ok b d' -> exists a d1, c d = Ok a d1 /\ k a d1 = Ok b d'.
Proof.
  unfold bind. destruct (c d) as [a d1| |]; try discriminate. eauto.
Qed.

Lemma bind_ok {A B} (c : M A) (k : A -> M B) d a d1 :
  c d = Ok a d1 -> bind c k d = k a d1.
Proof. unfold bind. now intros ->. Qed.

(** A panic ends the computation: nothing after it runs. *)
Lemma bind_panic {A B} (c : M A) (k : A -> M B) d p :
  c d = Panic p -> bind c k d = Panic p.
Proof. unfold bind. now intros ->. Qed.

Lemma scanInt32_inv d n d' :
  scanInt32 d = Ok n d' ->
  lengthPrefix d = Some n /\ 0 <= offset d /\ offset d + 4 <= len (data d) /\
  d' = setOffset d (offset d + 4).
Proof.
  unfold scanInt32. intros H. apply bind_inv in H as (p & d1 & H1 & H2).
  injection H2 as <- <-. apply scanSlice_inv in H1 as (H0 & _ & Hl & Hs & ->).
  unfold lengthPrefix. rewrite Hs. auto.
Qed.

Lemma scanInt32_ok d n :
  lengthPrefix d = Some n -> scanInt32 d = Ok n (setOffset d (offset d + 4)).
Proof.
  unfold lengthPrefix, scanInt32. intros H.
  destruct (slice (data d) (offset d) (offset d + 4)) as [p|] eqn:E; [|discriminate].
  injection H as <-. rewrite (bind_ok _ _ _ _ _ (scanSlice_ok _ _ _ E)). reflexivity.
Qed.

Lemma scanFixed_inv (n : Z) {A} (f : list byte -> A) d a d' :
  bind (scanSlice n) (fun p => ret (f p)) d = Ok a d' ->
  0 <= offset d /\ d' = setOffset d (offset d + n).
Proof.
  intros H. apply bind_inv in H as (p & d1 & H1 & H2).
  injection H2 as <- <-. apply scanSlice_inv in H1 as (H0 & _ & _ & _ & ->). auto.
Qed.

Lemma beginDoc_inv d o d' :
  beginDoc d = Ok o d' ->
  exists p, slice (data d) (offset d) (offset d + 4) = Some p /\
            o = offset d + wire.Uint32 p /\ 0 <= offset d /\
            d' = setOffset d (offset d + 4).
Proof.
  unfold beginDoc. intros H. apply bind_inv in H as (p & d1 & H1 & H2).
  injection H2 as <- <-. apply scanSlice_inv in H1 as (H0 & _ & _ & Hs & ->).
  exists p. auto.
Qed.

Lemma endDoc_inv o d u d' : endDoc o d = Ok u d' -> offset d = o /\ d' = d.
Proof.
  unfold endDoc. destruct (offset d =? o) eqn:E; cbn [negb]; [|discriminate].
  intros [= _ <-]. split; [lia | reflexivity].
Qed.

(** A document whose elements end at another offset than the declared one
    is a fatal error. *)
Lemma endDoc_mismatch o d : offset d <> o -> endDoc o d = Panic (aborted errDocLength).
Proof.
  intros H. unfold endDoc. destruct (offset d =? o) eqn:E; [lia | reflexivity].
Qed.

Lemma scanString_inv d s d' :
  scanString d = Ok s d' ->
  exists p, slice (data d) (offset d) (offset d + 4) = Some p /\
            0 <= offset d /\ 1 <= wire.Uint32 p /\
            offset d + 4 + wire.Uint32 p - 1 <= len (data d) /\
            d' = setOffset d (offset d + 4 + wire.Uint32 p).
Proof.
  unfold scanString. intros H.
  apply bind_inv in H as (p & d1 & H1 & H).
  apply bind_inv in H as (q & d2 & H2 & H).
  apply bind_inv in H as (u & d3 & H3 & H).
  injection H as <- <-. injection H3 as _ <-.
  apply scanSlice_inv in H1 as (H0 & _ & _ & Hs & ->).
  apply scanSlice_inv in H2 as (_ & Hn & Hl & _ & ->).
  cbn [offset data setOffset] in *.
  exists p. repeat split; auto; try lia;
    try (unfold setOffset; cbn; f_equal; lia).
Qed.

Lemma scanBinary_inv d r d' :
  scanBinary d = Ok r d' ->
  exists p, slice (data d) (offset d) (offset d + 4) = Some p /\
            0 <= offset d /\
            offset d + 4 + 1 + wire.Uint32 p <= len (data d) /\
            d' = setOffset d (offset d + 4 + 1 + wire.Uint32 p).
Proof.
  unfold scanBinary. intros H.
  apply bind_inv in H as (p & d1 & H1 & H).
  apply bind_inv in H as (b & d2 & H2 & H).
  apply bind_inv in H as (q & d3 & H3 & H).
  injection H as <- <-.
  apply scanSlice_inv in H1 as (H0 & _ & _ & Hs & ->).
  apply scanByte_inv in H2 as (_ & ->).
  apply scanSlice_inv in H3 as (_ & Hn & Hl & _ & ->).
  cbn [offset data setOffset] in *.
  exists p. repeat split; auto; try lia;
    try (unfold setOffset; cbn; f_equal; lia).
Qed.

Lemma scanBool_inv d b d' :
  scanBool d = Ok b d' -> 0 <= offset d /\ d' = setOffset d (offset d + 1).
Proof.
  unfold scanBool. intros H. apply bind_inv in H as (x & d1 & H1 & H).
  apply scanByte_inv in H1 as (H0 & ->).
  destruct (byte_to_Z x =? 0); injection H as <- <-; split; auto; lia.
Qed.

Lemma scanKindName_inv d kind name' d' :
  scanKindName d = Ok (kind, name') d' ->
  data d' = data d /\ 0 <= offset d < offset d' /\ offset d' <= len (data d).
Proof.
  unfold scanKindName. intros H. apply bind_inv in H as (b & d1 & H1 & H).
  apply scanByte_inv in H1 as (H0 & ->).
  destruct (byte_to_Z b =? 0).
  - injection H as <- <- <-. cbn. repeat split; lia.
  - cbn [data offset setOffset] in H.
    destruct (slice (data d) (offset d + 1) (len (data d))) as [rest|] eqn:ER;
      [|discriminate].
    destruct (indexZero rest) as [i|] eqn:EI; [|discriminate].
    destruct (slice (data d) (offset d + 1) (offset d + 1 + i)) as [nm|] eqn:EN;
      [|discriminate].
    injection H as <- <- <-.
    apply slice_Some in EN as (E1 & E2 & E3 & _).
    assert (i < len rest).
    { clear - EI. revert i EI. induction rest as [|x rest IH]; intros i; cbn.
      - discriminate.
      - destruct (byte_to_Z x =? 0).
        + intros [= <-]. unfold len. cbn. lia.
        + destruct (indexZero rest) as [j|]; [|discriminate].
          intros [= <-]. specialize (IH j eq_refl). unfold len in *. cbn. lia. }
    apply slice_length in ER.
    cbn. repeat split; lia.
Qed.

Lemma scanFloat_inv d f d' :
  scanFloat d = Ok f d' -> 0 <= offset d /\ d' = setOffset d (offset d + 8).
Proof. apply scanFixed_inv. Qed.

Lemma scanInt64_inv d n d' :
  scanInt64 d = Ok n d' -> 0 <= offset d /\ d' = setOffset d (offset d + 8).
Proof. apply scanFixed_inv. Qed.

(** ** Documents are consumed to their declared length *)

(** The case analysis of a [switch] on the kind. *)
Ltac kind_cases H :=
  repeat match type of H with
         | (if ?k =? ?c then _ else _) _ = _ =>
             destruct (Z.eqb_spec k c) as [->|?]
         end.

(** A value that [decodeValueInterface] decodes takes exactly the bytes of
    its kind's payload layout; in particular a document or an array that it
    decodes ends where its length prefix says.  The element loops end within
    the input. *)
Lemma decodeValueInterface_advance (fuel : nat) :
  (forall kind d x d',
     len (data d) < 2^31 ->
     decodeValueInterface fuel kind d = Ok x d' ->
     payloadSize kind d = Some (offset d' - offset d)) /\
  (forall m d m' d',
     interfaceDocLoop fuel m d = Ok m' d' -> offset d' <= len (data d)) /\
  (forall a d a' d',
     interfaceArrayLoop fuel a d = Ok a' d' -> offset d' <= len (data d)).
Proof.
  induction fuel as [|fuel (IH1 & IH2 & IH3)];
    [split; [|split]; intros; discriminate|].
  assert (Hdoc : forall d o d1 d2 d',
             len (data d) < 2^31 ->
             beginDoc d = Ok o d1 ->
             data d2 = data d1 -> offset d2 <= len (data d1) ->
             endDoc o d2 = Ok tt d' ->
             lengthPrefix d = Some (offset d' - offset d)).
  { intros d o d1 d2 d' Hlen Hb Hdata Hend He.
    apply beginDoc_inv in Hb as (p & Hp & -> & H0 & ->).
    apply endDoc_inv in He as (Ho & ->). cbn [data offset setOffset] in *.
    unfold lengthPrefix. rewrite Hp. cbn [option_map].
    pose proof (Uint32_range p).
    rewrite to_int32_small by lia. f_equal. lia. }
  split; [|split].
  - intros kind d x d' Hlen H. cbn [decodeValueInterface] in H. kind_cases H.
    + apply bind_inv in H as (f & d1 & H1 & H). injection H as _ <-.
      apply scanFloat_inv in H1 as (_ & ->). cbn. f_equal. lia.
    + apply bind_inv in H as (s & d1 & H1 & H). injection H as _ <-.
      apply scanString_inv in H1 as (p & Hp & H0 & Hn & Hl & ->).
      unfold payloadSize, lengthPrefix. cbn [isKind existsb]. rewrite Hp.
      change (kindString =? kindString) with true. cbn [orb option_map offset setOffset].
      pose proof (len_nonneg (data d)).
      rewrite to_int32_small by lia. f_equal. lia.
    + apply bind_inv in H as (o & d1 & H1 & H).
      apply bind_inv in H as (m & d2 & H2 & H).
      apply bind_inv in H as (u & d3 & H3 & H). injection H as _ <-. destruct u.
      pose proof (proj1 (proj1 (proj2 (keeps_decodeValueInterface fuel)) _ _ _ _ H2)).
      pose proof (IH2 _ _ _ _ H2).
      exact (Hdoc d o d1 d2 d3 Hlen H1 ltac:(assumption) ltac:(assumption) H3).
    + apply bind_inv in H as (o & d1 & H1 & H).
      apply bind_inv in H as (m & d2 & H2 & H).
      apply bind_inv in H as (u & d3 & H3 & H). injection H as _ <-. destruct u.
      pose proof (proj1 (proj2 (proj2 (keeps_decodeValueInterface fuel)) _ _ _ _ H2)).
      pose proof (IH3 _ _ _ _ H2).
      exact (Hdoc d o d1 d2 d3 Hlen H1 ltac:(assumption) ltac:(assumption) H3).
    + apply bind_inv in H as ([q st] & d1 & H1 & H). injection H as _ <-.
      apply scanBinary_inv in H1 as (p & Hp & H0 & Hl & ->).
      unfold payloadSize, lengthPrefix. cbn [isKind existsb]. rewrite Hp.
      change (kindBinary =? kindString) with false.
      change (kindBinary =? kindSymbol) with false.
      change (kindBinary =? kindDocument) with false.
      change (kindBinary =? kindArray) with false.
      change (kindBinary =? kindBinary) with true.
      cbn [orb option_map offset setOffset].
      pose proof (Uint32_range p). pose proof (len_nonneg (data d)).
      rewrite to_int32_small by lia. f_equal. lia.
    + apply bind_inv in H as (p & d1 & H1 & H). injection H as _ <-.
      apply scanSlice_inv in H1 as (_ & _ & _ & _ & ->). cbn. f_equal. lia.
    + apply bind_inv in H as (b & d1 & H1 & H). injection H as _ <-.
      apply scanBool_inv in H1 as (_ & ->). cbn. f_equal. lia.
    + apply bind_inv in H as (b & d1 & H1 & H). injection H as _ <-.
      apply scanInt64_inv in H1 as (_ & ->). cbn. f_equal. lia.
    + injection H as _ <-. cbn. f_equal. lia.
    + apply bind_inv in H as (s & d1 & H1 & H). injection H as _ <-.
      apply scanString_inv in H1 as (p & Hp & H0 & Hn & Hl & ->).
      unfold payloadSize, lengthPrefix. cbn [isKind existsb]. rewrite Hp.
      change (kindSymbol =? kindString) with false.
      change (kindSymbol =? kindSymbol) with true.
      cbn [orb option_map offset setOffset].
      pose proof (len_nonneg (data d)).
      rewrite to_int32_small by lia. f_equal. lia.
    + apply bind_inv in H as (b & d1 & H1 & H). injection H as _ <-.
      apply scanInt32_inv in H1 as (_ & _ & _ & ->). cbn. f_equal. lia.
    + apply bind_inv in H as (b & d1 & H1 & H). injection H as _ <-.
      apply scanInt64_inv in H1 as (_ & ->). cbn. f_equal. lia.
    + apply bind_inv in H as (b & d1 & H1 & H). injection H as _ <-.
      apply scanInt64_inv in H1 as (_ & ->). cbn. f_equal. lia.
    + injection H as _ <-. cbn. f_equal. lia.
    + injection H as _ <-. cbn. f_equal. lia.
    + discriminate.
  - intros m d m' d' H. cbn [interfaceDocLoop] in H.
    apply bind_inv in H as ([kind nm] & d1 & H1 & H).
    apply scanKindName_inv in H1 as (Hd & Ho & Hl).
    destruct (kind =? 0).
    + injection H as _ <-. exact Hl.
    + apply bind_inv in H as (x & d2 & H2 & H).
      pose proof (proj1 (keeps_decodeValueInterface_1 _ _ _ _ _ H2)).
      apply IH2 in H. congruence.
  - intros a d a' d' H. cbn [interfaceArrayLoop] in H.
    apply bind_inv in H as ([kind nm] & d1 & H1 & H).
    apply scanKindName_inv in H1 as (Hd & Ho & Hl).
    destruct (kind =? 0).
    + injection H as _ <-. exact Hl.
    + apply bind_inv in H as (x & d2 & H2 & H).
      pose proof (proj1 (keeps_decodeValueInterface_1 _ _ _ _ _ H2)).
      apply IH3 in H. congruence.
Qed.

(** ** Skipping a value *)

Lemma setOffset_setOffset d a b : setOffset (setOffset d a) b = setOffset d b.
Proof. reflexivity. Qed.

(** [skipValue] moves the read offset by exactly the payload size of the
    kind. *)
Lemma skipValue_advance (kind : Z) (d : decodeState) (n : Z) :
  payloadSize kind d = Some n ->
  skipValue kind d = Ok tt (setOffset d (offset d + n)).
Proof.
  unfold payloadSize, skipValue. intros H.
  repeat match type of H with
         | (if ?b then _ else _) = _ => destruct b
         end;
    try discriminate;
    try (injection H as <-; reflexivity);
    destruct (lengthPrefix d) as [k|] eqn:E; try discriminate;
    injection H as <-;
    rewrite (bind_ok _ _ _ _ _ (scanInt32_ok _ _ E));
    unfold addOffset, setOffset; cbn; do 2 f_equal; lia.
Qed.

(** A kind outside the table of [skipValue] aborts the decoding with a
    type error. *)
Lemma skipValue_unknown (kind : Z) (d : decodeState) :
  isKind kind skipTable = false ->
  skipValue kind d = Panic (aborted (DecodeTypeError kind)).
Proof.
  unfold skipTable, skipValue. cbn [isKind existsb]. intros H.
  repeat match type of H with
         | (_ || _) = false =>
             let H1 := fresh in apply orb_false_elim in H as [H1 H]
         end.
  repeat match goal with
         | Hx : (_ =? _) = false |- _ => rewrite Hx; clear Hx
         end.
  reflexivity.
Qed.

Lemma saveErrorAndSkip_advance (kind : Z) (t : rtype) (d : decodeState) (n : Z) :
  payloadSize kind d = Some n ->
  saveErrorAndSkip kind t d =
  Ok tt (mkState (data d) (offset d + n)
           (firstError (savedError d) (DecodeConvertError kind t))).
Proof.
  intros H. unfold saveErrorAndSkip.
  rewrite (bind_ok _ _ _ _ _ (skipValue_advance _ _ _ H)).
  destruct d as [dat off [e|]]; reflexivity.
Qed.

Lemma saveErrorAndSkip_unknown (kind : Z) (t : rtype) (d : decodeState) :
  isKind kind skipTable = false ->
  saveErrorAndSkip kind t d = Panic (aborted (DecodeTypeError kind)).
Proof.
  intros H. unfold saveErrorAndSkip.
  now rewrite (bind_panic _ _ _ _ (skipValue_unknown _ _ H)).
Qed.

Lemma indirect_direct (t : rtype) (v : rvalue) (fl : flag) :
  direct v -> indirect t v fl = inr (t, v, fl, fun x => x).
Proof.
  destruct v as [| | | | |[x|]| | | | |p|]; cbn; tauto.
Qed.

Lemma typeDecoder_not_kind (t : rtype) (f : decoderFunc) :
  typeDecoder t = Some f ->
  f <> DecodeMap /\ f <> DecodeSlice /\ f <> DecodeArray /\ f <> DecodeStruct.
Proof.
  unfold typeDecoder. intros H.
  repeat match type of H with
         | match ?x with _ => _ end = _ => destruct x; try discriminate
         | (if ?b then _ else _) = _ => destruct b
         end;
    injection H as <-; repeat split; discriminate.
Qed.

Lemma decoderFor_Map (t : rtype) :
  decoderFor t = Some DecodeMap -> exists key elem, underlying t = TMap key elem.
Proof.
  unfold decoderFor. destruct (typeDecoder t) as [f|] eqn:E.
  - intros [= ->]. apply typeDecoder_not_kind in E. tauto.
  - unfold Kind. destruct (underlying t) as [|w|w| | | | |k e|e|n e|fs|e|n u|k];
      try discriminate; try (destruct w; discriminate);
      try (destruct k; discriminate).
    eauto.
Qed.

Ltac split_orb H :=
  repeat match type of H with
         | (_ || _) = false =>
             let H1 := fresh in apply orb_false_elim in H as [H1 H]
         end.

Ltac rewrite_tests :=
  repeat match goal with
         | Hx : (_ =? _) = false |- _ => rewrite Hx; clear Hx
         end.

Section Mismatch.

Variable cvtI cvtU : Z -> Z.
Variable spec : rtype -> list byte -> option (list nat).

(** On a kind that it does not convert, each of the listed decoders is
    [saveErrorAndSkip] followed by [return]: the slot keeps its value. *)
Lemma callDecoder_mismatch rec f fuel kind t v fl :
  skipsOnMismatch f = true -> accepts f kind = false ->
  decoderFor t = Some f ->
  callDecoder cvtI cvtU spec rec f fuel kind t v fl =
  (saveErrorAndSkip kind t ;; ret v).
Proof.
  intros Hs Ha Hf.
  destruct f; try discriminate Hs; cbn [accepts isKind existsb] in Ha;
    split_orb Ha; cbn [callDecoder].
  - unfold decodeBool. now rewrite_tests.
  - unfold decodeFloat. now rewrite_tests.
  - unfold decodeInt. cbn [isKind existsb]. now rewrite_tests.
  - unfold decodeUint. cbn [isKind existsb]. now rewrite_tests.
  - unfold decodeMap. destruct (decoderFor_Map _ Hf) as (key & elem & ->).
    rewrite_tests. now rewrite orb_true_r.
  - unfold decodeString. cbn [isKind existsb]. now rewrite_tests.
  - unfold decodeSlice. now rewrite_tests.
  - unfold decodeArray. now rewrite_tests.
  - unfold decodeDateTime. cbn [isKind existsb]. now rewrite_tests.
  - unfold decodeObjectId. now rewrite_tests.
  - unfold decodeTimestamp. cbn [isKind existsb]. now rewrite_tests.
  - unfold decodeByteSlice. now rewrite_tests.
Qed.

Lemma decodeValue_mismatch fuel kind t v fl d :
  direct v -> mismatch t kind ->
  decodeValue cvtI cvtU spec (S fuel) kind t v fl d =
  (saveErrorAndSkip kind t ;; ret v) d.
Proof.
  intros Hd Hm. cbn [decodeValue]. rewrite (indirect_direct _ _ _ Hd).
  destruct Hm as [Hnone | (f & Hf & Hs & Ha)].
  - rewrite Hnone. unfold bind.
    destruct (saveErrorAndSkip kind t d); reflexivity.
  - rewrite Hf. rewrite (callDecoder_mismatch _ _ _ _ _ _ _ Hs Ha Hf).
    unfold bind. destruct (saveErrorAndSkip kind t d); reflexivity.
Qed.

(** C3, amended: when the element's kind is one that [skipValue] has a case
    for and its payload size can be read, a slot whose decoder does not
    convert the kind (a bool, numeric, string, [Symbol], [ObjectId],
    [DateTime], [Timestamp], [[]byte], map, slice or array slot, or a slot of
    a type without decoder) keeps its value, the read offset advances by
    exactly the payload size, the conversion error is saved unless an error
    is saved already, and decoding goes on; a struct without a field for the
    element's name advances by the same amount and saves no error.  The
    payload size is the number of bytes that decoding a value of the kind
    takes.  For a kind outside the table of [skipValue] (as [regexp], [code]
    and [codeWithScope]) the decoding aborts with a type error instead. *)
Theorem mismatch_skips_payload :
  (forall fuel kind t v fl d n,
     direct v -> mismatch t kind -> payloadSize kind d = Some n ->
     decodeValue cvtI cvtU spec (S fuel) kind t v fl d =
     Ok v (mkState (data d) (offset d + n)
             (firstError (savedError d) (DecodeConvertError kind t)))) /\
  (forall rec fuel t v fl d kind name' d1 n,
     scanKindName d = Ok (kind, name') d1 ->
     kind <> 0 -> kind <> kindNull -> spec t name' = None ->
     payloadSize kind d1 = Some n ->
     structLoop spec rec (S fuel) t v fl d =
     structLoop spec rec fuel t v fl (setOffset d1 (offset d1 + n))) /\
  (forall fuel kind d x d',
     len (data d) < 2^31 ->
     decodeValueInterface fuel kind d = Ok x d' ->
     payloadSize kind d = Some (offset d' - offset d)) /\
  (forall fuel kind t v fl d,
     direct v -> mismatch t kind -> isKind kind skipTable = false ->
     decodeValue cvtI cvtU spec (S fuel) kind t v fl d =
     Panic (aborted (DecodeTypeError kind))).
Proof.
  split; [|split; [|split]].
  - intros fuel kind t v fl d n Hd Hm Hn.
    rewrite decodeValue_mismatch by assumption.
    now rewrite (bind_ok _ _ _ _ _ (saveErrorAndSkip_advance _ t _ _ Hn)).
  - intros rec fuel t v fl d kind nm d1 n Hscan H0 Hnull Hspec Hn.
    cbn [structLoop]. rewrite (bind_ok _ _ _ _ _ Hscan).
    apply Z.eqb_neq in H0, Hnull. rewrite H0, Hnull, Hspec.
    now rewrite (bind_ok _ _ _ _ _ (skipValue_advance _ _ _ Hn)).
  - intros fuel. apply decodeValueInterface_advance.
  - intros fuel kind t v fl d Hd Hm Hk.
    rewrite decodeValue_mismatch by assumption.
    now rewrite (bind_panic _ _ _ _ (saveErrorAndSkip_unknown _ t _ Hk)).
Qed.

End Mismatch.

(** ** Overflow *)

Lemma OverflowInt_range (t : rtype) (w : intSize) (n : Z) :
  underlying t = TInt w -> - 2^63 <= n < 2^63 ->
  OverflowInt t n = Some (negb ((- 2^(bitSize w - 1) <=? n) && (n <? 2^(bitSize w - 1)))).
Proof.
  intros Ht Hn. unfold OverflowInt. rewrite Ht. f_equal. f_equal.
  rewrite Z.shiftl_mul_pow2, Z.shiftr_div_pow2 by (destruct w; cbn; lia).
  destruct w; cbn [bitSize];
    repeat match goal with
           | |- context [2 ^ ?e] =>
               let v := eval cbv in (2 ^ e) in change (2 ^ e) with v
           end.
  all: pose proof (to_int64_range (n * 72057594037927936)) as R1;
       pose proof (to_int64_range (n * 281474976710656)) as R2;
       pose proof (to_int64_range (n * 4294967296)) as R3;
       pose proof (to_int64_range (n * 1)) as R4.
  all: repeat match goal with
           | |- context [2 ^ ?e] =>
               let v := eval cbv in (2 ^ e) in change (2 ^ e) with v
           | H : context [2 ^ ?e] |- _ =>
               let v := eval cbv in (2 ^ e) in change (2 ^ e) with v in H
           end.
  - destruct (Z_le_dec (-128) n); destruct (Z_lt_dec n 128).
    + rewrite to_int64_small by lia. rewrite Z.div_mul by lia.
      rewrite Z.eqb_refl. symmetry. apply andb_true_iff. split; lia.
    + transitivity false; [|symmetry; apply andb_false_iff; right; lia].
      apply Z.eqb_neq. intros E. rewrite E in n0 at 1.
      apply n0. apply Z.div_lt_upper_bound; lia.
    + transitivity false; [|symmetry; apply andb_false_iff; left; lia].
      apply Z.eqb_neq. intros E. rewrite E in n0 at 1.
      apply n0. apply Z.div_le_lower_bound; lia.
    + lia.
  - destruct (Z_le_dec (-32768) n); destruct (Z_lt_dec n 32768).
    + rewrite to_int64_small by lia. rewrite Z.div_mul by lia.
      rewrite Z.eqb_refl. symmetry. apply andb_true_iff. split; lia.
    + transitivity false; [|symmetry; apply andb_false_iff; right; lia].
      apply Z.eqb_neq. intros E. rewrite E in n0 at 1.
      apply n0. apply Z.div_lt_upper_bound; lia.
    + transitivity false; [|symmetry; apply andb_false_iff; left; lia].
      apply Z.eqb_neq. intros E. rewrite E in n0 at 1.
      apply n0. apply Z.div_le_lower_bound; lia.
    + lia.
  - destruct (Z_le_dec (-2147483648) n); destruct (Z_lt_dec n 2147483648).
    + rewrite to_int64_small by lia. rewrite Z.div_mul by lia.
      rewrite Z.eqb_refl. symmetry. apply andb_true_iff. split; lia.
    + transitivity false; [|symmetry; apply andb_false_iff; right; lia].
      apply Z.eqb_neq. intros E. rewrite E in n0 at 1.
      apply n0. apply Z.div_lt_upper_bound; lia.
    + transitivity false; [|symmetry; apply andb_false_iff; left; lia].
      apply Z.eqb_neq. intros E. rewrite E in n0 at 1.
      apply n0. apply Z.div_le_lower_bound; lia.
    + lia.
  - rewrite to_int64_small by lia. rewrite Z.div_mul by lia.
    rewrite Z.eqb_refl. symmetry. apply andb_true_iff. split; lia.
  - rewrite to_int64_small by lia. rewrite Z.div_mul by lia.
    rewrite Z.eqb_refl. symmetry. apply andb_true_iff. split; lia.
Qed.

Lemma uint_trunc (x b : Z) :
  0 < b <= 64 ->
  Z.shiftr (to_uint64 (Z.shiftl x (64 - b))) (64 - b) = x mod 2^b.
Proof.
  intros Hb. unfold to_uint64.
  rewrite Z.shiftl_mul_pow2, Z.shiftr_div_pow2 by lia.
  assert (Hs : 0 < 2^(64 - b)) by (apply Z.pow_pos_nonneg; lia).
  assert (Hp : 0 < 2^b) by (apply Z.pow_pos_nonneg; lia).
  replace (2^64) with (2^b * 2^(64 - b))
    by (rewrite <- Z.pow_add_r by lia; f_equal; lia).
  rewrite Z.mul_mod_distr_r by lia.
  apply Z.div_mul. lia.
Qed.

Lemma OverflowUint_range (t : rtype) (w : intSize) (x : Z) :
  underlying t = TUint w -> 0 <= x ->
  OverflowUint t x = Some (negb (x <? 2^(bitSize w))).
Proof.
  intros Ht Hx. unfold OverflowUint. rewrite Ht. f_equal. f_equal.
  rewrite uint_trunc by (destruct w; cbn; lia).
  assert (Hp : 0 < 2^(bitSize w)) by (destruct w; cbn; lia).
  destruct (x <? 2^(bitSize w)) eqn:E.
  - rewrite Z.mod_small by lia. apply Z.eqb_refl.
  - apply Z.eqb_neq. pose proof (Z.mod_pos_bound x (2^(bitSize w)) Hp). lia.
Qed.

Lemma to_uint64_negative (n : Z) : - 2^63 <= n < 0 -> 2^63 <= to_uint64 n < 2^64.
Proof.
  intros H. unfold to_uint64.
  replace (n mod 2^64) with (n + 2^64); [lia|].
  apply Z.mod_unique with (-1); lia.
Qed.

Lemma to_uint64_nonneg (n : Z) : 0 <= n < 2^64 -> to_uint64 n = n.
Proof. intros H. unfold to_uint64. apply Z.mod_small. lia. Qed.

Lemma elementInt_range (kind : Z) (p : list byte) :
  - 2^63 <= elementInt kind p < 2^63.
Proof.
  unfold elementInt. destruct (kind =? kindInt32).
  - pose proof (to_int32_range (wire.Uint32 p)). lia.
  - apply to_int64_range.
Qed.

(** For an int32 or int64 element and an integer slot of fewer than 64
    bits, the overflow test of the decoder is true exactly when the slot
    cannot hold the element's value.  The same holds for a double whose
    integral part lies in the range of int64 (for a signed slot) or of
    uint64 (for an unsigned slot), on its integral part. *)
Lemma overflows_not_representable cvtI cvtU (t : rtype) (kind : Z) (p : list byte) :
  narrowInt t ->
  (kind <> kindFloat ->
   overflows cvtI cvtU t kind p = Some true <-> ~ representable t (elementInt kind p)) /\
  (forall z,
     kind = kindFloat -> float64_trunc (wire.Uint64 p) = Some z ->
     match underlying t with
     | TInt _ => - 2^63 <= z < 2^63
     | _ => 0 <= z < 2^64
     end ->
     overflows cvtI cvtU t kind p = Some true <-> ~ representable t z).
Proof.
  unfold narrowInt, overflows, representable. intros Hn.
  destruct (underlying t) as [|w|w| | | | | | | | | | |] eqn:Ht; try tauto.
  - (* signed *)
    assert (Hgen : forall n, - 2^63 <= n < 2^63 ->
              OverflowInt t n = Some true <->
              ~ (- 2^(bitSize w - 1) <= n < 2^(bitSize w - 1))).
    { intros n Hr. rewrite (OverflowInt_range t w n Ht Hr).
      destruct (- 2^(bitSize w - 1) <=? n) eqn:E1;
        destruct (n <? 2^(bitSize w - 1)) eqn:E2; cbn [andb negb];
        split; try discriminate; try reflexivity; lia. }
    split.
    + intros Hk. apply Z.eqb_neq in Hk. rewrite Hk.
      apply Hgen, elementInt_range.
    + intros z -> Hz Hr. rewrite Z.eqb_refl. unfold int64_of_float64. rewrite Hz.
      destruct (- 2^63 <=? z) eqn:E1; destruct (z <? 2^63) eqn:E2; try lia.
      cbn [andb]. now apply Hgen.
  - (* unsigned *)
    assert (Hgen : forall x, 0 <= x ->
              OverflowUint t x = Some true <-> ~ x < 2^(bitSize w)).
    { intros x Hx. rewrite (OverflowUint_range t w x Ht Hx).
      destruct (x <? 2^(bitSize w)) eqn:E; cbn [negb];
        split; try discriminate; try reflexivity; lia. }
    assert (Hpow : 2^(bitSize w) <= 2^63) by (destruct w; cbn in *; lia).
    split.
    + intros Hk. apply Z.eqb_neq in Hk. rewrite Hk.
      pose proof (elementInt_range kind p) as Hr.
      destruct (Z_lt_le_dec (elementInt kind p) 0) as [Hneg|Hpos].
      * pose proof (to_uint64_negative (elementInt kind p) ltac:(lia)).
        rewrite Hgen by lia. split; lia.
      * rewrite to_uint64_nonneg by lia. rewrite Hgen by lia. split; lia.
    + intros z -> Hz Hr. rewrite Z.eqb_refl. unfold uint64_of_float64. rewrite Hz.
      destruct (0 <=? z) eqn:E1; destruct (z <? 2^64) eqn:E2; try lia.
      cbn [andb]. rewrite Hgen by lia. split; lia.
Qed.

Lemma scanInt64_ok d p :
  slice (data d) (offset d) (offset d + 8) = Some p ->
  scanInt64 d = Ok (to_int64 (wire.Uint64 p)) (setOffset d (offset d + 8)).
Proof.
  intros H. unfold scanInt64. now rewrite (bind_ok _ _ _ _ _ (scanSlice_ok _ _ _ H)).
Qed.

Lemma scanFloat_ok d p :
  slice (data d) (offset d) (offset d + 8) = Some p ->
  scanFloat d = Ok (wire.Uint64 p) (setOffset d (offset d + 8)).
Proof.
  intros H. unfold scanFloat. now rewrite (bind_ok _ _ _ _ _ (scanSlice_ok _ _ _ H)).
Qed.

Lemma scanInt32_ok_bytes d p :
  slice (data d) (offset d) (offset d + 4) = Some p ->
  scanInt32 d = Ok (to_int32 (wire.Uint32 p)) (setOffset d (offset d + 4)).
Proof.
  intros H. unfold scanInt32. now rewrite (bind_ok _ _ _ _ _ (scanSlice_ok _ _ _ H)).
Qed.

Lemma saveError_first (err : error) (d : decodeState) :
  saveError err d = Ok tt (setSavedError d (firstError (savedError d) err)).
Proof. destruct d as [dat off [e|]]; reflexivity. Qed.

Lemma typeDecoder_not_numeric (t : rtype) (f : decoderFunc) :
  typeDecoder t = Some f ->
  f <> DecodeInt /\ f <> DecodeUint /\ f <> DecodeFloat.
Proof.
  unfold typeDecoder. intros H.
  repeat match type of H with
         | match ?x with _ => _ end = _ => destruct x; try discriminate
         | (if ?b then _ else _) = _ => destruct b
         end;
    injection H as <-; repeat split; discriminate.
Qed.

Lemma decoderFor_numeric (t : rtype) (f : decoderFunc) :
  decoderFor t = Some f ->
  (f = DecodeInt -> exists w, underlying t = TInt w) /\
  (f = DecodeUint -> exists w, underlying t = TUint w) /\
  (f = DecodeFloat -> underlying t = TFloat32 \/ underlying t = TFloat64).
Proof.
  unfold decoderFor. destruct (typeDecoder t) as [f0|] eqn:E.
  - intros [= ->]. apply typeDecoder_not_numeric in E. tauto.
  - unfold Kind. destruct (underlying t) as [|w|w| | | | |k e|e|n e|fs|e|n u|k];
      try destruct w; try destruct k; intros [= <-];
      repeat split; try discriminate; eauto.
Qed.

Section OverflowDecoding.

Variable cvtI cvtU : Z -> Z.
Variable spec : rtype -> list byte -> option (list nat).

(** A numeric element that overflows a numeric slot: the slot keeps its
    value, the payload is consumed, the conversion error is saved unless an
    error is saved already. *)
Lemma decodeValue_overflow fuel kind t v fl d p f :
  direct v -> decoderFor t = Some f ->
  f = DecodeInt \/ f = DecodeUint \/ f = DecodeFloat ->
  isKind kind [kindInt32; kindInt64; kindFloat] = true ->
  slice (data d) (offset d) (offset d + numericSize kind) = Some p ->
  overflows cvtI cvtU t kind p = Some true ->
  decodeValue cvtI cvtU spec (S fuel) kind t v fl d =
  Ok v (mkState (data d) (offset d + numericSize kind)
          (firstError (savedError d) (DecodeConvertError kind t))).
Proof.
  intros Hd Hf Hnum Hk Hp Ho.
  cbn [decodeValue]. rewrite (indirect_direct _ _ _ Hd), Hf.
  destruct (decoderFor_numeric _ _ Hf) as (HI & HU & HF).
  assert (Hkind : kind = kindInt32 \/ kind = kindInt64 \/ kind = kindFloat).
  { cbn [isKind existsb] in Hk.
    destruct (Z.eqb_spec kind kindInt32); [tauto|].
    destruct (Z.eqb_spec kind kindInt64); [tauto|].
    destruct (Z.eqb_spec kind kindFloat); [tauto|]. discriminate. }
  unfold overflows, elementInt, numericSize in *.
  destruct Hnum as [-> | [-> | ->]]; cbn [callDecoder].
  - destruct (HI eq_refl) as [w Hw]. rewrite Hw in Ho.
    unfold decodeInt. cbn [isKind existsb].
    destruct Hkind as [-> | [-> | ->]];
      cbv [kindInt32 kindInt64 kindFloat kindTimestamp kindDateTime Z.eqb
           Pos.eqb orb] in *; cbv iota in *.
    + unfold bind. rewrite (scanInt32_ok_bytes _ _ Hp), Ho, saveError_first.
      reflexivity.
    + unfold bind. rewrite (scanInt64_ok _ _ Hp), Ho, saveError_first.
      reflexivity.
    + unfold bind. rewrite (scanFloat_ok _ _ Hp), Ho, saveError_first.
      reflexivity.
  - destruct (HU eq_refl) as [w Hw]. rewrite Hw in Ho.
    unfold decodeUint. cbn [isKind existsb].
    destruct Hkind as [-> | [-> | ->]];
      cbv [kindInt32 kindInt64 kindFloat kindTimestamp kindDateTime Z.eqb
           Pos.eqb orb] in *; cbv iota in *.
    + unfold bind. rewrite (scanInt32_ok_bytes _ _ Hp), Ho, saveError_first.
      reflexivity.
    + unfold bind. rewrite (scanInt64_ok _ _ Hp), Ho, saveError_first.
      reflexivity.
    + unfold bind. rewrite (scanFloat_ok _ _ Hp), Ho, saveError_first.
      reflexivity.
  - assert (Ho' : OverflowFloat t
                    (if kind =? kindFloat then wire.Uint64 p
                     else float64_of_int
                            (if kind =? kindInt32 then to_int32 (wire.Uint32 p)
                             else to_int64 (wire.Uint64 p))) = Some true)
      by (destruct (HF eq_refl) as [Hw|Hw]; rewrite Hw in Ho; exact Ho).
    clear Ho. unfold decodeFloat.
    destruct Hkind as [-> | [-> | ->]];
      cbv [kindInt32 kindInt64 kindFloat kindTimestamp kindDateTime Z.eqb
           Pos.eqb orb] in *; cbv iota in *.
    + unfold bind. rewrite (scanInt32_ok_bytes _ _ Hp), Ho', saveError_first.
      reflexivity.
    + unfold bind. rewrite (scanInt64_ok _ _ Hp), Ho', saveError_first.
      reflexivity.
    + unfold bind. rewrite (scanFloat_ok _ _ Hp), Ho', saveError_first.
      reflexivity.
Qed.

End OverflowDecoding.

Section FirstError.

Variable cvtI cvtU : Z -> Z.
Variable spec : rtype -> list byte -> option (list nat).

(** What [decodeInternal] returns after a complete pass is the saved error
    of the final state. *)
Lemma decodeInternal_returns_saved fuel kind data v err v' :
  decodeInternal cvtI cvtU spec fuel kind data v = Returned err (Some v') ->
  exists t value fl v'' d',
    decodeValue cvtI cvtU spec fuel kind t value fl (mkState data 0 None)
    = Ok v'' d' /\
    err = savedError d'.
Proof.
  unfold decodeInternal.
  assert (Hrun : forall t value fl rebuild,
             handleAbort
               match decodeValue cvtI cvtU spec fuel kind t value fl
                       (mkState data 0 None) with
               | Ok v0 d' => Returned (savedError d') (Some (rebuild v0))
               | Panic p => Panicked p
               | OutOfFuel => Unfinished
               end = Returned err (Some v') ->
             exists t value fl v'' d',
               decodeValue cvtI cvtU spec fuel kind t value fl
                 (mkState data 0 None) = Ok v'' d' /\
               err = savedError d').
  { intros t value fl rebuild H.
    destruct (decodeValue cvtI cvtU spec fuel kind t value fl
                (mkState data 0 None)) as [v0 d'|[e|msg]|] eqn:E;
      cbn [handleAbort] in H; try discriminate.
    injection H as <- _. eauto 10. }
  destruct v as [t value fl | [[t x]|]]; cbn [handleAbort]; [apply Hrun| |discriminate].
  destruct (Kind t); try discriminate;
    destruct x as [| | | | | |[m0|]| | | |[x|]|]; try discriminate; try apply Hrun.
  destruct (underlying t); try discriminate; apply Hrun.
Qed.

(** A narrow integer type without a decoder of its own is decoded by
    [decodeInt] or [decodeUint]. *)
Lemma decoderFor_narrowInt (t : rtype) :
  typeDecoder t = None -> narrowInt t ->
  decoderFor t = Some DecodeInt \/ decoderFor t = Some DecodeUint.
Proof.
  unfold narrowInt, decoderFor, Kind. intros -> Hn.
  destruct (underlying t) as [|w|w| | | | | | | | | | |]; try contradiction;
    destruct w; cbn [kindDecoder]; tauto.
Qed.

(** C2, amended: an int32 or int64 element, or a double whose integral part
    lies in the range of the conversion (int64 for a signed slot, uint64 for
    an unsigned one), that an integer slot of fewer than 64 bits cannot hold,
    and a finite double above [MaxFloat32] in magnitude offered to a float32
    slot, leave the slot as it is, take their payload from the input and
    save the conversion error unless an error is saved already, so that
    decoding goes on behind them (the slot is of a type that the type table
    of the decoder has no entry for, so that [decodeInt], [decodeUint] or
    [decodeFloat] decodes it); a saved error is never replaced, it is what
    [decodeInternal] returns when the pass completes, and when the decoding
    aborts, the error of the abort is returned instead. *)
Theorem overflow_saves_first_error :
  (forall fuel kind t v fl d p,
     direct v -> typeDecoder t = None -> narrowInt t ->
     isKind kind [kindInt32; kindInt64] = true ->
     slice (data d) (offset d) (offset d + numericSize kind) = Some p ->
     ~ representable t (elementInt kind p) ->
     decodeValue cvtI cvtU spec (S fuel) kind t v fl d =
     Ok v (mkState (data d) (offset d + numericSize kind)
             (firstError (savedError d) (DecodeConvertError kind t)))) /\
  (forall fuel t v fl d p z,
     direct v -> typeDecoder t = None -> narrowInt t ->
     slice (data d) (offset d) (offset d + 8) = Some p ->
     float64_trunc (wire.Uint64 p) = Some z ->
     match underlying t with
     | TInt _ => - 2^63 <= z < 2^63
     | _ => 0 <= z < 2^64
     end ->
     ~ representable t z ->
     decodeValue cvtI cvtU spec (S fuel) kindFloat t v fl d =
     Ok v (mkState (data d) (offset d + 8)
             (firstError (savedError d) (DecodeConvertError kindFloat t)))) /\
  (forall fuel t v fl d p,
     direct v -> typeDecoder t = None -> underlying t = TFloat32 ->
     slice (data d) (offset d) (offset d + 8) = Some p ->
     MaxFloat32_bits < Z.land (wire.Uint64 p) (2^63 - 1) <= MaxFloat64_bits ->
     decodeValue cvtI cvtU spec (S fuel) kindFloat t v fl d =
     Ok v (mkState (data d) (offset d + 8)
             (firstError (savedError d) (DecodeConvertError kindFloat t)))) /\
  (forall fuel kind t v fl d v' d' e,
     savedError d = Some e ->
     decodeValue cvtI cvtU spec fuel kind t v fl d = Ok v' d' ->
     savedError d' = Some e) /\
  (forall fuel kind data v err v',
     decodeInternal cvtI cvtU spec fuel kind data v = Returned err (Some v') ->
     exists t value fl v'' d',
       decodeValue cvtI cvtU spec fuel kind t value fl (mkState data 0 None)
       = Ok v'' d' /\
       err = savedError d') /\
  (forall fuel kind data t e x err,
     underlying t = TPtr e ->
     decodeValue cvtI cvtU spec fuel kind e x settable (mkState data 0 None)
     = Panic (aborted err) ->
     decodeInternal cvtI cvtU spec fuel kind data
       (Interface_ (Some (t, VPtr (Some x))))
     = Returned (Some err) None).
Proof.
  split; [|split; [|split; [|split; [|split]]]].
  - intros fuel kind t v fl d p Hd Ht Hn Hk Hp Hr.
    assert (Hkf : kind <> kindFloat).
    { intros ->. cbn in Hk. discriminate. }
    assert (Hk' : isKind kind [kindInt32; kindInt64; kindFloat] = true).
    { cbn [isKind existsb] in *. destruct (kind =? kindInt32); [reflexivity|].
      destruct (kind =? kindInt64); [reflexivity|discriminate]. }
    destruct (decoderFor_narrowInt t Ht Hn) as [Hf|Hf];
      apply (decodeValue_overflow cvtI cvtU spec fuel kind t v fl d p _ Hd Hf);
      auto;
      apply (proj1 (overflows_not_representable cvtI cvtU t kind p Hn)); assumption.
  - intros fuel t v fl d p z Hd Ht Hn Hp Hz Hrange Hr.
    destruct (decoderFor_narrowInt t Ht Hn) as [Hf|Hf];
      apply (decodeValue_overflow cvtI cvtU spec fuel kindFloat t v fl d p _ Hd Hf);
      auto;
      apply (proj2 (overflows_not_representable cvtI cvtU t kindFloat p Hn) z
               eq_refl Hz Hrange); assumption.
  - intros fuel t v fl d p Hd Ht Hu Hp Hmag.
    assert (Hf : decoderFor t = Some DecodeFloat)
      by (unfold decoderFor, Kind; now rewrite Ht, Hu).
    apply (decodeValue_overflow cvtI cvtU spec fuel kindFloat t v fl d p _ Hd Hf);
      auto.
    unfold overflows, OverflowFloat. rewrite Hu. cbn [Z.eqb kindFloat Pos.eqb].
    unfold overflowFloat32. f_equal. apply andb_true_iff. split; lia.
  - intros fuel kind t v fl d v' d' e He H.
    exact (proj2 (keeps_decodeValue cvtI cvtU spec fuel kind t v fl d v' d' H) e He).
  - apply decodeInternal_returns_saved.
  - intros fuel kind data t e x err Ht H.
    apply (decodeInternal_abort cvtI cvtU spec fuel kind data
             (Interface_ (Some (t, VPtr (Some x)))) err).
    exists e. now split.
Qed.

End FirstError.

(** The int32 [300] read into an int8 slot that holds [5]. *)
Lemma overflow_saves_first_error_witness :
  decodeValue' 1 kindInt32 (TInt W8) (VInt 5) settable
    (mkState [x2c; x01; x00; x00] 0 None)
  = Ok (VInt 5)
      (mkState [x2c; x01; x00; x00] 4
         (Some (DecodeConvertError kindInt32 (TInt W8)))).
Proof.
  apply (proj1 (overflow_saves_first_error unrepresentable_int64
                  unrepresentable_uint64 structSpecOfInfo)
           0%nat kindInt32 (TInt W8) (VInt 5) settable
           (mkState [x2c; x01; x00; x00] 0 None) [x2c; x01; x00; x00]).
  - exact I.
  - reflexivity.
  - cbn. lia.
  - reflexivity.
  - reflexivity.
  - vm_compute. intros [_ H]. discriminate H.
Defined.

(** C2 as stated fails in two ways.  A slot of 64 bits has no overflow test
    that could fail: the double [1e300] read into an int64 slot that holds
    [5] puts what the conversion of the platform gives in its place and saves
    no error.  And the error that is returned need not be the first one
    recorded: behind the int32 [300] that overflows the int8 field [a], the
    regexp element [z] makes [skipValue] abort, and the type error of the
    abort is returned, not the conversion error. *)
Lemma overflow_counterexample :
  decodeValue' 1 kindFloat (TInt W64) (VInt 5) settable
    (mkState [x9c; x75; x00; x88; x3c; xe4; x37; x7e] 0 None)
  = Ok (VInt (- 2^63))
      (mkState [x9c; x75; x00; x88; x3c; xe4; x37; x7e] 8 None) /\
  Decode' 10 docOverflowRegexp
    (Interface_ (Some (TPtr tTwoBytes, VPtr (Some (VStruct [VInt 5; VInt 6])))))
  = Returned (Some (DecodeTypeError kindRegexp)) None.
Proof. split; reflexivity. Qed.

(** The document [{"a": 300, "b": 7}] read into a struct of two int8
    fields holding [5] and [6]: [a] overflows and its field keeps [5], [b] is
    decoded behind it, and the conversion error of [a] is returned. *)
Example Decode_overflow_continues :
  Decode' 10 docOverflow
    (Interface_ (Some (TPtr tTwoBytes, VPtr (Some (VStruct [VInt 5; VInt 6])))))
  = Returned (Some (DecodeConvertError kindInt32 (TInt W8)))
      (Some (VPtr (Some (VStruct [VInt 5; VInt 7])))).
Proof. reflexivity. Qed.

(** ** Examples of skipping *)

(** The string ["hi"] offered to an int32 slot that holds [7]. *)
Lemma mismatch_skips_payload_witness :
  decodeValue' 1 kindString (TInt W32) (VInt 7) settable (mkState payloadString 0 None)
  = Ok (VInt 7)
      (mkState payloadString 7 (Some (DecodeConvertError kindString (TInt W32)))).
Proof.
  apply (proj1 (mismatch_skips_payload unrepresentable_int64
                  unrepresentable_uint64 structSpecOfInfo)
           0%nat kindString (TInt W32) (VInt 7) settable
           (mkState payloadString 0 None) 7).
  - exact I.
  - right. exists DecodeInt. repeat split; reflexivity.
  - reflexivity.
Defined.

(** C3 as stated fails on a kind of the kind table that [skipValue] has no
    case for: a [regexp] element offered to an int32 slot aborts the
    decoding with a type error; no conversion error is saved and nothing
    behind the element is decoded.  The same happens for [code] and
    [codeWithScope]. *)
Lemma mismatch_counterexample :
  In kindRegexp (map fst kindNames) /\
  decoderFor (TInt W32) = Some DecodeInt /\
  accepts DecodeInt kindRegexp = false /\
  decodeValue' 1 kindRegexp (TInt W32) (VInt 7) settable
    (mkState [x61; x00; x69; x00; x00] 0 None)
  = Panic (aborted (DecodeTypeError kindRegexp)) /\
  decodeValue' 1 kindCode (TInt W32) (VInt 7) settable (mkState payloadString 0 None)
  = Panic (aborted (DecodeTypeError kindCode)).
Proof.
  repeat split; try reflexivity. cbn. tauto.
Qed.

(** Three decoders do not skip on a mismatch.  [decodeMinMax] saves the
    error without moving the read offset, so the payload of the int32 is
    taken for the next element; [decodeMapStringInterface] skips and then
    goes on to read a document behind the value; [decodeStruct] has no kind
    check and reads the payload as a document. *)
Example decodeMinMax_does_not_skip :
  decodeValue' 1 kindInt32 tMinMax (VInt 0) settable (mkState [x01; x00; x00; x00] 0 None)
  = Ok (VInt 0)
      (mkState [x01; x00; x00; x00] 0 (Some (DecodeConvertError kindInt32 tMinMax))) /\
  Decode' 10 docTwoInts (pointerTo tMinMaxThenInt)
  = Returned (Some errDocLength) None.
Proof. split; reflexivity. Qed.

Example decodeMapStringInterface_goes_on :
  decodeValue' 3 kindInt32 tM (VMap (Some ∅)) settable
    (mkState [x01; x00; x00; x00; x05; x00; x00; x00; x00] 0 None)
  = Ok (VMap (Some ∅))
      (mkState [x01; x00; x00; x00; x05; x00; x00; x00; x00] 9
         (Some (DecodeConvertError kindInt32 tM))).
Proof. reflexivity. Qed.

Example decodeStruct_no_kind_check :
  decodeValue' 3 kindInt32 tNoId (zero tNoId) settable
    (mkState [x05; x00; x00; x00; x00] 0 None)
  = Ok (zero tNoId) (mkState [x05; x00; x00; x00; x00] 5 None).
Proof. reflexivity. Qed.

(** ** Structural errors *)

(** Every decoder of a document or an array is this frame around its
    element loop: when the frame completes, the read offset is the start
    plus the declared length; when the loop ends anywhere else, the frame
    aborts with the length error. *)
Lemma document_frame_ok {A B} (body : M A) (k : A -> B) d b d' :
  (let* o := beginDoc in let* a := body in endDoc o ;; ret (k a)) d = Ok b d' ->
  exists p, slice (data d) (offset d) (offset d + 4) = Some p /\
            offset d' = offset d + wire.Uint32 p.
Proof.
  intros H. apply bind_inv in H as (o & d1 & H1 & H).
  apply bind_inv in H as (a & d2 & H2 & H).
  apply bind_inv in H as (u & d3 & H3 & H). injection H as _ <-.
  apply beginDoc_inv in H1 as (p & Hp & -> & _ & ->).
  apply endDoc_inv in H3 as (Ho & ->). eauto.
Qed.

Lemma document_frame_mismatch {A B} (body : M A) (k : A -> B) d o d1 a d2 :
  beginDoc d = Ok o d1 -> body d1 = Ok a d2 -> offset d2 <> o ->
  (let* o := beginDoc in let* a := body in endDoc o ;; ret (k a)) d
  = Panic (aborted errDocLength).
Proof.
  intros H1 H2 H3. unfold bind. rewrite H1, H2.
  now rewrite (endDoc_mismatch _ _ H3).
Qed.

(** The frames of the decoders. *)
Example frames cvtI cvtU spec rec fuel kind t v fl :
  decodeStruct spec rec fuel kind t v fl =
  (let* o := beginDoc in
   let* v' := structLoop spec rec fuel t v fl in endDoc o ;; ret v') /\
  decodeValueInterface (S fuel) kindDocument =
  (let* o := beginDoc in
   let* m := interfaceDocLoop fuel ∅ in
   endDoc o ;; ret (Some (tMapStringInterface, VMap (Some m)))) /\
  decodeValueInterface (S fuel) kindArray =
  (let* o := beginDoc in
   let* a := interfaceArrayLoop fuel None in
   endDoc o ;; ret (Some (TSlice TInterface, VSlice a))) /\
  callDecoder cvtI cvtU spec rec DecodeStruct fuel kind t v fl
  = decodeStruct spec rec fuel kind t v fl.
Proof. repeat split; reflexivity. Qed.

(** A nested document that declares one byte too many: the length error is
    returned. *)
Example Decode_wrong_length :
  Decode' 10
    [ x10; x00; x00; x00; x03; x61; x00;
      x09; x00; x00; x00; x0a; x62; x00; x00; x00 ]
    (Interface_ (Some (tM, VMap (Some ∅))))
  = Returned (Some errDocLength) None.
Proof. reflexivity. Qed.

(** C1 fails for a [BSONData] slot: [decodeBSONData] skips the value by its
    declared size without a bounds check and then slices the input up to
    the new offset.  On an input that ends inside the value the slice
    expression reaches past the end of the input: the runtime panics, and
    [handleAbort] passes the panic on instead of returning [ErrEOD]. *)
Lemma Decode_truncated_BSONData :
  Decode' 10 [x10; x00; x00; x00] (pointerTo tBSONData)
  = Panicked (runtimeError "slice bounds out of range") /\
  Decode' 10 docTruncatedValue (pointerTo tValueReply)
  = Panicked (runtimeError "slice bounds out of range").
Proof. split; reflexivity. Qed.

(** ** Decoding into an interface *)

(** The type of a value that the generic decoding returns is the canonical
    type of its kind; [null] gives the nil interface, the minimum and the
    maximum kind give [MinValue] and [MaxValue]. *)
Lemma decodeValueInterface_canonical fuel kind d x d' :
  decodeValueInterface fuel kind d = Ok x d' ->
  option_map fst x = canonicalType kind /\
  (kind = kindMinValue -> x = Some (tMinMax, VInt (-1))) /\
  (kind = kindMaxValue -> x = Some (tMinMax, VInt 1)).
Proof.
  destruct fuel as [|fuel]; [discriminate|].
  intros H. cbn [decodeValueInterface] in H. unfold canonicalType.
  kind_cases H;
    try (apply bind_inv in H as (a & d1 & _ & H));
    try (apply bind_inv in H as (a2 & d2 & _ & H));
    try (apply bind_inv in H as (a3 & d3 & _ & H));
    try destruct a as [? ?];
    try discriminate;
    injection H as <- _;
    (split; [reflexivity|split; intros E; try discriminate E; reflexivity]).
Qed.

(** C4 fails on [null] in a nested document: [decodeValueInterface] stores
    the nil interface under the element's name, so the nested map has an
    entry for it; only the loop of [decodeMapStringInterface], which decodes
    the outermost document, leaves a [null] element out. *)
Lemma Decode_nested_null_entry :
  Decode' 10 docNestedNull (Interface_ (Some (tM, VMap (Some ∅))))
  = Returned None
      (Some (VMap (Some {[ "a" :=
               VInterface
                 (Some (tMapStringInterface,
                        VMap (Some {[ "b" := VInterface None ]}))) ]}))) /\
  Decode' 10 docNull (Interface_ (Some (tM, VMap (Some ∅))))
  = Returned None (Some (VMap (Some ∅))).
Proof. split; reflexivity. Qed.

(** * Further properties *)

(** ** Object ids: the hexadecimal form *)

Lemma hex_byte (v : byte) :
  match hex.fromHexChar (default x00 (index hex.hextable (Z.shiftr (byte_to_Z v) 4))),
        hex.fromHexChar (default x00 (index hex.hextable (Z.land (byte_to_Z v) 0x0f))) with
  | Some x, Some y => byte_of_Z (Z.lor (Z.shiftl x 4) y) = v
  | _, _ => False
  end.
Proof. destruct v; vm_compute; reflexivity. Qed.

Lemma decodePairs_Encode (p : list byte) : hex.decodePairs (hex.Encode p) = inr p.
Proof.
  induction p as [|v p IH]; [reflexivity|].
  cbn [hex.Encode hex.decodePairs].
  pose proof (hex_byte v) as H.
  destruct (hex.fromHexChar _) as [x|]; [|contradiction].
  destruct (hex.fromHexChar _) as [y|]; [|contradiction].
  now rewrite IH, H.
Qed.

Lemma length_Encode (p : list byte) : length (hex.Encode p) = (2 * length p)%nat.
Proof. induction p; cbn [hex.Encode length]; lia. Qed.

Lemma Decode_Encode (p : list byte) : hex.Decode (hex.Encode p) = inr p.
Proof.
  unfold hex.Decode, len. rewrite length_Encode.
  replace (Z.of_nat (2 * length p) mod 2) with 0.
  - apply decodePairs_Encode.
  - rewrite Nat2Z.inj_mul. symmetry. rewrite Z.mul_comm. apply Z.mod_mul. lia.
Qed.

Lemma length_list_byte_of_string (s : string) :
  length (list_byte_of_string s) = String.length s.
Proof.
  unfold list_byte_of_string. rewrite length_map.
  induction s as [|c s IH]; [reflexivity|].
  cbn [list_ascii_of_string length String.length]. now rewrite IH.
Qed.

(** X1: the hexadecimal form of an object id of twelve bytes reads back as
    the same id: [NewObjectIdHex(id.String())] is [id] with no error. *)
Theorem NewObjectIdHex_String (id : string) :
  String.length id = 12%nat ->
  NewObjectIdHex (ObjectId_String id) = (id, None).
Proof.
  intros Hlen.
  unfold NewObjectIdHex, ObjectId_String, hex.DecodeString, hex.EncodeToString.
  rewrite list_byte_of_string_of_list_byte, Decode_Encode.
  unfold len. rewrite length_list_byte_of_string, Hlen. cbn.
  now rewrite string_of_list_byte_of_string.
Qed.

Lemma NewObjectIdHex_String_witness :
  ObjectId_String (newObjectId 0x4f1a2b3c 0x0102030405060708)
  = "4f1a2b3c0102030405060708" /\
  NewObjectIdHex (ObjectId_String (newObjectId 0x4f1a2b3c 0x0102030405060708))
  = (newObjectId 0x4f1a2b3c 0x0102030405060708, None).
Proof.
  split; [reflexivity|].
  apply (NewObjectIdHex_String (newObjectId 0x4f1a2b3c 0x0102030405060708)).
  reflexivity.
Defined.

Lemma decodePairs_length (n : nat) :
  forall src p,
    length src = (2 * n)%nat -> hex.decodePairs src = inr p -> length p = n.
Proof.
  induction n as [|n IH]; intros src p Hlen H.
  - destruct src; [|discriminate]. now injection H as <-.
  - destruct src as [|a [|b rest]]; try (cbn in Hlen; lia).
    cbn [hex.decodePairs] in H.
    destruct (hex.fromHexChar a); [|discriminate].
    destruct (hex.fromHexChar b); [|discriminate].
    destruct (hex.decodePairs rest) as [|q] eqn:E; [discriminate|].
    injection H as <-. cbn [length] in *. f_equal. apply (IH rest); [lia|exact E].
Qed.

(** X2: [NewObjectIdHex] returns either an id of exactly twelve bytes
    without an error, and then the input has 24 characters, or the empty id
    together with an error. *)
Theorem NewObjectIdHex_valid (s id : string) (err : option (hex.error + string)) :
  NewObjectIdHex s = (id, err) ->
  match err with
  | None => String.length id = 12%nat /\ String.length s = 24%nat
  | Some _ => id = ""
  end.
Proof.
  unfold NewObjectIdHex, hex.DecodeString, hex.Decode.
  destruct (len (list_byte_of_string s) mod 2 =? 1) eqn:Eodd.
  { now intros [= <- <-]. }
  destruct (hex.decodePairs (list_byte_of_string s)) as [e|p] eqn:E.
  { now intros [= <- <-]. }
  destruct (len p =? 12) eqn:E12; cbn [negb]; [|now intros [= <- <-]].
  intros [= <- <-].
  apply Z.eqb_eq in E12. apply Z.eqb_neq in Eodd. unfold len in *.
  assert (Hs : exists n, length (list_byte_of_string s) = (2 * n)%nat).
  { exists (length (list_byte_of_string s) / 2)%nat.
    pose proof (Nat.div_mod_eq (length (list_byte_of_string s)) 2).
    assert (length (list_byte_of_string s) mod 2 = 0)%nat; [|lia].
    pose proof (Nat.mod_upper_bound (length (list_byte_of_string s)) 2).
    rewrite <- (Nat2Z.id (_ mod 2)%nat), Nat2Z.inj_mod.
    change (Z.of_nat 2) with 2.
    pose proof (Z.mod_pos_bound (Z.of_nat (length (list_byte_of_string s))) 2). lia. }
  destruct Hs as [n Hn].
  pose proof (decodePairs_length n _ _ Hn E) as Hp.
  rewrite <- length_list_byte_of_string, list_byte_of_string_of_list_byte.
  rewrite <- length_list_byte_of_string. lia.
Qed.

(** Digits of either case are taken; an input of another length than 24 or
    with another character is refused. *)
Lemma NewObjectIdHex_valid_witness :
  String.length (NewObjectIdHex "4F1A2b3c0102030405060708").1 = 12%nat /\
  NewObjectIdHex "4F1A2b3c0102030405060708"
  = (newObjectId 0x4f1a2b3c 0x0102030405060708, None) /\
  NewObjectIdHex "4f1a" = ("", Some (inr "mongo: bad object id string len")) /\
  NewObjectIdHex "4f1" = ("", Some (inl hex.OddLengthInputError)) /\
  NewObjectIdHex "4g" = ("", Some (inl (hex.InvalidHexCharError "g"%byte))).
Proof.
  pose proof (NewObjectIdHex_valid "4F1A2b3c0102030405060708"
                (NewObjectIdHex "4F1A2b3c0102030405060708").1 None eq_refl)
    as [H1 H2].
  split; [exact H1|]. repeat split.
Defined.

(** ** Object ids: order and uniqueness *)

Lemma bigEndian_app (p q : list byte) :
  bigEndian (p ++ q) = bigEndian p * 256 ^ len q + bigEndian q.
Proof.
  unfold bigEndian. rewrite fold_left_app.
  generalize (fold_left (fun acc b => acc * 256 + byte_to_Z b) p 0) as x.
  induction q as [|b q IH]; intros x.
  - unfold len. cbn [fold_left length]. change (Z.of_nat 0) with 0.
    rewrite Z.pow_0_r. lia.
  - cbn [fold_left]. rewrite IH, (IH (0 * 256 + byte_to_Z b)).
    unfold len. cbn [length]. rewrite Nat2Z.inj_succ, Z.pow_succ_r by lia. ring.
Qed.

Lemma bigEndian_cons (b : byte) (q : list byte) :
  bigEndian (b :: q) = byte_to_Z b * 256 ^ len q + bigEndian q.
Proof.
  change (b :: q) with ([b] ++ q). rewrite bigEndian_app.
  unfold bigEndian at 1. cbn. lia.
Qed.

Lemma bigEndian_range (p : list byte) : 0 <= bigEndian p < 256 ^ len p.
Proof.
  induction p as [|b p IH].
  - unfold len, bigEndian. cbn [fold_left length]. change (Z.of_nat 0) with 0.
    rewrite Z.pow_0_r. lia.
  - rewrite bigEndian_cons. pose proof (byte_to_Z_range b).
    unfold len in *. cbn [length]. rewrite Nat2Z.inj_succ, Z.pow_succ_r by lia. nia.
Qed.

(** On byte sequences of one length the order of strings is the order of
    the numbers they denote in big-endian order. *)
Lemma bytes_lt_bigEndian (a : list byte) :
  forall b, length a = length b -> bytes_lt a b = (bigEndian a <? bigEndian b).
Proof.
  induction a as [|x a IH]; intros [|y b] Hlen; try discriminate.
  - reflexivity.
  - cbn [bytes_lt]. injection Hlen as Hlen. rewrite (IH b Hlen), !bigEndian_cons.
    pose proof (bigEndian_range a). pose proof (bigEndian_range b).
    unfold len in *. rewrite Hlen in *.
    pose proof (byte_to_Z_range x). pose proof (byte_to_Z_range y).
    set (P := 256 ^ Z.of_nat (length b)) in *.
    assert (0 < P) by (apply Z.pow_pos_nonneg; lia).
    destruct (Z.ltb_spec (byte_to_Z x) (byte_to_Z y)); cbn [orb].
    + symmetry. apply Z.ltb_lt. nia.
    + destruct (Z.eqb_spec (byte_to_Z x) (byte_to_Z y)) as [->|Hne]; cbn [andb].
      * destruct (Z.ltb_spec (bigEndian a) (bigEndian b)); symmetry;
          [apply Z.ltb_lt | apply Z.ltb_ge]; lia.
      * symmetry. apply Z.ltb_ge. nia.
Qed.

Lemma bigEndian_newObjectId (t c : Z) :
  0 <= t < 2^32 -> 0 <= c < 2^64 ->
  bigEndian (list_byte_of_string (newObjectId t c)) = t * 2^64 + c.
Proof.
  intros Ht Hc. rewrite newObjectId_bytes.
  change [byte_of_Z (t ≫ 24); byte_of_Z (t ≫ 16); byte_of_Z (t ≫ 8); byte_of_Z t;
          byte_of_Z (c ≫ 56); byte_of_Z (c ≫ 48); byte_of_Z (c ≫ 40);
          byte_of_Z (c ≫ 32); byte_of_Z (c ≫ 24); byte_of_Z (c ≫ 16);
          byte_of_Z (c ≫ 8); byte_of_Z c]
    with ([byte_of_Z (t ≫ 24); byte_of_Z (t ≫ 16); byte_of_Z (t ≫ 8); byte_of_Z t]
          ++ [byte_of_Z (c ≫ 56); byte_of_Z (c ≫ 48); byte_of_Z (c ≫ 40);
              byte_of_Z (c ≫ 32); byte_of_Z (c ≫ 24); byte_of_Z (c ≫ 16);
              byte_of_Z (c ≫ 8); byte_of_Z c]).
  rewrite bigEndian_app. unfold bigEndian, len. cbn [fold_left length].
  rewrite !byte_to_Z_of_Z, !Z.shiftr_div_pow2 by lia.
  change (0 * 256) with 0. rewrite !Z.add_0_l.
  rewrite (bigEndian_time t Ht), (bigEndian_counter c Hc). reflexivity.
Qed.

Lemma length_newObjectId (t c : Z) :
  length (list_byte_of_string (newObjectId t c)) = 12%nat.
Proof. now rewrite newObjectId_bytes. Qed.

(** X3: object ids sort by their time: for a time [t] every id made by
    [newObjectId] lies between [MinObjectIdForTime t] and
    [MaxObjectIdForTime t], and an id of an earlier time is below every id
    of a later time, in the order of strings. *)
Theorem ObjectId_sorted_by_time :
  (forall t c, 0 <= t < 2^32 -> 0 <= c < 2^64 ->
     string_le (MinObjectIdForTime t) (newObjectId t c) = true /\
     string_le (newObjectId t c) (MaxObjectIdForTime t) = true) /\
  (forall t1 c1 t2 c2,
     0 <= t1 < 2^32 -> 0 <= t2 < 2^32 -> 0 <= c1 < 2^64 -> 0 <= c2 < 2^64 ->
     t1 < t2 ->
     string_lt (newObjectId t1 c1) (newObjectId t2 c2) = true).
Proof.
  split.
  - intros t c Ht Hc.
    unfold string_le, string_lt, MinObjectIdForTime, MaxObjectIdForTime.
    rewrite !bytes_lt_bigEndian by now rewrite !length_newObjectId.
    rewrite !bigEndian_newObjectId by lia.
    split; apply negb_true_iff, Z.ltb_ge; lia.
  - intros t1 c1 t2 c2 Ht1 Ht2 Hc1 Hc2 Hlt. unfold string_lt.
    rewrite bytes_lt_bigEndian by now rewrite !length_newObjectId.
    rewrite !bigEndian_newObjectId by lia. apply Z.ltb_lt. lia.
Qed.

Lemma ObjectId_sorted_by_time_witness :
  string_le (MinObjectIdForTime 5) (newObjectId 5 77) = true /\
  string_le (newObjectId 5 77) (MaxObjectIdForTime 5) = true /\
  string_lt (newObjectId 5 (2^64 - 1)) (newObjectId 6 0) = true.
Proof.
  destruct ObjectId_sorted_by_time as [H1 H2].
  destruct (H1 5 77 ltac:(lia) ltac:(lia)) as [Hmin Hmax].
  split; [exact Hmin|]. split; [exact Hmax|].
  apply (H2 5 (2^64 - 1) 6 0); lia.
Defined.

Lemma counter_of_newObjectId (t c : Z) :
  0 <= c < 2^64 ->
  bigEndian (drop 4 (list_byte_of_string (newObjectId t c))) = c.
Proof.
  intros Hc. rewrite newObjectId_bytes. cbn [drop bigEndian fold_left].
  rewrite !byte_to_Z_of_Z, !Z.shiftr_div_pow2 by lia.
  apply (bigEndian_counter c Hc).
Qed.

Lemma nextOidCounter_range (rand c : Z) : 0 <= nextOidCounter rand c < 2^64.
Proof. unfold nextOidCounter, to_uint64. apply Z.mod_pos_bound. lia. Qed.

(** X4: two object ids that [NewObjectId] makes one after the other differ,
    whatever the clock shows, unless the counter has wrapped around to zero
    in between (it is then drawn afresh from the random source). *)
Theorem NewObjectId_consecutive_distinct (now rand c0 now' rand' : Z) :
  (NewObjectId now rand c0).2 <> 0 ->
  (NewObjectId now rand c0).1
  <> (NewObjectId now' rand' (NewObjectId now rand c0).2).1.
Proof.
  unfold NewObjectId. cbn [fst snd].
  pose proof (nextOidCounter_range rand c0) as Hc1.
  generalize dependent (nextOidCounter rand c0). intros c1 Hc1 Hnz Heq.
  pose proof (nextOidCounter_range rand' c1) as Hc2.
  pose proof (counter_of_newObjectId now c1 Hc1) as H1.
  rewrite Heq, (counter_of_newObjectId now' _ Hc2) in H1.
  unfold nextOidCounter in H1.
  destruct (Z.eqb_spec c1 0); [contradiction|].
  unfold to_uint64 in H1.
  destruct (Z.eq_dec c1 (2^64 - 1)) as [->|].
  - rewrite <- H1 in Hnz. now apply Hnz.
  - rewrite Z.mod_small in H1 by lia. lia.
Qed.

Lemma NewObjectId_consecutive_distinct_witness :
  (NewObjectId 5 41 0).2 = 42 /\
  (NewObjectId 5 41 0).1 <> (NewObjectId 5 41 42).1.
Proof.
  split; [reflexivity|].
  apply (NewObjectId_consecutive_distinct 5 41 0 5 41). discriminate.
Defined.

(** After a wrap-around to zero the same id can come again. *)
Example NewObjectId_repeats_after_wrap :
  NewObjectId 5 (2^64 - 1) 0 = (newObjectId 5 0, 0) /\
  NewObjectId 5 (2^64 - 1) (NewObjectId 5 (2^64 - 1) 0).2 = (newObjectId 5 0, 0).
Proof. split; reflexivity. Qed.

(** ** Namespaces *)

Lemma indexDot_split (s : string) :
  0 <= indexDot s ->
  exists a b, s = a +:+ String "." b /\ indexDot a = -1.
Proof.
  induction s as [|c s IH]; cbn [indexDot]; [lia|].
  destruct (Ascii.eqb_spec c "."%char) as [->|Hc].
  - intros _. exists "", s. split; reflexivity.
  - destruct (Z.ltb_spec (indexDot s) 0) as [Hneg|Hpos]; [lia|].
    intros _. destruct (IH Hpos) as (a & b & -> & Ha).
    exists (String c a), b. split; [reflexivity|].
    cbn [indexDot]. destruct (Ascii.eqb_spec c "."%char); [contradiction|].
    rewrite Ha. reflexivity.
Qed.

Lemma SplitNamespace_no_dot (s : string) :
  indexDot s <= 0 -> SplitNamespace s = (s, "").
Proof.
  intros H. unfold SplitNamespace.
  destruct (Z.ltb_spec 0 (indexDot s)); [lia|reflexivity].
Qed.

(** X5: every string is of one of three forms: without a dot, starting
    with a dot, or a non-empty database name without dots, a dot and a
    collection name.  [SplitNamespace] gives the whole string and an empty
    collection name for the first two forms, and the database name and the
    collection name for the third: it splits at the first dot. *)
Theorem SplitNamespace_parts (s : string) :
  (indexDot s = -1 -> SplitNamespace s = (s, "")) /\
  (forall rest, s = String "." rest -> SplitNamespace s = (s, "")) /\
  (forall db col,
     s = db +:+ "." +:+ col -> db <> "" -> indexDot db = -1 ->
     SplitNamespace s = (db, col)) /\
  (indexDot s = -1 \/
   (exists rest, s = String "." rest) \/
   (exists db col, s = db +:+ "." +:+ col /\ db <> "" /\ indexDot db = -1)).
Proof.
  split; [|split; [|split]].
  - intros H. apply SplitNamespace_no_dot. lia.
  - intros rest ->. reflexivity.
  - intros db col -> Hne Hdot. now apply SplitNamespace_db_col.
  - destruct (Z.ltb_spec (indexDot s) 0) as [Hneg|Hpos].
    + left. clear -Hneg. induction s as [|c s IH]; [reflexivity|].
      cbn [indexDot] in *. destruct (Ascii.eqb c "."%char); [lia|].
      destruct (Z.ltb_spec (indexDot s) 0); [reflexivity|lia].
    + right. destruct (indexDot_split s Hpos) as (a & b & -> & Ha).
      destruct a as [|c a].
      * left. exists b. reflexivity.
      * right. exists (String c a), b.
        split; [reflexivity|split; [discriminate|exact Ha]].
Qed.

Lemma SplitNamespace_parts_witness :
  SplitNamespace "people" = ("people", "") /\
  SplitNamespace ".people" = (".people", "") /\
  SplitNamespace "test.people.old" = ("test", "people.old").
Proof.
  split; [apply (proj1 (SplitNamespace_parts "people")); reflexivity|].
  split; [apply (proj1 (proj2 (SplitNamespace_parts ".people")) "people");
          reflexivity|].
  apply (proj1 (proj2 (proj2 (SplitNamespace_parts "test.people.old")))
           "test" "people.old"); [reflexivity | discriminate | reflexivity].
Defined.

Section FacadeMore.

Variable World : Type.
Variable InsertOptions : Type.

(** X6: the collection [name] of a database whose name is not empty and has
    no dot gives back the database and the name; for a database with the
    empty name the namespace starts with the dot, so the collection reports
    the whole namespace as its database and no name. *)
Theorem C_Db_Name (db : Database World InsertOptions) (name' : string) :
  (indexDot (dbName _ _ db) = -1 -> dbName _ _ db <> "" ->
   Db _ _ (C _ _ db name') = db /\ Collection_Name _ _ (C _ _ db name') = name') /\
  (dbName _ _ db = "" ->
   dbName _ _ (Db _ _ (C _ _ db name')) = "." +:+ name' /\
   Collection_Name _ _ (C _ _ db name') = "").
Proof.
  destruct db as [conn n lec]. unfold Db, Collection_Name, C.
  cbn [dbName dbConn dbLastErrorCmd Namespace cConn LastErrorCmd].
  split.
  - intros Hdot Hne. rewrite (SplitNamespace_db_col n name' Hdot Hne).
    split; reflexivity.
  - intros ->. split; reflexivity.
Qed.

Lemma checkError_acknowledge (conn : Conn World InsertOptions) (db col : string)
  (lec : dynamic) (e : option string) (w1 : World) :
  indexDot db = -1 -> db <> "" ->
  exists merr,
    checkError World InsertOptions (mkCollection _ _ conn (db +:+ "." +:+ col) lec)
      (connError e) w1
    = (merr, (acknowledge _ _ conn db lec (e, w1)).1,
       (acknowledge _ _ conn db lec (e, w1)).2).
Proof.
  intros Hdot Hne. unfold checkError, acknowledge, connError, Db.
  cbn [LastErrorCmd Namespace cConn].
  rewrite (SplitNamespace_db_col db col Hdot Hne).
  destruct e as [msg|]; [eexists; reflexivity|]. cbn [option_map].
  destruct lec as [cmd|]; [|eexists; reflexivity].
  destruct (LastError _ _ _ _ _) as [[merr err] w2]. eexists; reflexivity.
Qed.

(** X7: on a collection [<db>.<col>] ([<db>] not empty, without a dot)
    [Insert], [Upsert], [RemoveFirst] and [Remove] make one transport call
    ([Insert] with nil options, [Update] with [Upsert] set, [Remove] with
    [Single] set, [Remove] with nil options), return the transport's error
    without running anything else, and otherwise run the collection's
    acknowledge command on [<db>], if there is one, and return its error. *)
Theorem writes_acknowledged (conn : Conn World InsertOptions) (db col : string)
  (lec : dynamic) (selector update : dynamic) (documents : list document)
  (w : World) :
  indexDot db = -1 -> db <> "" ->
  let ns := db +:+ "." +:+ col in
  let c := mkCollection _ _ conn ns lec in
  Insert _ _ c documents w
  = acknowledge _ _ conn db lec (conn_Insert _ _ conn ns None documents w) /\
  Upsert_ _ _ c selector update w
  = acknowledge _ _ conn db lec
      (conn_Update _ _ conn ns selector update
         (Some (mkUpdateOptions true false)) w) /\
  RemoveFirst _ _ c selector w
  = acknowledge _ _ conn db lec
      (conn_Remove _ _ conn ns selector (Some (mkRemoveOptions true)) w) /\
  Remove _ _ c selector w
  = acknowledge _ _ conn db lec (conn_Remove _ _ conn ns selector None w).
Proof.
  intros Hdot Hne ns c. subst ns c.
  unfold Insert, Upsert_, RemoveFirst, Remove, upsertOptions, removeFirstOptions.
  cbn [cConn Namespace].
  repeat split.
  - destruct (conn_Insert _ _ conn _ None documents w) as [e w1].
    destruct (checkError_acknowledge conn db col lec e w1 Hdot Hne) as [merr ->].
    symmetry; apply surjective_pairing.
  - destruct (conn_Update _ _ conn _ selector update (Some _) w) as [e w1].
    destruct (checkError_acknowledge conn db col lec e w1 Hdot Hne) as [merr ->].
    symmetry; apply surjective_pairing.
  - destruct (conn_Remove _ _ conn _ selector (Some _) w) as [e w1].
    destruct (checkError_acknowledge conn db col lec e w1 Hdot Hne) as [merr ->].
    symmetry; apply surjective_pairing.
  - destruct (conn_Remove _ _ conn _ selector None w) as [e w1].
    destruct (checkError_acknowledge conn db col lec e w1 Hdot Hne) as [merr ->].
    symmetry; apply surjective_pairing.
Qed.

(** X8: when the find of [LastError] fails, its error is returned with the
    zero [MongoError]; once a cursor is there, [LastError] reads one reply
    from it and closes it on every path, and the [MongoError] it returns is
    the one of the reply, whether or not an error is returned; an error of
    the cursor is returned as it is. *)
Theorem LastError_closes_cursor (db : Database World InsertOptions)
  (cmd : dynamic) (w : World) :
  let cmd' := match cmd with None => DefaultLastErrorCmd | Some _ => cmd end in
  match conn_Find _ _ (dbConn _ _ db) (dbName _ _ db +:+ ".$cmd") cmd'
          runFindOptions w with
  | (inl msg, w1) =>
      LastError _ _ db cmd w = (replyError zeroReply, Some (ConnError msg), w1)
  | (inr cursor, w1) =>
      let '(e, r, w2) := cursor_Next _ cursor zeroReply w1 in
      exists err,
        LastError _ _ db cmd w = (replyError r, err, cursor_Close _ cursor w2) /\
        (forall msg, e = Some msg -> err = Some (ConnError msg))
  end.
Proof.
  cbv zeta. unfold LastError.
  destruct (conn_Find _ _ _ _ _ _ w) as [[msg|cursor] w1]; [reflexivity|].
  destruct (cursor_Next _ cursor zeroReply w1) as [[[msg|] r] w2].
  - eexists. split; [reflexivity|]. now intros ? [= <-].
  - destruct (CommandResponse_Error (replyResponse r)).
    + eexists. split; [reflexivity|]. discriminate.
    + destruct (negb _); eexists; (split; [reflexivity|discriminate]).
Qed.

End FacadeMore.

Lemma C_Db_Name_witness :
  Db _ _ (C _ _ (mkDatabase _ _ logConn "test" None) "people")
  = mkDatabase _ _ logConn "test" None /\
  Collection_Name _ _ (C _ _ (mkDatabase _ _ logConn "test" None) "people") = "people" /\
  dbName _ _ (Db _ _ (C _ _ (mkDatabase _ _ logConn "" None) "people"))
  = ".people".
Proof.
  destruct (C_Db_Name _ _ (mkDatabase _ _ logConn "test" None) "people")
    as [H _].
  destruct (H eq_refl ltac:(discriminate)) as [H1 H2].
  split; [exact H1|]. split; [exact H2|].
  apply (C_Db_Name _ _ (mkDatabase _ _ logConn "" None) "people"). reflexivity.
Defined.

(** [RemoveFirst] and [Upsert] on [test.people] with the default
    acknowledge command, and [Remove] without one. *)
Lemma writes_acknowledged_witness :
  RemoveFirst _ _ (mkCollection _ _ logConn "test.people" DefaultLastErrorCmd)
    None []
  = (None, [LogClose; LogNext; LogFind "test.$cmd" DefaultLastErrorCmd;
            LogRemove "test.people"]) /\
  Upsert_ _ _ (mkCollection _ _ logConn "test.people" DefaultLastErrorCmd)
    None None []
  = (None, [LogClose; LogNext; LogFind "test.$cmd" DefaultLastErrorCmd;
            LogUpdate "test.people" (Some (mkUpdateOptions true false))]) /\
  Remove _ _ (mkCollection _ _ logConn "test.people" None) None []
  = (None, [LogRemove "test.people"]).
Proof.
  destruct (writes_acknowledged _ _ logConn "test" "people" DefaultLastErrorCmd
              None None [] [] eq_refl ltac:(discriminate))
    as (_ & H2 & H3 & _).
  destruct (writes_acknowledged _ _ logConn "test" "people" None
              None None [] [] eq_refl ltac:(discriminate))
    as (_ & _ & _ & H4).
  split; [exact H3|]. split; [exact H2 | exact H4].
Defined.

(** ** Struct metadata: the cache *)

(** X9: a successful call of [structInfoForType] leaves every entry of the
    cache as it was, holds the metadata of the type afterwards, and a second
    call for the type, as well as [StructFields], is answered from the cache
    without changing it. *)
Theorem structInfoCache_stable (cache : structInfoCache) (t : rtype) si cache' :
  structInfoForType cache t = Some (si, cache') ->
  (forall t' si', cacheLookup cache t' = Some si' -> cacheLookup cache' t' = Some si') /\
  cacheLookup cache' t = Some si /\
  structInfoForType cache' t = Some (si, cache') /\
  StructFields cache' t = Some (fields si, cache').
Proof.
  intros H.
  assert (Hlook : cacheLookup cache' t = Some si).
  { revert H. unfold structInfoForType.
    destruct (cacheLookup cache t) as [si0|] eqn:E.
    - now intros [= <- <-].
    - destruct (newStructInfo t); [|discriminate]. intros [= <- <-].
      cbn [cacheLookup].
      assert (Hrefl : rtype_eqb t t = true) by now apply rtype_eqb_eq.
      now rewrite Hrefl. }
  assert (Hagain : structInfoForType cache' t = Some (si, cache')).
  { unfold structInfoForType. now rewrite Hlook. }
  repeat split; try assumption.
  - revert H. unfold structInfoForType.
    destruct (cacheLookup cache t) as [si0|] eqn:E.
    + now intros [= <- <-].
    + destruct (newStructInfo t); [|discriminate]. intros [= <- <-].
      intros t' si' Ht'. cbn [cacheLookup].
      destruct (rtype_eqb t t') eqn:Et; [|exact Ht'].
      apply rtype_eqb_eq in Et as <-. congruence.
  - unfold StructFields. now rewrite Hagain.
Qed.

Lemma structInfoCache_stable_witness :
  exists si cache',
    structInfoForType [] tNoId = Some (si, cache') /\
    structInfoForType cache' tNoId = Some (si, cache') /\
    StructFields cache' tNoId
    = Some ([mkDocItem "x" (intValue 1); mkDocItem "y" (intValue 1);
             mkDocItem "_id" (intValue 0)], cache').
Proof.
  destruct (structInfoForType [] tNoId) as [[si cache']|] eqn:E;
    [|vm_compute in E; discriminate E].
  exists si, cache'. split; [reflexivity|].
  destruct (structInfoCache_stable [] tNoId si cache' E) as (_ & _ & H1 & H2).
  split; [exact H1|]. rewrite H2. vm_compute in E. injection E as <- <-.
  reflexivity.
Defined.

(** ** Struct metadata: field flags *)

Lemma fieldFlags_unknown (flags : list string) (c : bool) (s : string) :
  s ∈ flags -> s <> "c" -> fieldFlags flags c = None.
Proof.
  revert c. induction flags as [|x flags IH]; intros c Hin Hs.
  - inversion Hin.
  - cbn [fieldFlags]. destruct (String.eqb_spec x "c") as [->|Hx].
    + apply IH; [|exact Hs]. inversion Hin; subst; [contradiction|assumption].
    + reflexivity.
Qed.

Lemma compileFields_unknown_flag recurse (fs : list StructField) :
  forall index i depth si f s,
    f ∈ fs -> PkgPath f = "" -> Anonymous f = false ->
    s ∈ tail (splitSlash (Tag f)) -> s <> "c" ->
    compileFields recurse index fs i depth si = None.
Proof.
  induction fs as [|g fs IH]; intros index i depth si f s Hin Hp Ha Hs Hc.
  - inversion Hin.
  - cbn [compileFields].
    apply elem_of_cons in Hin as [<-|Hin].
    + rewrite Hp, Ha. cbn [String.eqb negb].
      unfold compileField. now rewrite (fieldFlags_unknown _ false s Hs Hc).
    + destruct (if negb (PkgPath g =? "")%string then _ else _) as [[depth' si']|];
        [|reflexivity].
      apply (IH index (S i) depth' si' f s); assumption.
Qed.

(** X10: a struct with an exported, not embedded field whose tag carries a
    flag other than [c] has no metadata: [compileStructInfo] panics, and so
    does [StructFields] unless the cache holds the type. *)
Theorem structInfo_unknown_flag (n : string) (fs : list StructField)
  (cache : structInfoCache) (f : StructField) (s : string) :
  f ∈ fs -> PkgPath f = "" -> Anonymous f = false ->
  s ∈ tail (splitSlash (Tag f)) -> s <> "c" ->
  newStructInfo (TStruct fs) = None /\
  newStructInfo (TDefined n (TStruct fs)) = None /\
  (cacheLookup cache (TStruct fs) = None -> StructFields cache (TStruct fs) = None).
Proof.
  intros Hin Hp Ha Hs Hc.
  assert (H : newStructInfo (TStruct fs) = None).
  { unfold newStructInfo. cbn [compileStructInfo].
    now rewrite (compileFields_unknown_flag _ fs [] O ∅ _ f s Hin Hp Ha Hs Hc). }
  split; [exact H|]. split.
  - unfold newStructInfo in *. exact H.
  - intros Hmiss. unfold StructFields, structInfoForType. now rewrite Hmiss, H.
Qed.

Lemma structInfo_unknown_flag_witness :
  newStructInfo (TStruct [mkField "X" "" (TInt WInt) "x/q" false]) = None /\
  StructFields [] (TStruct [mkField "X" "" (TInt WInt) "x/c/omitempty" false])
  = None.
Proof.
  split.
  - apply (structInfo_unknown_flag "" [mkField "X" "" (TInt WInt) "x/q" false] []
             (mkField "X" "" (TInt WInt) "x/q" false) "q");
      try reflexivity; [apply list_elem_of_In; now left .. | discriminate].
  - apply (structInfo_unknown_flag ""
             [mkField "X" "" (TInt WInt) "x/c/omitempty" false] []
             (mkField "X" "" (TInt WInt) "x/c/omitempty" false) "omitempty");
      try reflexivity;
      [apply list_elem_of_In; now left
      | apply list_elem_of_In; right; now left | discriminate].
Defined.

(** ** Struct metadata: the map and the list *)

Lemma elem_of_removeName (n : string) (l : list fieldInfo) (fi : fieldInfo) :
  fi ∈ removeName n l <-> fi ∈ l /\ name fi <> n.
Proof.
  induction l as [|x l IH]; cbn [removeName].
  - split; [intros H; inversion H | intros [H _]; inversion H].
  - destruct (String.eqb_spec n (name x)) as [->|Hn]; cbn [negb].
    + rewrite IH, elem_of_cons. split; [tauto|].
      intros [[->|H] Hne]; [contradiction|tauto].
    + rewrite !elem_of_cons, IH. split.
      * intros [->|[H1 H2]]; [split; [now left|congruence] | tauto].
      * intros [[->|H] Hne]; [now left | right; tauto].
Qed.

Lemma compileField_listed (f : StructField) (i : nat) (depth : gmap string Z)
  (index : list nat) (si : structInfo) depth' si' :
  compileField f i depth index si = Some (depth', si') -> listed si -> listed si'.
Proof.
  unfold compileField.
  destruct (fieldFlags _ _) as [cond|]; [|discriminate].
  set (n0 := match splitSlash (Tag f) with | p0 :: _ => _ | [] => _ end).
  destruct (len index =? _).
  - intros [= <- <-] Hinv n fi. cbn [m l].
    destruct (decide (n = n0)) as [->|Hne].
    + now rewrite lookup_delete_eq.
    + rewrite lookup_delete_ne by congruence. intros H.
      destruct (Hinv n fi H) as [H1 H2]. split; [|exact H2].
      apply elem_of_removeName. split; [exact H1|congruence].
  - destruct (len index <? _).
    + intros [= <- <-] Hinv n fi. cbn [m l].
      destruct (decide (n = n0)) as [->|Hne].
      * rewrite lookup_insert_eq. intros [= <-]. split; [|reflexivity].
        apply elem_of_app. right. now left.
      * rewrite lookup_insert_ne by congruence. intros H.
        destruct (Hinv n fi H) as [H1 H2]. split; [|exact H2].
        apply elem_of_app. now left.
    + now intros [= <- <-].
Qed.

Lemma compileFields_listed recurse (fs : list StructField) :
  Forall (fun f => forall depth index si depth' si',
            recurse (Type_ f) depth index si = Some (depth', si') ->
            listed si -> listed si') fs ->
  forall index i depth si depth' si',
    compileFields recurse index fs i depth si = Some (depth', si') ->
    listed si -> listed si'.
Proof.
  induction 1 as [|f fs Hf Hfs IH]; intros index i depth si depth' si'.
  - now intros [= <- <-].
  - cbn [compileFields].
    destruct (negb (PkgPath f =? "")%string).
    + apply IH.
    + destruct (Anonymous f).
      * destruct (Kind (Type_ f)); try apply IH.
        destruct (recurse (Type_ f) depth (index ++ [i]) si) as [[d1 s1]|] eqn:E;
          [|discriminate].
        intros H Hinv. apply (IH _ _ _ _ _ _ H). apply (Hf _ _ _ _ _ E Hinv).
      * destruct (compileField f i depth index si) as [[d1 s1]|] eqn:E;
          [|discriminate].
        intros H Hinv. apply (IH _ _ _ _ _ _ H).
        apply (compileField_listed _ _ _ _ _ _ _ E Hinv).
Qed.

Lemma compileStructInfo_listed (t : rtype) :
  forall depth index si depth' si',
    compileStructInfo t depth index si = Some (depth', si') ->
    listed si -> listed si'.
Proof.
  induction t using rtype_nested_ind; intros depth index si depth' si';
    cbn [compileStructInfo]; try discriminate.
  - apply compileFields_listed. exact H.
  - apply IHt.
Qed.

Lemma newStructInfo_m_l (t : rtype) (si : structInfo) :
  newStructInfo t = Some si ->
  exists depth si0,
    compileStructInfo t ∅ [] (mkStructInfo ∅ [] []) = Some (depth, si0) /\
    m si = m si0 /\ l si = l si0.
Proof.
  unfold newStructInfo.
  destruct (compileStructInfo t ∅ [] _) as [[depth si0]|]; [|discriminate].
  destruct (projectionLoop _ _ _) as [hasId fields'].
  intros [= <-]. eauto.
Qed.

Lemma newStructInfo_listed (t : rtype) (si : structInfo) :
  newStructInfo t = Some si -> listed si.
Proof.
  intros Hsi.
  destruct (newStructInfo_m_l t si Hsi) as (depth & si0 & Hc & Hm & Hl).
  assert (Hinv : listed si0).
  { apply (compileStructInfo_listed t _ _ _ _ _ Hc). intros n x. cbn [m].
    now rewrite lookup_empty. }
  intros n fi. rewrite Hm, Hl. apply Hinv.
Qed.

(** X11: a field that [FieldInfo] finds carries the name asked for, is an
    entry of the list [si.l], and, unless it is [_id], is requested with
    value [1] in the projection that [StructFields] returns. *)
Theorem FieldInfo_listed (t : rtype) (si : structInfo) (nm : list byte)
  (fi : fieldInfo) :
  newStructInfo t = Some si ->
  FieldInfo si nm = Some fi ->
  name fi = string_of_list_byte nm /\
  fi ∈ l si /\
  (name fi <> "_id" -> mkDocItem (name fi) (intValue 1) ∈ fields si).
Proof.
  intros Hsi Hfi.
  destruct (newStructInfo_listed t si Hsi _ _ Hfi) as [H1 H2].
  split; [exact H2|]. split; [exact H1|].
  intros Hid. rewrite (newStructInfo_fields t si Hsi). unfold projection.
  apply elem_of_app. left.
  apply list_elem_of_In, (in_map (fun n => mkDocItem n (intValue 1))), list_elem_of_In.
  apply list_elem_of_filter. split; [exact Hid|].
  now apply list_elem_of_In, in_map, list_elem_of_In.
Qed.

Lemma FieldInfo_listed_witness :
  exists si fi,
    newStructInfo tNoId = Some si /\
    FieldInfo si [x79] = Some fi /\
    name fi = "y" /\ fi ∈ l si /\
    mkDocItem "y" (intValue 1) ∈ fields si.
Proof.
  destruct (newStructInfo tNoId) as [si|] eqn:E;
    [|vm_compute in E; discriminate E].
  assert (Hfi : FieldInfo si [x79] = Some (mkFieldInfo "y" [1%nat] true)).
  { vm_compute in E. injection E as <-. reflexivity. }
  exists si, (mkFieldInfo "y" [1%nat] true). split; [reflexivity|].
  split; [exact Hfi|].
  destruct (FieldInfo_listed tNoId si [x79] _ E Hfi) as (H1 & H2 & H3).
  split; [exact H1|]. split; [exact H2|]. apply H3. discriminate.
Defined.

(** ** Struct metadata: the index paths *)

Lemma paths_refl t index si : paths t index si si.
Proof. intros fi H. now left. Qed.

Lemma paths_trans t index s0 s1 s2 :
  paths t index s0 s1 -> paths t index s1 s2 -> paths t index s0 s2.
Proof.
  intros H01 H12 fi H. destruct (H12 fi H) as [H1|H1]; [|now right].
  apply (H01 fi H1).
Qed.

Lemma fieldTypeByIndex_defined (n : string) (u : rtype) (suffix : list nat) :
  suffix <> [] ->
  fieldTypeByIndex (TDefined n u) suffix = fieldTypeByIndex u suffix.
Proof. destruct suffix; [congruence|reflexivity]. Qed.

Lemma fieldTypeByIndex_underlying (t : rtype) (suffix : list nat) :
  suffix <> [] ->
  fieldTypeByIndex t suffix = fieldTypeByIndex (underlying t) suffix.
Proof.
  intros H. induction t; try reflexivity.
  rewrite fieldTypeByIndex_defined by exact H. exact IHt.
Qed.


Lemma compileField_paths (t : rtype) (all : list StructField) (f : StructField)
  (i : nat) depth index si depth' si' :
  underlying t = TStruct all -> all !! i = Some f -> PkgPath f = "" ->
  compileField f i depth index si = Some (depth', si') ->
  paths t index si si'.
Proof.
  intros Ht Hi Hp. unfold compileField.
  destruct (fieldFlags _ _) as [cond|]; [|discriminate].
  set (n0 := match splitSlash (Tag f) with | p0 :: _ => _ | [] => _ end).
  destruct (len index =? _).
  - intros [= <- <-] fi. cbn [l]. intros H%elem_of_removeName. left. tauto.
  - destruct (len index <? _).
    + intros [= <- <-] fi. cbn [l]. intros [H|H]%elem_of_app; [now left|].
      apply list_elem_of_singleton in H as ->. right.
      exists [i], (Type_ f). split; [discriminate|]. split; [reflexivity|].
      cbn [fieldTypeByIndex]. now rewrite Ht, Hi, Hp.
    + intros [= <- <-]. apply paths_refl.
Qed.

Lemma paths_embedded (t : rtype) (all : list StructField) (f : StructField)
  (i : nat) index si si' :
  underlying t = TStruct all -> all !! i = Some f -> PkgPath f = "" ->
  paths (Type_ f) (index ++ [i]) si si' -> paths t index si si'.
Proof.
  intros Ht Hi Hp H fi Hfi.
  destruct (H fi Hfi) as [H1|(suffix & ft & Hne & Hidx & Hty)]; [now left|].
  right. exists (i :: suffix), ft. split; [discriminate|]. split.
  - now rewrite Hidx, <- app_assoc.
  - cbn [fieldTypeByIndex]. now rewrite Ht, Hi, Hty, Hp.
Qed.

Lemma compileFields_paths recurse (t : rtype) (all : list StructField) :
  underlying t = TStruct all ->
  forall fs done,
    all = done ++ fs ->
    Forall (fun f => forall depth index si depth' si',
              recurse (Type_ f) depth index si = Some (depth', si') ->
              paths (Type_ f) index si si') fs ->
    forall index depth si depth' si',
      compileFields recurse index fs (length done) depth si = Some (depth', si') ->
      paths t index si si'.
Proof.
  intros Ht fs. induction fs as [|f fs IH]; intros done Hall Hrec index depth si depth' si'.
  - intros [= <- <-]. apply paths_refl.
  - cbn [compileFields].
    assert (Hi : all !! length done = Some f).
    { rewrite Hall. apply list_lookup_middle. reflexivity. }
    assert (Hall' : all = (done ++ [f]) ++ fs) by now rewrite <- app_assoc.
    assert (Hlen : S (length done) = length (done ++ [f]))
      by (rewrite length_app; cbn; lia).
    pose proof (Forall_inv Hrec) as Hf. pose proof (Forall_inv_tail Hrec) as Hfs.
    cbv beta in Hf.
    rewrite Hlen.
    destruct (String.eqb_spec (PkgPath f) "") as [Hp|Hp]; cbn [negb].
    + destruct (Anonymous f).
      * destruct (Kind (Type_ f)); try apply (IH (done ++ [f]) Hall' Hfs).
        destruct (recurse (Type_ f) depth (index ++ [length done]) si)
          as [[d1 s1]|] eqn:E; [|discriminate].
        intros H. apply (paths_trans _ _ _ s1).
        -- apply (paths_embedded t all f (length done)); try assumption.
           apply (Hf _ _ _ _ _ E).
        -- apply (IH (done ++ [f]) Hall' Hfs _ _ _ _ _ H).
      * destruct (compileField f (length done) depth index si) as [[d1 s1]|] eqn:E;
          [|discriminate].
        intros H. apply (paths_trans _ _ _ s1).
        -- apply (compileField_paths t all f (length done) _ _ _ _ _ Ht Hi Hp E).
        -- apply (IH (done ++ [f]) Hall' Hfs _ _ _ _ _ H).
    + apply (IH (done ++ [f]) Hall' Hfs).
Qed.

Lemma compileStructInfo_paths (t : rtype) :
  forall depth index si depth' si',
    compileStructInfo t depth index si = Some (depth', si') ->
    paths t index si si'.
Proof.
  induction t using rtype_nested_ind; intros depth index si depth' si';
    cbn [compileStructInfo]; try discriminate.
  - apply (compileFields_paths _ (TStruct fs) fs eq_refl fs []
             eq_refl H).
  - intros Hc fi Hfi. destruct (IHt _ _ _ _ _ Hc fi Hfi)
      as [H1|(suffix & ft & Hne & Hidx & Hty)]; [now left|].
    right. exists suffix, ft. split; [exact Hne|]. split; [exact Hidx|].
    now rewrite fieldTypeByIndex_defined.
Qed.

(** X12: the index path of every entry of the metadata, in the list
    [si.l] and in the map that [FieldInfo] reads, is not empty and leads,
    through exported fields only, to a field of the struct type (for a field
    of an embedded struct: through the embedded field). *)
Theorem FieldInfo_index_valid (t : rtype) (si : structInfo) :
  newStructInfo t = Some si ->
  (forall fi, fi ∈ l si ->
     index_ fi <> [] /\
     exists ft, fieldTypeByIndex t (index_ fi) = Some (ft, true)) /\
  (forall nm fi, FieldInfo si nm = Some fi ->
     index_ fi <> [] /\
     exists ft, fieldTypeByIndex t (index_ fi) = Some (ft, true)).
Proof.
  intros Hsi.
  destruct (newStructInfo_m_l t si Hsi) as (depth & si0 & Hc & Hm & Hl).
  assert (Hl' : forall fi, fi ∈ l si ->
            index_ fi <> [] /\
            exists ft, fieldTypeByIndex t (index_ fi) = Some (ft, true)).
  { intros fi Hfi. rewrite Hl in Hfi.
    destruct (compileStructInfo_paths t _ _ _ _ _ Hc fi Hfi)
      as [H|(suffix & ft & Hne & Hidx & Hty)]; [inversion H|].
    cbn [app] in Hidx. rewrite Hidx. split; [exact Hne|]. now exists ft. }
  split; [exact Hl'|].
  intros nm fi Hfi. apply Hl'.
  apply (newStructInfo_listed t si Hsi _ _ Hfi).
Qed.

Lemma FieldInfo_index_valid_witness :
  exists si,
    newStructInfo tEmbeddedLast = Some si /\
    newStructInfo tTwins <> None /\
    forall fi, fi ∈ l si ->
      exists ft, fieldTypeByIndex tEmbeddedLast (index_ fi) = Some (ft, true).
Proof.
  destruct (newStructInfo tEmbeddedLast) as [si|] eqn:E;
    [|vm_compute in E; discriminate E].
  exists si. split; [reflexivity|]. split; [vm_compute; discriminate|].
  intros fi Hfi.
  apply (proj1 (FieldInfo_index_valid tEmbeddedLast si E) fi Hfi).
Defined.

(** ** Struct metadata: fields of one name *)

Lemma occurrences_snoc (n x : string) (seen : list string) :
  occurrences n (seen ++ [x]) =
  (occurrences n seen + (if decide (x = n) then 1 else 0))%nat.
Proof.
  unfold occurrences. rewrite filter_app, length_app. f_equal.
  rewrite filter_cons, filter_nil. now destruct (decide (x = n)).
Qed.

Lemma compileField_flat (f : StructField) (i : nat) (seen : list string)
  (depth : gmap string Z) (si : structInfo) :
  plainField f -> flatState seen depth si ->
  exists depth' si',
    compileField f i depth [] si = Some (depth', si') /\
    flatState (seen ++ [fieldName f]) depth' si'.
Proof.
  intros (Hp & Ha & c & Hc) Hst. unfold compileField. rewrite Hc.
  fold (fieldName f). set (n0 := fieldName f).
  destruct (Hst n0) as [Hd Hm]. rewrite Hd.
  destruct (Nat.eqb_spec (occurrences n0 seen) 0) as [Hz|Hnz].
  - (* a new name *)
    change (len [] =? Z.shiftl 1 30) with false.
    change (len [] <? Z.shiftl 1 30) with true. cbv iota.
    eexists _, _. split; [reflexivity|]. intros n. cbn [m].
    rewrite occurrences_snoc. destruct (Hst n) as [Hdn Hmn].
    destruct (decide (n0 = n)) as [<-|Hne].
    + rewrite !lookup_insert_eq, Hz. split; [reflexivity|].
      split; [reflexivity | intros _; eexists; reflexivity].
    + rewrite !lookup_insert_ne by exact Hne. rewrite Nat.add_0_r. now split.
  - (* a name seen before, at the same depth *)
    change (len [] =? 0) with true. cbv iota.
    eexists _, _. split; [reflexivity|]. intros n. cbn [m].
    rewrite occurrences_snoc. destruct (Hst n) as [Hdn Hmn].
    destruct (decide (n0 = n)) as [<-|Hne].
    + rewrite lookup_delete_eq, Hd.
      destruct (Nat.eqb_spec (occurrences n0 seen) 0); [contradiction|].
      destruct (Nat.eqb_spec (occurrences n0 seen + 1) 0); [exfalso; lia|].
      split; [reflexivity|]. split; [intros [? [=]] | lia].
    + rewrite lookup_delete_ne by exact Hne. rewrite Nat.add_0_r. now split.
Qed.

Lemma compileFields_flat recurse (fs : list StructField) :
  forall i seen depth si,
    Forall plainField fs -> flatState seen depth si ->
    exists depth' si',
      compileFields recurse [] fs i depth si = Some (depth', si') /\
      flatState (seen ++ map fieldName fs) depth' si'.
Proof.
  induction fs as [|f fs IH]; intros i seen depth si Hplain Hst.
  - eexists _, _. split; [reflexivity|]. now rewrite app_nil_r.
  - pose proof (Forall_inv Hplain) as Hf. pose proof (Forall_inv_tail Hplain) as Hfs.
    destruct (compileField_flat f i seen depth si Hf Hst) as (d1 & s1 & E & Hst1).
    destruct (IH (S i) _ d1 s1 Hfs Hst1) as (d2 & s2 & E2 & Hst2).
    exists d2, s2. cbn [compileFields map].
    destruct Hf as (Hp & Ha & _). rewrite Hp, Ha. cbn [String.eqb negb].
    rewrite E. split; [exact E2|].
    now rewrite <- app_assoc in Hst2.
Qed.

(** X13: in a struct of exported, not embedded fields, [FieldInfo] finds a
    name exactly when one field, and no more, carries it: two fields of one
    name remove each other from the metadata, and a third one does not bring
    the name back. *)
Theorem FieldInfo_flat_struct (fs : list StructField) :
  Forall plainField fs ->
  exists si,
    newStructInfo (TStruct fs) = Some si /\
    forall nm,
      is_Some (FieldInfo si nm)
      <-> occurrences (string_of_list_byte nm) (map fieldName fs) = 1%nat.
Proof.
  intros Hplain.
  destruct (compileFields_flat
              (fun t' depth' index' si' => compileStructInfo t' depth' index' si')
              fs O [] ∅ (mkStructInfo ∅ [] []) Hplain)
    as (depth' & si' & Hc & Hst).
  { intros n. cbn. rewrite !lookup_empty. split; [reflexivity|].
    split; [intros [? [=]] | discriminate]. }
  unfold newStructInfo. cbn [compileStructInfo]. rewrite Hc.
  destruct (projectionLoop _ _ _) as [hasId fields'].
  eexists. split; [reflexivity|]. intros nm. unfold FieldInfo. cbn [m].
  apply (Hst (string_of_list_byte nm)).
Qed.

Lemma FieldInfo_flat_struct_witness :
  exists si,
    newStructInfo
      (TStruct [mkField "A" "" TString "x" false; mkField "B" "" TString "y" false;
                mkField "C" "" TString "x" false; mkField "D" "" TString "x" false])
    = Some si /\
    FieldInfo si [x78] = None /\ is_Some (FieldInfo si [x79]).
Proof.
  destruct (FieldInfo_flat_struct
              [mkField "A" "" TString "x" false; mkField "B" "" TString "y" false;
               mkField "C" "" TString "x" false; mkField "D" "" TString "x" false])
    as (si & Hsi & H).
  { repeat constructor; eexists; reflexivity. }
  exists si. split; [exact Hsi|]. split.
  - destruct (FieldInfo si [x78]) eqn:E; [|reflexivity].
    assert (Hs : is_Some (FieldInfo si [x78])) by (rewrite E; eauto).
    apply H in Hs. vm_compute in Hs. discriminate Hs.
  - apply H. reflexivity.
Defined.

(** ** Decoding numbers and strings *)

Lemma to_intN_small (w : intSize) (n : Z) :
  - 2^(bitSize w - 1) <= n < 2^(bitSize w - 1) -> to_intN w n = n.
Proof.
  intros H. unfold to_intN.
  assert (Hb : 2^(bitSize w) = 2 * 2^(bitSize w - 1)).
  { replace (bitSize w) with (Z.succ (bitSize w - 1)) at 1 by lia.
    rewrite Z.pow_succ_r by (destruct w; cbn; lia). reflexivity. }
  assert (Hp : 0 < 2^(bitSize w - 1)) by (apply Z.pow_pos_nonneg; destruct w; cbn; lia).
  destruct (Z.lt_ge_cases n 0).
  - replace (n mod 2^bitSize w) with (n + 2^bitSize w).
    + destruct (Z.ltb_spec (n + 2^bitSize w) (2^(bitSize w - 1))); lia.
    + apply (Z.mod_unique _ _ (-1)); lia.
  - rewrite Z.mod_small by lia.
    destruct (Z.ltb_spec n (2^(bitSize w - 1))); lia.
Qed.

Section DecodingValues.

Variable cvtI cvtU : Z -> Z.
Variable spec : rtype -> list byte -> option (list nat).

(** X14: an int32, int64, timestamp or datetime element whose value the
    slot can hold is decoded exactly: a settable slot of a signed or an
    unsigned integer type receives the value of the element, the read offset
    moves behind the element (4 or 8 bytes), and no error is saved. *)
Theorem decodeValue_integer_exact fuel kind t v d p :
  direct v ->
  isKind kind [kindInt32; kindInt64; kindTimestamp; kindDateTime] = true ->
  slice (data d) (offset d) (offset d + numericSize kind) = Some p ->
  representable t (elementInt kind p) ->
  (decoderFor t = Some DecodeInt ->
   decodeValue cvtI cvtU spec (S fuel) kind t v settable d =
   Ok (VInt (elementInt kind p)) (setOffset d (offset d + numericSize kind))) /\
  (decoderFor t = Some DecodeUint ->
   decodeValue cvtI cvtU spec (S fuel) kind t v settable d =
   Ok (VUint (elementInt kind p)) (setOffset d (offset d + numericSize kind))).
Proof.
  intros Hd Hk Hp Hr.
  assert (Hkind : kind = kindInt32 \/ kind = kindInt64 \/ kind = kindTimestamp
                  \/ kind = kindDateTime).
  { cbn [isKind existsb] in Hk.
    destruct (Z.eqb_spec kind kindInt32); [tauto|].
    destruct (Z.eqb_spec kind kindInt64); [tauto|].
    destruct (Z.eqb_spec kind kindTimestamp); [tauto|].
    destruct (Z.eqb_spec kind kindDateTime); [tauto|]. discriminate. }
  pose proof (elementInt_range kind p) as Hrange.
  split; intros Hf; cbn [decodeValue]; rewrite (indirect_direct _ _ _ Hd), Hf;
    cbn [callDecoder]; destruct (decoderFor_numeric _ _ Hf) as (HI & HU & _).
  - destruct (HI eq_refl) as [w Hw]. unfold representable in Hr. rewrite Hw in Hr.
    assert (Ho : OverflowInt t (elementInt kind p) = Some false).
    { rewrite (OverflowInt_range t w _ Hw Hrange).
      destruct (Z.leb_spec (- 2^(bitSize w - 1)) (elementInt kind p)); [|lia].
      destruct (Z.ltb_spec (elementInt kind p) (2^(bitSize w - 1))); [|lia].
      reflexivity. }
    unfold elementInt, numericSize in *. unfold decodeInt. cbn [isKind existsb].
    destruct Hkind as [-> | [-> | [-> | ->]]];
      cbv [kindInt32 kindInt64 kindFloat kindTimestamp kindDateTime Z.eqb
           Pos.eqb orb] in *; cbv iota in *; unfold bind;
      rewrite ?(scanInt32_ok_bytes _ _ Hp), ?(scanInt64_ok _ _ Hp), Ho;
      unfold SetInt; rewrite Hw; cbn [Set_]; unfold ret;
      now rewrite (to_intN_small w _ Hr).
  - destruct (HU eq_refl) as [w Hw]. unfold representable in Hr. rewrite Hw in Hr.
    assert (Hu : to_uint64 (elementInt kind p) = elementInt kind p)
      by (apply to_uint64_nonneg; lia).
    assert (Ho : OverflowUint t (elementInt kind p) = Some false).
    { rewrite (OverflowUint_range t w _ Hw) by lia.
      destruct (Z.ltb_spec (elementInt kind p) (2^(bitSize w))); [|lia].
      reflexivity. }
    unfold elementInt, numericSize in *. unfold decodeUint. cbn [isKind existsb].
    destruct Hkind as [-> | [-> | [-> | ->]]];
      cbv [kindInt32 kindInt64 kindFloat kindTimestamp kindDateTime Z.eqb
           Pos.eqb orb] in *; cbv iota in *; unfold bind;
      rewrite ?(scanInt32_ok_bytes _ _ Hp), ?(scanInt64_ok _ _ Hp), Hu, Ho;
      unfold SetUint; rewrite Hw; cbn [Set_]; unfold ret, to_uintN;
      now rewrite Z.mod_small by lia.
Qed.

(** X15: a string element (an int32 [n >= 1], [n - 1] bytes and a
    terminator) is decoded to exactly these [n - 1] bytes, into a settable
    string slot (also from a symbol or a code element) and by the generic
    decoding, and the read offset moves by [4 + n]; the terminator is
    neither read nor checked. *)
Theorem decodeValue_string_exact fuel kind t v d p s :
  direct v -> underlying t = TString ->
  slice (data d) (offset d) (offset d + 4) = Some p ->
  slice (data d) (offset d + 4) (offset d + 4 + (wire.Uint32 p - 1)) = Some s ->
  (isKind kind [kindString; kindSymbol; kindCode] = true ->
   decoderFor t = Some DecodeString ->
   decodeValue cvtI cvtU spec (S fuel) kind t v settable d =
   Ok (VString (string_of_list_byte s))
      (setOffset d (offset d + 4 + wire.Uint32 p))) /\
  (isKind kind [kindString; kindSymbol] = true ->
   exists t',
     decodeValueInterface (S fuel) kind d =
     Ok (Some (t', VString (string_of_list_byte s)))
        (setOffset d (offset d + 4 + wire.Uint32 p))).
Proof.
  intros Hd Ht Hp Hs.
  assert (Hscan : scanString d =
                  Ok (string_of_list_byte s) (setOffset d (offset d + 4 + wire.Uint32 p))).
  { unfold scanString, bind. rewrite (scanSlice_ok _ _ _ Hp).
    rewrite (scanSlice_ok (wire.Uint32 p - 1) (setOffset d (offset d + 4)) s Hs).
    unfold addOffset, ret. cbn [offset setOffset data savedError]. unfold setOffset.
    cbn [data savedError offset]. do 2 f_equal. lia. }
  split.
  - intros Hk Hf. cbn [decodeValue]. rewrite (indirect_direct _ _ _ Hd), Hf.
    cbn [callDecoder]. unfold decodeString. rewrite Hk. unfold bind. rewrite Hscan.
    unfold SetString. now rewrite Ht.
  - intros Hk. cbn [isKind existsb] in Hk. cbn [decodeValueInterface].
    destruct (Z.eqb_spec kind kindString) as [->|Hn1].
    + cbv [kindString kindFloat Z.eqb Pos.eqb]. cbv iota. unfold bind.
      rewrite Hscan. eexists; reflexivity.
    + destruct (Z.eqb_spec kind kindSymbol) as [->|Hn2]; [|discriminate].
      cbv [kindSymbol kindString kindFloat kindDocument kindArray kindBinary
           kindObjectId kindBool kindDateTime kindNull Z.eqb Pos.eqb]. cbv iota.
      unfold bind. rewrite Hscan. eexists; reflexivity.
Qed.

(** X16: a binary element (an int32 [n], a subtype byte and [n] bytes)
    read into a settable [[]byte] slot, nil or not, leaves a slice of
    length [n] that holds exactly the [n] bytes, within its capacity; the
    subtype is dropped and the read offset moves by [5 + n]. *)
Theorem decodeValue_binary_exact fuel v backing ln d p sub q :
  slice (data d) (offset d) (offset d + 4) = Some p ->
  index (data d) (offset d + 4) = Some sub ->
  slice (data d) (offset d + 5) (offset d + 5 + wire.Uint32 p) = Some q ->
  v = VSlice None \/ v = VSlice (Some (backing, ln)) ->
  exists backing',
    decodeValue cvtI cvtU spec (S fuel) kindBinary tByteSlice v settable d =
    Ok (VSlice (Some (backing', length q)))
       (setOffset d (offset d + 5 + wire.Uint32 p)) /\
    take (length q) backing' = map (fun b => VUint (byte_to_Z b)) q /\
    (length q <= length backing')%nat.
Proof.
  intros Hp Hsub Hq Hv.
  assert (Hd : direct v) by (destruct Hv as [->| ->]; exact I).
  cbn [decodeValue]. rewrite (indirect_direct _ _ _ Hd).
  change (decoderFor tByteSlice) with (Some DecodeByteSlice). cbn [callDecoder].
  unfold decodeByteSlice. change (kindBinary =? kindBinary) with true. cbv iota.
  assert (Hscan : scanBinary d
                  = Ok (q, byte_to_Z sub) (setOffset d (offset d + 5 + wire.Uint32 p))).
  { unfold scanBinary, bind. rewrite (scanSlice_ok _ _ _ Hp).
    pose proof Hp as Hp'. apply slice_Some in Hp' as (H0 & _ & Hlen & _).
    unfold scanByte. cbn [offset data setOffset].
    assert (Hlt : offset d + 4 < len (data d)).
    { unfold index in Hsub. destruct (offset d + 4 <? 0); [discriminate|].
      apply lookup_lt_Some in Hsub. unfold len. lia. }
    destruct (Z.leb_spec (len (data d)) (offset d + 4)); [lia|].
    rewrite Hsub. unfold setOffset at 1. cbn [data offset savedError].
    unfold scanSlice. cbn [data offset].
    replace (offset d + 4 + 1) with (offset d + 5) by lia.
    apply slice_Some in Hq as Hq'. destruct Hq' as (_ & _ & Hlen' & _).
    change (data (setOffset d (offset d + 4))) with (data d).
    destruct (Z.ltb_spec (len (data d)) (offset d + 5 + wire.Uint32 p)); [lia|].
    rewrite Hq. reflexivity. }
  unfold bind. rewrite Hscan. unfold ret, Set_.
  destruct Hv as [-> | ->].
  - eexists. split; [reflexivity|]. rewrite length_map.
    split; [|lia]. rewrite <- (length_map (fun b => VUint (byte_to_Z b)) q).
    apply firstn_all.
  - destruct (length backing <? length q)%nat eqn:E.
    + eexists. split; [reflexivity|]. rewrite length_map.
      split; [|lia]. rewrite <- (length_map (fun b => VUint (byte_to_Z b)) q).
      apply firstn_all.
    + apply Nat.ltb_ge in E. eexists. split; [reflexivity|].
      split.
      * rewrite take_app_length'; [reflexivity|now rewrite length_map].
      * rewrite length_app, length_map, length_drop. lia.
Qed.

(** X17: a [BSONData] slot takes a value of any kind that [skipValue] has a
    case for, when the input holds the whole payload: the slot receives the
    kind and a copy of exactly the payload bytes, the read offset moves
    behind the payload and no error is saved. *)
Theorem decodeBSONData_captures fuel kind v d n p :
  direct v ->
  payloadSize kind d = Some n ->
  slice (data d) (offset d) (offset d + n) = Some p ->
  decodeValue cvtI cvtU spec (S fuel) kind tBSONData v settable d =
  Ok (VStruct [VInt kind; bytesValue p]) (setOffset d (offset d + n)).
Proof.
  intros Hd Hn Hp. cbn [decodeValue]. rewrite (indirect_direct _ _ _ Hd).
  change (decoderFor tBSONData) with (Some DecodeBSONData). cbn [callDecoder].
  unfold decodeBSONData, bind, get. rewrite (skipValue_advance _ _ _ Hn).
  cbn [data offset setOffset]. now rewrite Hp.
Qed.

End DecodingValues.

Lemma decodeValue_integer_exact_witness :
  decodeValue' 1 kindInt32 (TInt W8) (VInt 5) settable
    (mkState [x07; x00; x00; x00] 0 None)
  = Ok (VInt 7) (mkState [x07; x00; x00; x00] 4 None) /\
  decodeValue' 1 kindInt64 (TUint W16) (VUint 5) settable
    (mkState [x2c; x01; x00; x00; x00; x00; x00; x00] 0 None)
  = Ok (VUint 300) (mkState [x2c; x01; x00; x00; x00; x00; x00; x00] 8 None).
Proof.
  split.
  - refine (proj1 (decodeValue_integer_exact unrepresentable_int64
                     unrepresentable_uint64 structSpecOfInfo 0 kindInt32 (TInt W8)
                     (VInt 5) (mkState [x07; x00; x00; x00] 0 None)
                     [x07; x00; x00; x00] I eq_refl eq_refl _) eq_refl).
    vm_compute. split; [discriminate|reflexivity].
  - refine (proj2 (decodeValue_integer_exact unrepresentable_int64
                     unrepresentable_uint64 structSpecOfInfo 0 kindInt64 (TUint W16)
                     (VUint 5)
                     (mkState [x2c; x01; x00; x00; x00; x00; x00; x00] 0 None)
                     [x2c; x01; x00; x00; x00; x00; x00; x00] I eq_refl eq_refl _)
              eq_refl).
    vm_compute. split; [discriminate|reflexivity].
Defined.

(** The string ["hi"] without its terminator: the decoder does not miss
    it. *)
Lemma decodeValue_string_exact_witness :
  decodeValue' 1 kindString tSymbol (VString "") settable
    (mkState [x03; x00; x00; x00; x68; x69] 0 None)
  = Ok (VString "hi") (mkState [x03; x00; x00; x00; x68; x69] 7 None).
Proof.
  exact (proj1 (decodeValue_string_exact unrepresentable_int64
                  unrepresentable_uint64 structSpecOfInfo 0 kindString tSymbol
                  (VString "") (mkState [x03; x00; x00; x00; x68; x69] 0 None)
                  [x03; x00; x00; x00] [x68; x69] I eq_refl eq_refl eq_refl)
           eq_refl eq_refl).
Defined.

(** Three bytes read into a slice of capacity four and length one. *)
Lemma decodeValue_binary_exact_witness :
  decodeValue' 1 kindBinary tByteSlice
    (VSlice (Some ([VUint 9; VUint 9; VUint 9; VUint 9], 1%nat))) settable
    (mkState [x03; x00; x00; x00; x80; x01; x02; x03] 0 None)
  = Ok (VSlice (Some ([VUint 1; VUint 2; VUint 3; VUint 9], 3%nat)))
      (mkState [x03; x00; x00; x00; x80; x01; x02; x03] 8 None).
Proof.
  destruct (decodeValue_binary_exact unrepresentable_int64 unrepresentable_uint64
              structSpecOfInfo 0
              (VSlice (Some ([VUint 9; VUint 9; VUint 9; VUint 9], 1%nat)))
              [VUint 9; VUint 9; VUint 9; VUint 9] 1%nat
              (mkState [x03; x00; x00; x00; x80; x01; x02; x03] 0 None)
              [x03; x00; x00; x00] x80 [x01; x02; x03]
              eq_refl eq_refl eq_refl (or_intror eq_refl))
    as (backing' & H & _).
  reflexivity.
Defined.

(** The int64 of [docTruncatedValue], now complete. *)
Lemma decodeBSONData_captures_witness :
  decodeValue' 1 kindInt64 tBSONData (zero tBSONData) settable
    (mkState [x01; x02; x03; x04; x05; x06; x07; x08; x00] 0 None)
  = Ok (BSONData_value
          (mkBSONData kindInt64 [x01; x02; x03; x04; x05; x06; x07; x08]))
      (mkState [x01; x02; x03; x04; x05; x06; x07; x08; x00] 8 None).
Proof.
  exact (decodeBSONData_captures unrepresentable_int64 unrepresentable_uint64
           structSpecOfInfo 0 kindInt64 (zero tBSONData)
           (mkState [x01; x02; x03; x04; x05; x06; x07; x08; x00] 0 None) 8
           [x01; x02; x03; x04; x05; x06; x07; x08] I eq_refl eq_refl).
Defined.

(** ** The generic decoding reads a value from its own bytes *)

Lemma slice_shift {A} (l : list A) (base lim lo hi : Z) :
  0 <= base -> base <= lo -> lo <= hi -> hi <= lim -> lim <= len l ->
  slice (take (Z.to_nat (lim - base)) (drop (Z.to_nat base) l)) (lo - base) (hi - base)
  = slice l lo hi.
Proof.
  intros H0 H1 H2 H3 H4. unfold slice, len in *.
  rewrite length_take, length_drop.
  replace (0 <=? lo - base) with true by (symmetry; apply Z.leb_le; lia).
  replace (lo - base <=? hi - base) with true by (symmetry; apply Z.leb_le; lia).
  replace (hi - base <=? _) with true by (symmetry; apply Z.leb_le; lia).
  replace (0 <=? lo) with true by (symmetry; apply Z.leb_le; lia).
  replace (lo <=? hi) with true by (symmetry; apply Z.leb_le; lia).
  replace (hi <=? _) with true by (symmetry; apply Z.leb_le; lia).
  cbn [andb]. f_equal.
  replace (hi - base - (lo - base)) with (hi - lo) by lia.
  rewrite skipn_firstn_comm, take_take, drop_drop. f_equal.
  - lia.
  - f_equal. lia.
Qed.

Lemma index_shift {A} (l : list A) (base lim i : Z) :
  0 <= base -> base <= i -> i < lim -> lim <= len l ->
  index (take (Z.to_nat (lim - base)) (drop (Z.to_nat base) l)) (i - base)
  = index l i.
Proof.
  intros H0 H1 H2 H3. unfold index, len in *.
  destruct (Z.ltb_spec (i - base) 0); [lia|].
  destruct (Z.ltb_spec i 0); [lia|].
  rewrite lookup_take_lt by lia. rewrite lookup_drop. f_equal. lia.
Qed.

Lemma len_shift {A} (l : list A) (base lim : Z) :
  0 <= base -> base <= lim -> lim <= len l ->
  len (take (Z.to_nat (lim - base)) (drop (Z.to_nat base) l)) = lim - base.
Proof.
  intros H0 H1 H2. unfold len in *. rewrite length_take, length_drop. lia.
Qed.

Lemma shifted_setOffset base lim d d2 o :
  shifted base lim d d2 -> base <= o ->
  shifted base lim (setOffset d o) (setOffset d2 (o - base)).
Proof.
  intros (H0 & H1 & H2 & H3 & H4) Ho. unfold shifted. cbn [data offset setOffset].
  repeat split; assumption || lia.
Qed.

Lemma forward_ret {A} (a : A) : forward (ret a).
Proof. intros d x d' [= _ <-]. lia. Qed.

Lemma forward_bind {A B} (c : M A) (k : A -> M B) :
  forward c -> (forall a, forward (k a)) -> forward (bind c k).
Proof.
  intros Hc Hk d b d' H. apply bind_inv in H as (a & d1 & H1 & H2).
  apply Hc in H1. apply Hk in H2. lia.
Qed.

Lemma local_ret {A} (a : A) : local_ (ret a).
Proof.
  intros base lim d d2 x d' Hs [= <- <-] _. exists d2. now split.
Qed.

Lemma local_bind {A B} (c : M A) (k : A -> M B) :
  local_ c -> (forall a, forward (k a)) -> (forall a, local_ (k a)) ->
  local_ (bind c k).
Proof.
  intros Hc Hf Hk base lim d d2 b d' Hs H Hlim.
  apply bind_inv in H as (a & d1 & H1 & H2).
  pose proof (Hf a _ _ _ H2) as Hle.
  destruct (Hc base lim d d2 a d1 Hs H1 ltac:(lia)) as (d21 & E1 & Hs1 & He1).
  destruct (Hk a base lim d1 d21 b d' Hs1 H2 Hlim) as (d2' & E2 & Hs2 & He2).
  exists d2'. split; [|split; [exact Hs2|congruence]].
  unfold bind. now rewrite E1.
Qed.

Lemma forward_abort {A} (err : error) : forward (@abort A err).
Proof. intros d a d' [=]. Qed.

Lemma local_abort {A} (err : error) : local_ (@abort A err).
Proof. intros base lim d d2 a d' _ [=]. Qed.

Lemma forward_scanSlice (n : Z) : forward (scanSlice n).
Proof.
  intros d p d' H. apply scanSlice_inv in H as (_ & Hn & _ & _ & ->). cbn. lia.
Qed.

Lemma local_scanSlice (n : Z) : local_ (scanSlice n).
Proof.
  intros base lim d d2 p d' Hs H Hlim.
  apply scanSlice_inv in H as (H0 & Hn & Hlen & Hp & ->). cbn [offset setOffset] in Hlim.
  pose proof Hs as (Hb0 & Hb1 & Hb2 & Hdata & Hoff).
  exists (setOffset d2 (offset d + n - base)). split; [|split].
  - unfold scanSlice. rewrite Hoff, Hdata.
    rewrite len_shift by lia.
    destruct (Z.ltb_spec (lim - base) (offset d - base + n)); [lia|].
    replace (offset d - base + n) with (offset d + n - base) by lia.
    rewrite slice_shift by lia. rewrite Hp. reflexivity.
  - apply shifted_setOffset; [exact Hs|lia].
  - reflexivity.
Qed.

Lemma forward_scanByte : forward scanByte.
Proof. intros d b d' H. apply scanByte_inv in H as (_ & ->). cbn. lia. Qed.

Lemma local_scanByte : local_ scanByte.
Proof.
  intros base lim d d2 b d' Hs H Hlim.
  pose proof H as H'. apply scanByte_inv in H' as (H0 & ->).
  cbn [offset setOffset] in Hlim.
  pose proof Hs as (Hb0 & Hb1 & Hb2 & Hdata & Hoff).
  unfold scanByte in H. destruct (Z.leb_spec (len (data d)) (offset d)); [lia|].
  destruct (index (data d) (offset d)) as [b0|] eqn:Ei; [|discriminate].
  injection H as <-.
  exists (setOffset d2 (offset d + 1 - base)). split; [|split].
  - unfold scanByte. rewrite Hoff, Hdata. rewrite len_shift by lia.
    destruct (Z.leb_spec (lim - base) (offset d - base)); [lia|].
    rewrite index_shift by lia. rewrite Ei.
    do 2 f_equal. lia.
  - apply shifted_setOffset; [exact Hs|lia].
  - reflexivity.
Qed.

Lemma forward_scanKindName : forward scanKindName.
Proof.
  intros d [kind nm] d' H. apply scanKindName_inv in H. lia.
Qed.

Lemma indexZero_take (rest : list byte) (i : Z) (k : nat) :
  indexZero rest = Some i -> i < Z.of_nat k -> indexZero (take k rest) = Some i.
Proof.
  revert i k. induction rest as [|x rest IH]; intros i k; cbn [indexZero].
  - discriminate.
  - destruct k as [|k]; cbn [take indexZero].
    + destruct (byte_to_Z x =? 0).
      * intros [= <-]. lia.
      * destruct (indexZero rest) as [j|] eqn:E; [|discriminate].
        intros [= <-] Hlt.
        assert (0 <= j); [|lia].
        clear - E. revert j E. induction rest as [|y rest IH]; intros j; cbn.
        -- discriminate.
        -- destruct (byte_to_Z y =? 0); [intros [= <-]; lia|].
           destruct (indexZero rest) as [j'|]; [|discriminate].
           intros [= <-]. specialize (IH j' eq_refl). lia.
    + destruct (byte_to_Z x =? 0); [now intros [= <-]|].
      destruct (indexZero rest) as [j|] eqn:E; [|discriminate].
      intros [= <-] Hlt. rewrite (IH j k eq_refl); [reflexivity|lia].
Qed.

Lemma local_scanKindName : local_ scanKindName.
Proof.
  intros base lim d d2 [kind nm] d' Hs H Hlim.
  pose proof Hs as (Hb0 & Hb1 & Hb2 & Hdata & Hoff).
  unfold scanKindName in H. apply bind_inv in H as (b & d1 & H1 & H).
  pose proof H1 as H1'. apply scanByte_inv in H1' as (H0 & ->).
  assert (Hlim1 : offset d + 1 <= lim).
  { destruct (byte_to_Z b =? 0).
    - injection H as _ _ <-. exact Hlim.
    - cbn [data offset setOffset] in H.
      destruct (slice _ _ _); [|discriminate].
      destruct (indexZero _) as [i|] eqn:Ei; [|discriminate].
      destruct (slice _ _ (offset d + 1 + i)) eqn:En; [|discriminate].
      injection H as _ _ <-. cbn [offset setOffset] in Hlim.
      apply slice_Some in En. lia. }
  destruct (local_scanByte base lim d d2 b _ Hs H1 Hlim1) as (d21 & E1 & Hs1 & He1).
  pose proof E1 as E1'. apply scanByte_inv in E1' as (_ & ->).
  unfold scanKindName, bind. rewrite E1.
  destruct (byte_to_Z b =? 0).
  - injection H as <- <- <-. eexists. split; [reflexivity|]. now split.
  - cbn [data offset setOffset] in *.
    destruct (slice (data d) (offset d + 1) (len (data d))) as [rest|] eqn:ER;
      [|discriminate].
    destruct (indexZero rest) as [i|] eqn:EI; [|discriminate].
    destruct (slice (data d) (offset d + 1) (offset d + 1 + i)) as [nm0|] eqn:EN;
      [|discriminate].
    injection H as <- <- <-. cbn [offset setOffset] in Hlim.
    pose proof EN as EN'. apply slice_Some in EN' as (E1' & E2' & E3' & _).
    rewrite Hdata, len_shift by lia.
    replace (lim - base) with (lim - base - base + base) at 2 by lia.
    rewrite Hoff.
    replace (offset d - base + 1) with (offset d + 1 - base) by lia.
    replace (lim - base - base + base) with (lim - base) by lia.
    rewrite (slice_shift (data d) base lim (offset d + 1) lim) by lia.
    assert (ER2 : slice (data d) (offset d + 1) lim
                  = Some (take (Z.to_nat (lim - (offset d + 1))) rest)).
    { apply slice_Some in ER as (_ & _ & _ & ->).
      apply slice_Some. repeat split; try lia.
      rewrite take_take. f_equal. unfold len in *. lia. }
    rewrite ER2.
    rewrite (indexZero_take rest i _ EI) by lia.
    replace (offset d + 1 - base + i) with (offset d + 1 + i - base) by lia.
    rewrite (slice_shift (data d) base lim (offset d + 1) (offset d + 1 + i)) by lia.
    rewrite EN. eexists. split; [reflexivity|]. split; [|reflexivity].
    unfold shifted. cbn [data offset setOffset]. repeat split; assumption || lia.
Qed.

Lemma streaming_ret {A} (a : A) : streaming (ret a).
Proof. split; [apply forward_ret | apply local_ret]. Qed.

Lemma streaming_abort {A} (err : error) : streaming (@abort A err).
Proof. split; [apply forward_abort | apply local_abort]. Qed.

Lemma streaming_timeout {A} : streaming (@timeout A).
Proof. split; [intros d a d' [=] | intros base lim d d2 a d' _ [=]]. Qed.

Lemma streaming_bind {A B} (c : M A) (k : A -> M B) :
  streaming c -> (forall a, streaming (k a)) -> streaming (bind c k).
Proof.
  intros [Hc1 Hc2] Hk. split.
  - apply forward_bind; [exact Hc1 | intros a; apply Hk].
  - apply local_bind; [exact Hc2 | intros a; apply Hk | intros a; apply Hk].
Qed.

Lemma streaming_scanSlice (n : Z) : streaming (scanSlice n).
Proof. split; [apply forward_scanSlice | apply local_scanSlice]. Qed.

Lemma streaming_scanByte : streaming scanByte.
Proof. split; [apply forward_scanByte | apply local_scanByte]. Qed.

Lemma streaming_scanKindName : streaming scanKindName.
Proof. split; [apply forward_scanKindName | apply local_scanKindName]. Qed.

Lemma streaming_addOffset_1 : streaming (addOffset 1).
Proof.
  split.
  - intros d a d' [= _ <-]. cbn. lia.
  - intros base lim d d2 a d' Hs [= <- <-] Hlim. cbn [offset setOffset] in Hlim.
    exists (setOffset d2 (offset d + 1 - base)). split; [|split].
    + unfold addOffset. destruct Hs as (_ & _ & _ & _ & ->). do 2 f_equal. lia.
    + apply shifted_setOffset; [exact Hs|]. destruct Hs. lia.
    + reflexivity.
Qed.

Create HintDb streaming.
#[local] Hint Resolve streaming_ret streaming_abort streaming_timeout
  streaming_scanSlice streaming_scanByte streaming_scanKindName
  streaming_addOffset_1 : streaming.

Ltac streaming_step :=
  match goal with
  | |- streaming (bind _ _) => apply streaming_bind; [|intros ?]
  | |- streaming (if ?b then _ else _) => destruct b
  | |- streaming (match ?x with (_, _) => _ end) => destruct x
  | |- streaming _ => solve [auto with streaming]
  end.

Ltac streaming_auto := cbv zeta; repeat streaming_step.

Lemma streaming_scanFloat : streaming scanFloat.
Proof. unfold scanFloat. streaming_auto. Qed.

Lemma streaming_scanString : streaming scanString.
Proof. unfold scanString. streaming_auto. Qed.

Lemma streaming_scanBinary : streaming scanBinary.
Proof. unfold scanBinary. streaming_auto. Qed.

Lemma streaming_scanBool : streaming scanBool.
Proof. unfold scanBool. streaming_auto. Qed.

Lemma streaming_scanInt32 : streaming scanInt32.
Proof. unfold scanInt32. streaming_auto. Qed.

Lemma streaming_scanInt64 : streaming scanInt64.
Proof. unfold scanInt64. streaming_auto. Qed.

#[local] Hint Resolve streaming_scanFloat streaming_scanString streaming_scanBinary
  streaming_scanBool streaming_scanInt32 streaming_scanInt64 : streaming.

(** The frame of a document or an array around a streaming body. *)
Lemma streaming_frame {A B} (body : M A) (k : A -> B) :
  streaming body ->
  streaming (let* o := beginDoc in let* a := body in endDoc o ;; ret (k a)).
Proof.
  intros [Hf Hl]. split.
  - intros d b d' H. apply document_frame_ok in H as (p & _ & ->).
    pose proof (Uint32_range p). lia.
  - intros base lim d d2 b d' Hs H Hlim.
    apply bind_inv in H as (o & d0 & Hb & H).
    apply bind_inv in H as (a & d3 & Hbody & H).
    apply bind_inv in H as ([] & d4 & He & H). injection H as <- <-.
    apply endDoc_inv in He as (Ho & ->).
    unfold beginDoc in Hb. apply bind_inv in Hb as (p & d1 & Hp & Hb).
    injection Hb as <- <-.
    pose proof (Hf _ _ _ Hbody) as Hle.
    destruct (local_scanSlice 4 base lim d d2 p d1 Hs Hp ltac:(lia))
      as (d21 & E1 & Hs1 & He1).
    destruct (Hl base lim d1 d21 a d3 Hs1 Hbody Hlim) as (d23 & E2 & Hs3 & He3).
    exists d23. split; [|split; [exact Hs3|congruence]].
    unfold beginDoc, bind. rewrite E1. unfold ret. rewrite E2.
    unfold endDoc.
    destruct Hs as (_ & _ & _ & _ & Hoff). destruct Hs3 as (_ & _ & _ & _ & Hoff3).
    destruct (Z.eqb_spec (offset d23) (offset d2 + wire.Uint32 p)) as [_|Hne];
      [reflexivity|]. exfalso. apply Hne. lia.
Qed.

(** The generic decoding only moves forward, and gives the same value on
    any part of the input that holds the bytes it reads. *)
Lemma streaming_decodeValueInterface (fuel : nat) :
  (forall kind, streaming (decodeValueInterface fuel kind)) /\
  (forall m, streaming (interfaceDocLoop fuel m)) /\
  (forall a, streaming (interfaceArrayLoop fuel a)).
Proof.
  induction fuel as [|fuel (IH1 & IH2 & IH3)].
  - repeat split; intros; apply streaming_timeout.
  - split; [|split].
    + intros kind. cbn [decodeValueInterface].
      repeat match goal with
             | |- streaming (if ?b then _ else _) => destruct b
             end;
        try (streaming_auto; fail).
      * apply (streaming_frame (interfaceDocLoop fuel ∅)
                 (fun m => Some (tMapStringInterface, VMap (Some m)))). apply IH2.
      * apply (streaming_frame (interfaceArrayLoop fuel None)
                 (fun a => Some (TSlice TInterface, VSlice a))). apply IH3.
    + intros m. cbn [interfaceDocLoop].
      apply streaming_bind; [apply streaming_scanKindName|].
      intros [kind nm]. destruct (kind =? 0); [apply streaming_ret|].
      apply streaming_bind; [apply IH1|]. intros x. apply IH2.
    + intros a. cbn [interfaceArrayLoop].
      apply streaming_bind; [apply streaming_scanKindName|].
      intros [kind nm]. destruct (kind =? 0); [apply streaming_ret|].
      apply streaming_bind; [apply IH1|]. intros x. apply IH3.
Qed.

Section RoundTrip.

Variable cvtI cvtU : Z -> Z.
Variable spec : rtype -> list byte -> option (list nat).

(** X18: what a [BSONData] slot captures decodes to the same value later:
    when the generic decoding reads a value other than [null] at the read
    offset, a [BSONData] slot at this place receives the bytes that were
    read, and [Decode] of this [BSONData] into an empty interface gives the
    value that the generic decoding gave in place, with no error. *)
Theorem BSONData_roundtrip fuel kind d x d' :
  len (data d) < 2^31 -> 0 <= offset d -> offset d' <= len (data d) ->
  decodeValueInterface fuel kind d = Ok (Some x) d' ->
  exists p,
    slice (data d) (offset d) (offset d') = Some p /\
    (forall fuel' v, direct v ->
       decodeValue cvtI cvtU spec (S fuel') kind tBSONData v settable d
       = Ok (BSONData_value (mkBSONData kind p)) (setOffset d (offset d'))) /\
    BSONData_Decode cvtI cvtU spec (S fuel) (mkBSONData kind p)
      (pointerTo TInterface)
    = Returned None (Some (VPtr (Some (VInterface (Some x))))).
Proof.
  intros Hlen H0 Hend H.
  destruct (streaming_decodeValueInterface fuel) as (Hs & _ & _).
  destruct (Hs kind) as [Hfw Hloc].
  pose proof (Hfw _ _ _ H) as Hle.
  pose proof (proj1 (decodeValueInterface_advance fuel) _ _ _ _ Hlen H) as Hsize.
  destruct (slice (data d) (offset d) (offset d')) as [p|] eqn:Hp;
    [|apply slice_None in Hp; lia].
  exists p. split; [reflexivity|]. split.
  - intros fuel' v Hv. cbn [decodeValue]. rewrite (indirect_direct _ _ _ Hv).
    change (decoderFor tBSONData) with (Some DecodeBSONData). cbn [callDecoder].
    unfold decodeBSONData, bind, get. rewrite (skipValue_advance _ _ _ Hsize).
    cbn [data offset setOffset].
    replace (offset d + (offset d' - offset d)) with (offset d') by lia.
    now rewrite Hp.
  - assert (Hsh : shifted (offset d) (offset d') d (mkState p 0 None)).
    { unfold shifted. cbn [data offset]. apply slice_Some in Hp as (_ & _ & _ & ->).
      repeat split; lia. }
    destruct (Hloc _ _ _ _ _ _ Hsh H ltac:(lia)) as (d2' & E & _ & He).
    unfold BSONData_Decode, decodeInternal, pointerTo. cbn [bdKind bdData Kind underlying zero].
    cbn [decodeValue indirect]. change (decoderFor TInterface) with (Some DecodeInterface).
    cbn [callDecoder]. unfold decodeInterface, bind. rewrite E.
    change (CanSet settable) with true. cbn [ret handleAbort].
    cbn [savedError] in He. now rewrite He.
Qed.

End RoundTrip.

(** The string ["hi"] in front of another byte. *)
Lemma BSONData_roundtrip_witness :
  exists p,
    decodeValue' 1 kindString tBSONData (zero tBSONData) settable
      (mkState payloadString 0 None)
    = Ok (BSONData_value (mkBSONData kindString p)) (mkState payloadString 7 None) /\
    BSONData_Decode unrepresentable_int64 unrepresentable_uint64 structSpecOfInfo 2
      (mkBSONData kindString p) (pointerTo TInterface)
    = Returned None (Some (VPtr (Some (VInterface (Some (TString, VString "hi")))))).
Proof.
  destruct (BSONData_roundtrip unrepresentable_int64 unrepresentable_uint64
              structSpecOfInfo 1 kindString (mkState payloadString 0 None)
              (TString, VString "hi") (mkState payloadString 7 None)
              ltac:(vm_compute; reflexivity) ltac:(vm_compute; discriminate)
              ltac:(vm_compute; discriminate) eq_refl)
    as (p & _ & H1 & H2).
  exists p. split; [|exact H2]. apply (H1 O (zero tBSONData)). exact I.
Defined.

(** ** Input that the decoder does not survive *)

Section Malformed.

Variable cvtI cvtU : Z -> Z.
Variable spec : rtype -> list byte -> option (list nat).

(** An element without a field whose skipping brings the read offset back
    to where the element starts: the loop reads it again and again. *)
Lemma structLoop_diverges rec t v fl d kind name' d1 :
  scanKindName d = Ok (kind, name') d1 ->
  kind <> 0 -> kind <> kindNull ->
  spec t name' = None ->
  skipValue kind d1 = Ok tt d ->
  forall fuel, structLoop spec rec fuel t v fl d = OutOfFuel.
Proof.
  intros Hs Hk0 Hkn Hspec Hskip fuel.
  induction fuel as [|fuel IH]; [reflexivity|].
  cbn [structLoop]. unfold bind at 1. rewrite Hs.
  destruct (Z.eqb_spec kind 0); [contradiction|].
  destruct (Z.eqb_spec kind kindNull); [contradiction|].
  rewrite Hspec. unfold bind. rewrite Hskip. exact IH.
Qed.

(** The same loop in [decodeArray], on an element behind the end of the
    array. *)
Lemma arrayLoop_diverges rec elem l fl d kind name' d1 :
  scanKindName d = Ok (kind, name') d1 ->
  kind <> 0 ->
  skipValue kind d1 = Ok tt d ->
  forall fuel i, (length l <= i)%nat ->
    arrayLoop rec fuel elem l fl i d = OutOfFuel.
Proof.
  intros Hs Hk0 Hskip fuel.
  induction fuel as [|fuel IH]; intros i Hi; [reflexivity|].
  cbn [arrayLoop]. unfold bind at 1. rewrite Hs.
  destruct (Z.eqb_spec kind 0); [contradiction|].
  rewrite (lookup_ge_None_2 l i Hi). unfold bind. rewrite Hskip.
  apply IH. lia.
Qed.

Lemma scanString_zero_length d p :
  slice (data d) (offset d) (offset d + 4) = Some p ->
  wire.Uint32 p = 0 ->
  scanString d = Panic (runtimeError "slice bounds out of range").
Proof.
  intros Hp Hz. unfold scanString, bind. rewrite (scanSlice_ok _ _ _ Hp), Hz.
  apply slice_Some in Hp as (H0 & _ & Hlen & _).
  unfold scanSlice. cbn [offset data setOffset].
  destruct (Z.ltb_spec (len (data d)) (offset d + 4 + (0 - 1))); [lia|].
  assert (Hn : slice (data d) (offset d + 4) (offset d + 4 + (0 - 1)) = None)
    by (apply slice_None; lia).
  now rewrite Hn.
Qed.

(** X19: a string, symbol or code element with the declared length 0 makes
    the decoder panic in the runtime (a slice with its end before its
    start), in the generic decoding and in a string slot; no error is
    returned. *)
Theorem string_zero_length_panics fuel kind t v fl d p :
  slice (data d) (offset d) (offset d + 4) = Some p ->
  wire.Uint32 p = 0 ->
  (isKind kind [kindString; kindSymbol] = true ->
   decodeValueInterface (S fuel) kind d
   = Panic (runtimeError "slice bounds out of range")) /\
  (isKind kind [kindString; kindSymbol; kindCode] = true ->
   direct v -> decoderFor t = Some DecodeString ->
   decodeValue cvtI cvtU spec (S fuel) kind t v fl d
   = Panic (runtimeError "slice bounds out of range")).
Proof.
  intros Hp Hz. pose proof (scanString_zero_length d p Hp Hz) as Hs. split.
  - intros Hk. cbn [isKind existsb] in Hk. cbn [decodeValueInterface].
    destruct (Z.eqb_spec kind kindString) as [->|Hn1].
    + cbv [kindString kindFloat Z.eqb Pos.eqb]. cbv iota. unfold bind. now rewrite Hs.
    + destruct (Z.eqb_spec kind kindSymbol) as [->|Hn2]; [|discriminate].
      cbv [kindSymbol kindString kindFloat kindDocument kindArray kindBinary
           kindObjectId kindBool kindDateTime kindNull Z.eqb Pos.eqb]. cbv iota.
      unfold bind. now rewrite Hs.
  - intros Hk Hd Hf. cbn [decodeValue]. rewrite (indirect_direct _ _ _ Hd), Hf.
    cbn [callDecoder]. unfold decodeString. rewrite Hk. unfold bind. now rewrite Hs.
Qed.

(** X20: a [null] element offered to a settable slot of the empty interface
    type (an element of a [[]interface{}] for instance) makes the decoder
    panic: [decodeInterface] hands the zero [reflect.Value] of the nil
    result to [Set]. *)
Theorem null_into_interface_panics fuel t v d :
  direct v -> decoderFor t = Some DecodeInterface ->
  decodeValue cvtI cvtU spec (S (S fuel)) kindNull t v settable d
  = Panic (runtimeError "reflect: call of reflect.Value.Set on zero Value").
Proof.
  intros Hd Hf. cbn [decodeValue]. rewrite (indirect_direct _ _ _ Hd), Hf.
  reflexivity.
Qed.

(** X21: decoding a document into a struct does not terminate when the
    document holds an element without a field whose skipping brings the
    read offset back to where the element starts (a string with a negative
    declared length does): the loop of [decodeStruct] reads the same element
    again and again, so no amount of fuel gives a result. *)
Theorem decodeStruct_never_returns fuel kind0 t v fl d o d0 kind name' d1 :
  direct v -> decoderFor t = Some DecodeStruct ->
  beginDoc d = Ok o d0 ->
  scanKindName d0 = Ok (kind, name') d1 ->
  kind <> 0 -> kind <> kindNull ->
  spec t name' = None ->
  skipValue kind d1 = Ok tt d0 ->
  decodeValue cvtI cvtU spec fuel kind0 t v fl d = OutOfFuel.
Proof.
  intros Hd Hf Hb Hs Hk0 Hkn Hspec Hskip.
  destruct fuel as [|fuel]; [reflexivity|].
  cbn [decodeValue]. rewrite (indirect_direct _ _ _ Hd), Hf.
  cbn [callDecoder]. unfold decodeStruct. unfold bind at 1 2. rewrite Hb.
  unfold bind at 1.
  now rewrite (structLoop_diverges _ _ _ _ _ _ _ _ Hs Hk0 Hkn Hspec Hskip).
Qed.

End Malformed.

(** The struct of [tNoId] and the eleven bytes of [docSkipBack]. *)
Lemma decodeStruct_never_returns_witness :
  decodeValue' 1000 kindDocument tNoId (zero tNoId) settable
    (mkState docSkipBack 0 None) = OutOfFuel.
Proof.
  apply (decodeStruct_never_returns unrepresentable_int64 unrepresentable_uint64
           structSpecOfInfo 1000 kindDocument tNoId (zero tNoId) settable
           (mkState docSkipBack 0 None) 11 (mkState docSkipBack 4 None)
           kindString [x71] (mkState docSkipBack 7 None));
    try reflexivity; try discriminate; exact I.
Defined.

(** [Decode] of the eleven bytes of [docSkipBack] into a struct never
    returns. *)
Example Decode_never_returns (fuel : nat) :
  Decode' fuel docSkipBack (pointerTo tNoId) = Unfinished.
Proof.
  destruct fuel as [|fuel]; [reflexivity|].
  pose proof (structLoop_diverges structSpecOfInfo (decodeValue' fuel) tNoId
                (zero tNoId) settable (mkState docSkipBack 4 None) kindString [x71]
                (mkState docSkipBack 7 None) eq_refl ltac:(discriminate)
                ltac:(discriminate) eq_refl eq_refl fuel) as Hdiv.
  unfold Decode, decodeInternal, pointerTo. cbn [Kind underlying].
  cbn [decodeValue]. rewrite (indirect_direct tNoId (zero tNoId) settable I).
  change (decoderFor tNoId) with (Some DecodeStruct). cbn [callDecoder].
  unfold decodeStruct. unfold bind at 1 2.
  change (beginDoc (mkState docSkipBack 0 None))
    with (Ok 11 (mkState docSkipBack 4 None)).
  cbv beta iota. unfold bind at 1. now rewrite Hdiv.
Qed.

Lemma string_zero_length_panics_witness :
  decodeValueInterface 1 kindString (mkState [x00; x00; x00; x00; x00] 0 None)
  = Panic (runtimeError "slice bounds out of range") /\
  Decode' 3 [x0d; x00; x00; x00; x02; x78; x00; x00; x00; x00; x00; x00; x00]
    (Interface_ (Some (tM, VMap (Some ∅))))
  = Panicked (runtimeError "slice bounds out of range").
Proof.
  split; [|reflexivity].
  exact (proj1 (string_zero_length_panics unrepresentable_int64
                  unrepresentable_uint64 structSpecOfInfo 0 kindString TString
                  (VString "") settable (mkState [x00; x00; x00; x00; x00] 0 None)
                  [x00; x00; x00; x00] eq_refl eq_refl) eq_refl).
Defined.

(** A [null] in an array read into a [[]interface{}]. *)
Lemma null_into_interface_panics_witness :
  decodeValue' 2 kindNull TInterface (VInterface None) settable (mkState [] 0 None)
  = Panic (runtimeError "reflect: call of reflect.Value.Set on zero Value") /\
  decodeValue' 4 kindArray (TSlice TInterface) (VSlice None) settable
    (mkState [x08; x00; x00; x00; x0a; x30; x00; x00] 0 None)
  = Panic (runtimeError "reflect: call of reflect.Value.Set on zero Value").
Proof.
  split; [|reflexivity].
  exact (null_into_interface_panics unrepresentable_int64 unrepresentable_uint64
           structSpecOfInfo 0 TInterface (VInterface None) (mkState [] 0 None)
           I eq_refl).
Defined.

(** ** Pointers and containers *)

Lemma zero_underlying (t : rtype) : zero t = zero (underlying t).
Proof. induction t; try reflexivity. exact IHt. Qed.

Lemma beginDoc_eod (d : decodeState) :
  len (data d) < offset d + 4 -> beginDoc d = Panic (aborted ErrEOD).
Proof.
  intros H. unfold beginDoc, bind. now rewrite (scanSlice_eod 4 d H).
Qed.

Lemma skipValue_document_eod (d : decodeState) :
  len (data d) < offset d + 4 -> skipValue kindDocument d = Panic (aborted ErrEOD).
Proof.
  intros H. unfold skipValue. cbn [isKind existsb].
  cbv [kindDocument kindString kindSymbol kindArray Z.eqb Pos.eqb orb]. cbv iota.
  unfold scanInt32, bind. now rewrite (scanSlice_eod 4 d H).
Qed.

Lemma saveErrorAndSkip_document_eod (t : rtype) (d : decodeState) :
  len (data d) < offset d + 4 ->
  saveErrorAndSkip kindDocument t d = Panic (aborted ErrEOD).
Proof.
  intros H. unfold saveErrorAndSkip, bind. now rewrite (skipValue_document_eod d H).
Qed.

Lemma zero_indirectNew (e : rtype) :
  match indirectNew e with
  | Some _ => zero e = VPtr None
  | None => direct (zero e)
  end.
Proof.
  induction e; cbn [indirectNew zero direct]; try exact I.
  - now destruct (indirectNew e) as [[[? ?] ?]|].
  - exact IHe.
  - now destruct k.
Qed.

Lemma indirect_zero (e : rtype) :
  indirect e (zero e) settable =
  match indirectNew e with
  | Some (t', z, rebuild) => inr (t', z, settable, rebuild)
  | None => inr (e, zero e, settable, fun x => x)
  end.
Proof.
  pose proof (zero_indirectNew e) as H.
  destruct (indirectNew e) as [[[t' z] rb]|] eqn:E.
  - rewrite H. cbn [indirect]. change (CanSet settable) with true. now rewrite E.
  - now apply indirect_direct.
Qed.

Lemma CanSet_flagElem (fl : flag) : CanSet fl = true -> flagElem fl = settable.
Proof. destruct fl as [[] []]; now intros. Qed.

(** Scanning and skipping save no error. *)
Lemma scanKindName_savedError d r d' :
  scanKindName d = Ok r d' -> savedError d' = savedError d.
Proof.
  unfold scanKindName. intros H. apply bind_inv in H as (b & d1 & H1 & H).
  apply scanByte_inv in H1 as (_ & ->).
  destruct (byte_to_Z b =? 0); [now injection H as _ <-|].
  cbn [data offset setOffset] in H.
  repeat match type of H with
         | match ?x with _ => _ end = _ => destruct x; try discriminate
         end.
  now injection H as _ <-.
Qed.

Lemma skipValue_savedError kind d d' :
  skipValue kind d = Ok tt d' -> savedError d' = savedError d.
Proof.
  unfold skipValue, scanInt32, addOffset. intros H.
  repeat match type of H with
         | (if ?b then _ else _) _ = _ => destruct b
         end;
    try discriminate;
    try (apply bind_inv in H as (n & d3 & Hn & H);
         apply bind_inv in Hn as (q & d4 & Hq & Hn);
         apply scanSlice_inv in Hq as (_ & _ & _ & _ & ->);
         injection Hn as _ <-);
    now injection H as <-.
Qed.

Section Containers.

Variable cvtI cvtU : Z -> Z.
Variable spec : rtype -> list byte -> option (list nat).

(** X22: decoding into a pointer is decoding into what it points to.  A
    non-nil pointer is followed whatever its own flags are: what it points
    to is addressable, and read-only exactly when the pointer is, so the
    target of a pointer that is not addressable and not read-only (one that
    an interface holds, say) can be set, and the target of a pointer from
    an unexported field cannot.  A nil pointer that can be set behaves as a
    pointer to a new zero value; a nil pointer that cannot be set makes
    [Set] panic. *)
Theorem decodeValue_pointer fuel kind t e x fl d :
  (underlying t = TPtr e ->
   decodeValue cvtI cvtU spec (S fuel) kind t (VPtr (Some x)) fl d =
   (let* x' := decodeValue cvtI cvtU spec (S fuel) kind e x
                 (mkFlag true (flagRO fl)) in
    ret (VPtr (Some x'))) d) /\
  (CanSet fl = true ->
   decodeValue cvtI cvtU spec (S fuel) kind (TPtr e) (VPtr None) fl d =
   decodeValue cvtI cvtU spec (S fuel) kind (TPtr e) (VPtr (Some (zero e))) fl d) /\
  (CanSet fl = false ->
   decodeValue cvtI cvtU spec (S fuel) kind t (VPtr None) fl d =
   Panic (runtimeError
            (if flagRO fl
             then "reflect: reflect.Value.Set using value obtained using unexported field"
             else "reflect: reflect.Value.Set using unaddressable value"))).
Proof.
  split; [|split].
  - intros Ht. cbn [decodeValue indirect]. rewrite Ht.
    change (flagElem fl) with (mkFlag true (flagRO fl)).
    destruct (indirect e x (mkFlag true (flagRO fl))) as [msg|[[[t' v'] c] rb]];
      [reflexivity|].
    match goal with |- bind ?b _ _ = _ => generalize b end.
    intros b. unfold bind, ret. destruct (b d); reflexivity.
  - intros Hc. cbn [decodeValue indirect indirectNew underlying].
    rewrite Hc, (CanSet_flagElem fl Hc), indirect_zero.
    destruct (indirectNew e) as [[[t' z] rb]|]; reflexivity.
  - intros Hc. cbn [decodeValue indirect]. rewrite Hc. reflexivity.
Qed.

Section Loops.

Variable rec : Z -> rtype -> rvalue -> flag -> M rvalue.

Lemma arrayLoop_length fuel : forall elem l fl i d l' d',
  arrayLoop rec fuel elem l fl i d = Ok l' d' -> length l' = length l.
Proof.
  induction fuel as [|fuel IH]; intros elem l fl i d l' d'; [discriminate|].
  cbn [arrayLoop]. intros H.
  apply bind_inv in H as ([kind nm] & d1 & _ & H).
  destruct (kind =? 0); [now injection H as <- <-|].
  destruct (l !! i) as [x|].
  - apply bind_inv in H as (x' & d2 & _ & H).
    apply IH in H. now rewrite length_insert in H.
  - apply bind_inv in H as ([] & d2 & _ & H). now apply IH in H.
Qed.

(** The loop of [decodeArray] decodes into the positions from its counter
    [i] up to some [k], each one from the value it held, and leaves every
    other position alone. *)
Lemma arrayLoop_prefix fuel : forall elem l fl i d l' d',
  arrayLoop rec fuel elem l fl i d = Ok l' d' ->
  exists k, (i <= k)%nat /\
    forall j x, l !! j = Some x ->
      ((j < i)%nat -> l' !! j = Some x) /\
      ((i <= j < k)%nat ->
       exists kind d1 x' d2,
         l' !! j = Some x' /\ rec kind elem x fl d1 = Ok x' d2) /\
      ((k <= j)%nat -> l' !! j = Some x).
Proof.
  induction fuel as [|fuel IH]; intros elem l fl i d l' d'; [discriminate|].
  cbn [arrayLoop]. intros H.
  apply bind_inv in H as ([kind nm] & d1 & _ & H).
  destruct (kind =? 0).
  { injection H as <- <-. exists i. split; [lia|]. intros j x Hj.
    repeat split; auto; lia. }
  destruct (l !! i) as [xi|] eqn:Ei.
  - apply bind_inv in H as (x' & d2 & Hrec & H).
    destruct (IH _ _ _ _ _ _ _ H) as (k & Hk & Hpos).
    exists k. split; [lia|]. intros j x Hj.
    destruct (Nat.eq_dec j i) as [->|Hne].
    + assert (Hi : <[i:=x']> l !! i = Some x')
        by (apply list_lookup_insert_eq; now apply lookup_lt_Some in Ei).
      destruct (Hpos i x' Hi) as (Hlt & _ & _).
      rewrite Ei in Hj. injection Hj as <-.
      split; [lia|]. split; [|lia].
      intros _. exists kind, d1, x', d2. split; [apply Hlt; lia | exact Hrec].
    + assert (Hj' : <[i:=x']> l !! j = Some x)
        by (rewrite list_lookup_insert_ne by congruence; exact Hj).
      destruct (Hpos j x Hj') as (Hlt & Hmid & Hge).
      split; [intros; apply Hlt; lia|]. split; [intros; apply Hmid; lia | exact Hge].
  - apply bind_inv in H as ([] & d2 & _ & H).
    destruct (IH _ _ _ _ _ _ _ H) as (k & Hk & Hpos).
    exists k. split; [lia|]. intros j x Hj.
    assert (j < i)%nat.
    { apply lookup_lt_Some in Hj. apply lookup_ge_None in Ei. lia. }
    destruct (Hpos j x Hj) as (Hlt & _ & _).
    split; [intros; apply Hlt; lia|]. split; [lia|]. intros. apply Hlt. lia.
Qed.

(** Behind the end of the array the loop only skips. *)
Lemma arrayLoop_surplus fuel : forall elem l fl i d l' d',
  (length l <= i)%nat ->
  arrayLoop rec fuel elem l fl i d = Ok l' d' ->
  l' = l /\ savedError d' = savedError d.
Proof.
  induction fuel as [|fuel IH]; intros elem l fl i d l' d' Hi; [discriminate|].
  cbn [arrayLoop]. intros H.
  apply bind_inv in H as ([kind nm] & d1 & Hs & H).
  apply scanKindName_savedError in Hs.
  destruct (kind =? 0); [injection H as <- <-; now split|].
  rewrite (lookup_ge_None_2 l i Hi) in H.
  apply bind_inv in H as ([] & d2 & Hskip & H).
  apply skipValue_savedError in Hskip.
  apply IH in H; [|lia]. destruct H as [-> E].
  split; [reflexivity|congruence].
Qed.

Lemma sliceLoop_grows fuel : forall elem s fl i d s' d',
  (sliceLen s <= sliceCap s)%nat ->
  sliceLoop rec fuel elem s fl i d = Ok s' d' ->
  (sliceLen s <= sliceLen s')%nat /\ (sliceCap s <= sliceCap s')%nat /\
  (sliceLen s' <= sliceCap s')%nat.
Proof.
  induction fuel as [|fuel IH]; intros elem s fl i d s' d' Hwf; [discriminate|].
  cbn [sliceLoop]. intros H.
  apply bind_inv in H as ([kind nm] & d1 & _ & H).
  destruct (kind =? 0); [injection H as <- <-; lia|].
  cbv zeta in H. fold (sliceLen s) in H.
  set (backing := match s with Some (b, _) => b | None => [] end) in *.
  assert (Hcap : sliceCap s = length backing)
    by (destruct s as [[? ?]|]; reflexivity).
  apply bind_inv in H as (backing1 & d2 & Hb & H).
  apply bind_inv in H as (ln1 & d3 & Hl & H).
  destruct (backing1 !! i) as [x|] eqn:Ei; [|discriminate].
  apply bind_inv in H as (x' & d4 & _ & H).
  apply lookup_lt_Some in Ei.
  assert (Hln1 : ln1 = sliceLen s \/ ((sliceLen s <= i)%nat /\ ln1 = S i)).
  { destruct (sliceLen s <=? i)%nat eqn:E.
    - apply Nat.leb_le in E. destruct (CanSet fl); [|discriminate].
      injection Hl as <- _. now right.
    - injection Hl as <- _. now left. }
  assert (Hb1 : (length backing <= length backing1)%nat).
  { destruct (length backing <=? i)%nat eqn:E.
    - apply Nat.leb_le in E. destruct (CanSet fl); [|discriminate].
      injection Hb as <- _.
      rewrite length_app, length_take, length_replicate.
      destruct (_ <? 4)%nat eqn:E4;
        [apply Nat.ltb_lt in E4|apply Nat.ltb_ge in E4]; lia.
    - now injection Hb as <- _. }
  apply IH in H; cbn [sliceLen sliceCap] in *; rewrite ?length_insert in *; lia.
Qed.

Lemma mapLoop_keys fuel : forall key elem m fl d m' d',
  mapLoop rec fuel key elem m fl d = Ok m' d' ->
  forall k, is_Some (m !! k) -> is_Some (m' !! k).
Proof.
  induction fuel as [|fuel IH]; intros key elem m fl d m' d'; [discriminate|].
  cbn [mapLoop]. intros H.
  apply bind_inv in H as ([kind nm] & d1 & _ & H).
  destruct (kind =? 0); [now injection H as <- <-|].
  destruct (kind =? kindNull); [exact (IH _ _ _ _ _ _ _ H)|].
  apply bind_inv in H as (subv & d2 & _ & H).
  apply bind_inv in H as ([] & d3 & _ & H).
  destruct key; try discriminate.
  intros k Hk. apply (IH _ _ _ _ _ _ _ H). apply lookup_insert_is_Some'. now right.
Qed.

Lemma mapStringInterfaceLoop_keys fuel : forall m d m' d',
  mapStringInterfaceLoop fuel m d = Ok m' d' ->
  forall k, is_Some (m !! k) -> is_Some (m' !! k).
Proof.
  induction fuel as [|fuel IH]; intros m d m' d'; [discriminate|].
  cbn [mapStringInterfaceLoop]. intros H.
  apply bind_inv in H as ([kind nm] & d1 & _ & H).
  destruct (kind =? 0); [now injection H as <- <-|].
  destruct (kind =? kindNull); [exact (IH _ _ _ _ H)|].
  apply bind_inv in H as (x & d2 & _ & H).
  intros k Hk. apply (IH _ _ _ _ H). apply lookup_insert_is_Some'. now right.
Qed.

End Loops.

(** X23: decoding an array into an array slot keeps the length of the
    array and decodes into a prefix of it: each position of the prefix holds
    the result of decoding one element into the value that the position
    held, and every position behind the prefix keeps its value; an element
    of another kind leaves the whole array as it is.  Once the counter of
    the loop has passed the end of the array, the elements that remain are
    skipped: the array does not change any more and no error is saved. *)
Theorem decodeArray_positions fuel kind t n elem l fl :
  underlying t = TArray n elem -> decoderFor t = Some DecodeArray ->
  (forall d v' d',
     decodeValue cvtI cvtU spec (S fuel) kind t (VArray l) fl d = Ok v' d' ->
     exists l' k,
       v' = VArray l' /\ length l' = length l /\
       (kind <> kindArray -> k = 0%nat) /\
       forall j x, l !! j = Some x ->
         ((j < k)%nat ->
          exists kind' d1 x' d2,
            l' !! j = Some x' /\
            decodeValue cvtI cvtU spec fuel kind' elem x fl d1 = Ok x' d2) /\
         ((k <= j)%nat -> l' !! j = Some x)) /\
  (forall i d l' d',
     (length l <= i)%nat ->
     arrayLoop (decodeValue cvtI cvtU spec fuel) fuel elem l fl i d = Ok l' d' ->
     l' = l /\ savedError d' = savedError d).
Proof.
  intros Hu Hf. split; [|intros i d l' d'; apply arrayLoop_surplus].
  intros d v' d'. cbn [decodeValue]. rewrite (indirect_direct _ (VArray l) _ I), Hf.
  cbn [callDecoder]. unfold decodeArray. rewrite Hu. intros H.
  apply bind_inv in H as (v1 & d1 & H & Hret). injection Hret as <- <-.
  destruct (Z.eqb_spec kind kindArray) as [->|Hk]; cbn [negb] in H.
  - apply bind_inv in H as (o & d2 & _ & H).
    apply bind_inv in H as (l' & d3 & Hloop & H).
    apply bind_inv in H as ([] & d4 & _ & H). injection H as <- _.
    destruct (arrayLoop_prefix _ _ _ _ _ _ _ _ _ Hloop) as (k & _ & Hpos).
    exists l', k. split; [reflexivity|].
    split; [apply (arrayLoop_length _ _ _ _ _ _ _ _ _ Hloop)|].
    split; [congruence|]. intros j x Hj. destruct (Hpos j x Hj) as (_ & Hmid & Hge).
    split; [intros; apply Hmid; lia | exact Hge].
  - apply bind_inv in H as ([] & d2 & _ & H). injection H as <- _.
    exists l, 0%nat. repeat split; auto; lia.
Qed.

(** X24: decoding into a slice slot never shortens the slice and never
    lowers its capacity, and the length stays within the capacity: a slice
    that is longer than the array of the input keeps its length (and its
    elements behind the decoded ones). *)
Theorem decodeSlice_never_shrinks fuel kind t s fl d v' d' :
  decoderFor t = Some DecodeSlice ->
  (sliceLen s <= sliceCap s)%nat ->
  decodeValue cvtI cvtU spec (S fuel) kind t (VSlice s) fl d = Ok v' d' ->
  exists s',
    v' = VSlice s' /\
    (sliceLen s <= sliceLen s')%nat /\ (sliceCap s <= sliceCap s')%nat /\
    (sliceLen s' <= sliceCap s')%nat.
Proof.
  intros Hf Hwf. cbn [decodeValue]. rewrite (indirect_direct _ (VSlice s) _ I), Hf.
  cbn [callDecoder]. unfold decodeSlice. intros H.
  apply bind_inv in H as (v1 & d1 & H & Hret). injection Hret as <- <-.
  destruct (negb (kind =? kindArray)).
  - apply bind_inv in H as ([] & d2 & _ & H). injection H as <- _.
    exists s. split; [reflexivity|]. lia.
  - destruct (underlying t); try discriminate.
    apply bind_inv in H as (o & d2 & _ & H).
    apply bind_inv in H as (s' & d3 & Hloop & H).
    apply bind_inv in H as ([] & d4 & _ & H). injection H as <- _.
    exists s'. split; [reflexivity|].
    apply (sliceLoop_grows _ _ _ _ _ _ _ _ _ Hwf Hloop).
Qed.

(** X25: decoding into a non-nil map, through [decodeMap] or
    [decodeMapStringInterface], only adds and overwrites entries: every key
    of the map is still a key afterwards. *)
Theorem decodeMap_keeps_keys fuel kind t m fl d v' d' :
  decoderFor t = Some DecodeMap \/ decoderFor t = Some DecodeMapStringInterface ->
  decodeValue cvtI cvtU spec (S fuel) kind t (VMap (Some m)) fl d = Ok v' d' ->
  exists m',
    v' = VMap (Some m') /\ forall k, is_Some (m !! k) -> is_Some (m' !! k).
Proof.
  intros Hf. cbn [decodeValue]. rewrite (indirect_direct _ (VMap (Some m)) _ I).
  intros H. destruct Hf as [Hf|Hf]; rewrite Hf in H; cbn [callDecoder] in H;
    apply bind_inv in H as (v1 & d1 & H & Hret); injection Hret as <- <-.
  - unfold decodeMap in H. destruct (underlying t); try discriminate.
    destruct (_ || _).
    + apply bind_inv in H as ([] & d2 & _ & H). injection H as <- _. now exists m.
    + apply bind_inv in H as (m0 & d2 & Hm & H). injection Hm as <- <-.
      apply bind_inv in H as (o & d3 & _ & H).
      apply bind_inv in H as (m' & d4 & Hloop & H).
      apply bind_inv in H as ([] & d5 & _ & H). injection H as <- _.
      exists m'. split; [reflexivity|]. apply (mapLoop_keys _ _ _ _ _ _ _ _ _ Hloop).
  - unfold decodeMapStringInterface in H.
    apply bind_inv in H as ([] & d2 & _ & H).
    apply bind_inv in H as (m0 & d3 & Hm & H). injection Hm as <- <-.
    apply bind_inv in H as ([] & d3' & _ & H).
    apply bind_inv in H as (o & d4 & _ & H).
    apply bind_inv in H as (m' & d5 & Hloop & H).
    apply bind_inv in H as ([] & d6 & _ & H). injection H as <- _.
    exists m'. split; [reflexivity|]. apply (mapStringInterfaceLoop_keys _ _ _ _ _ Hloop).
Qed.

(** X26: a document or an array that a struct, map, slice or array slot
    takes (a document for a struct or a map with string keys, an array for
    a slice or an array) is decoded without abort only if its elements end
    exactly where its length prefix says: the read offset has then moved by
    the declared length. *)
Theorem container_length_checked fuel kind t v fl d f v' d' :
  direct v -> decoderFor t = Some f -> framed f t kind ->
  decodeValue cvtI cvtU spec (S fuel) kind t v fl d = Ok v' d' ->
  exists p,
    slice (data d) (offset d) (offset d + 4) = Some p /\
    offset d' = offset d + wire.Uint32 p.
Proof.
  intros Hd Hf Hfr. cbn [decodeValue]. rewrite (indirect_direct _ _ _ Hd), Hf.
  intros H. apply bind_inv in H as (v1 & d1 & H & Hret). injection Hret as _ <-.
  destruct f; try contradiction; cbn [callDecoder framed] in *.
  - (* DecodeMap *)
    destruct Hfr as (-> & key & elem & Hu & Hk). unfold decodeMap in H.
    rewrite Hu, Hk in H. change (kindDocument =? kindDocument) with true in H.
    cbn [negb orb] in H.
    destruct v; try discriminate.
    apply bind_inv in H as (mm & d2 & Hm & H).
    assert (d2 = d) as ->.
    { match type of Hm with
      | context [match ?x with Some _ => _ | None => _ end] => destruct x
      end; [now injection Hm|].
      destruct (CanSet fl); [now injection Hm | discriminate]. }
    apply (document_frame_ok _ _ _ _ _ H).
  - (* DecodeStruct *)
    apply (document_frame_ok _ (fun x => x) _ _ _ H).
  - (* DecodeSlice *)
    subst kind. unfold decodeSlice in H.
    change (negb (kindArray =? kindArray)) with false in H. cbv iota in H.
    destruct (underlying t); try discriminate. destruct v; try discriminate.
    apply (document_frame_ok _ _ _ _ _ H).
  - (* DecodeArray *)
    subst kind. unfold decodeArray in H.
    change (negb (kindArray =? kindArray)) with false in H. cbv iota in H.
    destruct (underlying t); try discriminate. destruct v; try discriminate.
    apply (document_frame_ok _ _ _ _ _ H).
  - (* DecodeMapStringInterface *)
    subst kind. unfold decodeMapStringInterface in H.
    change (negb (kindDocument =? kindDocument)) with false in H. cbv iota in H.
    apply bind_inv in H as ([] & d2 & Hr & H). injection Hr as <-.
    destruct v; try discriminate.
    apply bind_inv in H as (mm & d3 & Hm & H).
    assert (d3 = d) as ->.
    { match type of Hm with
      | context [match ?x with Some _ => _ | None => _ end] => destruct x
      end; [now injection Hm|].
      destruct (CanSet fl); [now injection Hm | discriminate]. }
    apply bind_inv in H as ([] & d4 & Hi & H).
    assert (d4 = d) as -> by (destruct (flagRO fl); [discriminate | now injection Hi]).
    apply (document_frame_ok _ _ _ _ _ H).
Qed.

Lemma decodeValue_short fuel t d :
  len (data d) < offset d + 4 ->
  direct (zero t) ->
  decoderFor t <> Some DecodeMinMax ->
  (decoderFor t = Some DecodeMapStringInterface ->
   exists key elem, underlying t = TMap key elem) ->
  decodeValue cvtI cvtU spec (S (S fuel)) kindDocument t (zero t) settable d
  = Panic (aborted ErrEOD).
Proof.
  intros Hlen Hd Hmm HM.
  pose proof (saveErrorAndSkip_document_eod t d Hlen) as Hskip.
  cbn [decodeValue]. rewrite (indirect_direct _ _ _ Hd).
  destruct (decoderFor t) as [f|] eqn:Hf.
  2:{ unfold bind. now rewrite Hskip. }
  assert (Hmis : skipsOnMismatch f = true -> accepts f kindDocument = false ->
                 (let* v' := callDecoder cvtI cvtU spec
                               (decodeValue cvtI cvtU spec (S fuel)) f (S fuel)
                               kindDocument t (zero t) settable in
                  ret v') d = Panic (aborted ErrEOD)).
  { intros Hs Ha. rewrite (callDecoder_mismatch _ _ _ _ _ _ _ _ _ _ Hs Ha Hf).
    unfold bind. now rewrite Hskip. }
  destruct f; try (apply Hmis; reflexivity); cbn [callDecoder]; unfold bind.
  - (* DecodeMap *)
    destruct (decoderFor_Map _ Hf) as (key & elem & Hu).
    unfold decodeMap. rewrite Hu, (zero_underlying t), Hu. cbn [zero].
    destruct (_ || _).
    + unfold bind. now rewrite Hskip.
    + change (CanSet settable) with true. cbv iota.
      unfold bind, ret. now rewrite (beginDoc_eod d Hlen).
  - (* DecodeStruct *)
    unfold decodeStruct, bind. now rewrite (beginDoc_eod d Hlen).
  - (* DecodeBSONData *)
    unfold decodeBSONData, bind, get. now rewrite (skipValue_document_eod d Hlen).
  - (* DecodeMinMax *) contradiction.
  - (* DecodeMapStringInterface *)
    destruct (HM eq_refl) as (key & elem & Hu).
    unfold decodeMapStringInterface. rewrite (zero_underlying t), Hu. cbn [zero].
    change (negb (kindDocument =? kindDocument)) with false.
    change (CanSet settable) with true. change (flagRO settable) with false.
    cbv iota. unfold bind, ret. now rewrite (beginDoc_eod d Hlen).
  - (* DecodeInterface *)
    unfold decodeInterface. cbn [decodeValueInterface].
    cbv [kindDocument kindString kindFloat Z.eqb Pos.eqb]. cbv iota.
    unfold bind. now rewrite (beginDoc_eod d Hlen).
Qed.

(** X27: [Decode] of an input of fewer than four bytes into a pointer to a
    zero value returns [ErrEOD], whatever the type pointed to (not a pointer
    itself), with one exception: a [MinMax] target, for which the input is
    not read at all. *)
Theorem Decode_short_input fuel data' t :
  len data' < 4 ->
  direct (zero t) ->
  decoderFor t <> Some DecodeMinMax ->
  (decoderFor t = Some DecodeMapStringInterface ->
   exists key elem, underlying t = TMap key elem) ->
  Decode cvtI cvtU spec (S (S fuel)) data' (pointerTo t)
  = Returned (Some ErrEOD) None.
Proof.
  intros Hlen Hd Hmm HM. unfold Decode, decodeInternal, pointerTo.
  cbn [Kind underlying].
  rewrite (decodeValue_short fuel t (mkState data' 0 None)); [reflexivity|..];
    assumption.
Qed.

(** The exception. *)
Example Decode_MinMax_reads_nothing fuel data' :
  Decode cvtI cvtU spec (S fuel) data' (pointerTo tMinMax)
  = Returned (Some (DecodeConvertError kindDocument tMinMax))
      (Some (VPtr (Some (VInt 0)))).
Proof. reflexivity. Qed.

End Containers.

(** An int32 read through a pointer to a nil pointer to an int8, through a
    nil pointer that can be set, and offered to a nil pointer that cannot. *)
Lemma decodeValue_pointer_witness :
  decodeValue' 1 kindInt32 (TPtr (TPtr (TInt W8))) (VPtr (Some (VPtr None)))
    unaddressable (mkState [x07; x00; x00; x00] 0 None)
  = Ok (VPtr (Some (VPtr (Some (VInt 7))))) (mkState [x07; x00; x00; x00] 4 None) /\
  decodeValue' 1 kindInt32 (TPtr (TInt W8)) (VPtr None) settable
    (mkState [x07; x00; x00; x00] 0 None)
  = Ok (VPtr (Some (VInt 7))) (mkState [x07; x00; x00; x00] 4 None) /\
  decodeValue' 1 kindInt32 (TPtr (TInt W8)) (VPtr None) unaddressable
    (mkState [x07; x00; x00; x00] 0 None)
  = Panic (runtimeError "reflect: reflect.Value.Set using unaddressable value").
Proof.
  pose proof (decodeValue_pointer unrepresentable_int64 unrepresentable_uint64
                structSpecOfInfo 0 kindInt32 (TPtr (TPtr (TInt W8)))
                (TPtr (TInt W8)) (VPtr None) unaddressable
                (mkState [x07; x00; x00; x00] 0 None)) as (H1 & _ & _).
  pose proof (decodeValue_pointer unrepresentable_int64 unrepresentable_uint64
                structSpecOfInfo 0 kindInt32 (TPtr (TInt W8))
                (TInt W8) (VInt 0) settable
                (mkState [x07; x00; x00; x00] 0 None)) as (_ & H2 & _).
  pose proof (decodeValue_pointer unrepresentable_int64 unrepresentable_uint64
                structSpecOfInfo 0 kindInt32 (TPtr (TInt W8))
                (TInt W8) (VInt 0) unaddressable
                (mkState [x07; x00; x00; x00] 0 None)) as (_ & _ & H3).
  split; [|split].
  - rewrite (H1 eq_refl). reflexivity.
  - rewrite (H2 eq_refl). reflexivity.
  - exact (H3 eq_refl).
Defined.

(** The pointer field of an unexported field: the int8 behind it cannot be
    set, although what a pointer points to is addressable. *)
Example decodeValue_pointer_unexported :
  decodeValue' 1 kindInt32 (TPtr (TInt W8)) (VPtr (Some (VInt 5)))
    (mkFlag true true) (mkState [x07; x00; x00; x00] 0 None)
  = Panic (runtimeError
             "reflect: reflect.Value.Set using value obtained using unexported field").
Proof. reflexivity. Qed.

(** The array [[7]] read into a [[3]int32] that holds [1, 2, 3]: the prefix
    is the first position, the two others keep their values. *)
Lemma decodeArray_positions_witness :
  decodeValue' 3 kindArray (TArray 3 (TInt W32)) (VArray [VInt 1; VInt 2; VInt 3])
    settable
    (mkState [x0c; x00; x00; x00; x10; x30; x00; x07; x00; x00; x00; x00] 0 None)
  = Ok (VArray [VInt 7; VInt 2; VInt 3])
      (mkState [x0c; x00; x00; x00; x10; x30; x00; x07; x00; x00; x00; x00] 12
         None) /\
  exists l' k,
    VArray [VInt 7; VInt 2; VInt 3] = VArray l' /\ length l' = 3%nat /\
    (forall j x, [VInt 1; VInt 2; VInt 3] !! j = Some x ->
       (k <= j)%nat -> l' !! j = Some x).
Proof.
  split; [reflexivity|].
  destruct (proj1 (decodeArray_positions unrepresentable_int64
                     unrepresentable_uint64 structSpecOfInfo 2 kindArray
                     (TArray 3 (TInt W32)) 3 (TInt W32)
                     [VInt 1; VInt 2; VInt 3] settable eq_refl eq_refl)
              (mkState [x0c; x00; x00; x00; x10; x30; x00; x07; x00; x00; x00; x00]
                 0 None)
              (VArray [VInt 7; VInt 2; VInt 3])
              (mkState [x0c; x00; x00; x00; x10; x30; x00; x07; x00; x00; x00; x00]
                 12 None) eq_refl)
    as (l' & k & Hv & Hl & _ & Hpos).
  exists l', k. split; [exact Hv|]. split; [exact Hl|].
  intros j x Hj Hk. exact (proj2 (Hpos j x Hj) Hk).
Defined.

(** The array [[7]] read into a slice of three elements. *)
Lemma decodeSlice_never_shrinks_witness :
  exists s',
    decodeValue' 3 kindArray (TSlice (TInt W32))
      (VSlice (Some ([VInt 1; VInt 2; VInt 3], 3%nat))) settable
      (mkState [x0c; x00; x00; x00; x10; x30; x00; x07; x00; x00; x00; x00] 0 None)
    = Ok (VSlice s')
        (mkState [x0c; x00; x00; x00; x10; x30; x00; x07; x00; x00; x00; x00] 12
           None) /\
    s' = Some ([VInt 7; VInt 2; VInt 3], 3%nat) /\ (3 <= sliceLen s')%nat.
Proof.
  exists (Some ([VInt 7; VInt 2; VInt 3], 3%nat)).
  split; [reflexivity|]. split; [reflexivity|].
  destruct (decodeSlice_never_shrinks unrepresentable_int64 unrepresentable_uint64
              structSpecOfInfo 2 kindArray (TSlice (TInt W32))
              (Some ([VInt 1; VInt 2; VInt 3], 3%nat)) settable _ _ _ eq_refl
              (Nat.le_refl 3)
              (eq_refl : decodeValue' 3 kindArray (TSlice (TInt W32))
                           (VSlice (Some ([VInt 1; VInt 2; VInt 3], 3%nat))) settable
                           (mkState [x0c; x00; x00; x00; x10; x30; x00; x07; x00;
                                     x00; x00; x00] 0 None) = Ok _ _))
    as (s' & Hv & Hl & _).
  injection Hv as <-. exact Hl.
Defined.

(** The document [{"b": null}] read into a map that holds [a]. *)
Lemma decodeMap_keeps_keys_witness :
  exists m',
    decodeValue' 3 kindDocument tM (VMap (Some {[ "a" := VInterface None ]})) unaddressable
      (mkState docNull 0 None)
    = Ok (VMap (Some m')) (mkState docNull 8 None) /\
    is_Some (m' !! "a").
Proof.
  destruct (decodeMap_keeps_keys unrepresentable_int64 unrepresentable_uint64
              structSpecOfInfo 2 kindDocument tM {[ "a" := VInterface None ]}
              unaddressable (mkState docNull 0 None) _ _
              (or_intror eq_refl) eq_refl)
    as (m' & Hv & Hk).
  exists m'. split.
  - rewrite <- Hv. reflexivity.
  - apply Hk. rewrite lookup_singleton_eq. eauto.
Defined.

(** The document [{"b": null}] of eight bytes. *)
Lemma container_length_checked_witness :
  exists p,
    slice docNull 0 4 = Some p /\ 8 = 0 + wire.Uint32 p.
Proof.
  exact (container_length_checked unrepresentable_int64 unrepresentable_uint64
           structSpecOfInfo 2 kindDocument tM (VMap (Some ∅)) unaddressable
           (mkState docNull 0 None) DecodeMapStringInterface (VMap (Some ∅))
           (mkState docNull 8 None) I eq_refl eq_refl eq_refl).
Defined.

Lemma Decode_short_input_witness :
  Decode' 2 [] (pointerTo tNoId) = Returned (Some ErrEOD) None /\
  Decode' 2 [x05; x00; x00] (pointerTo (TSlice TString))
  = Returned (Some ErrEOD) None /\
  Decode' 2 [x05] (pointerTo TInterface) = Returned (Some ErrEOD) None.
Proof.
  split; [|split].
  - apply (Decode_short_input unrepresentable_int64 unrepresentable_uint64
             structSpecOfInfo 0 [] tNoId); [reflexivity | exact I | discriminate
           | discriminate].
  - apply (Decode_short_input unrepresentable_int64 unrepresentable_uint64
             structSpecOfInfo 0 [x05; x00; x00] (TSlice TString));
      [reflexivity | exact I | discriminate | discriminate].
  - apply (Decode_short_input unrepresentable_int64 unrepresentable_uint64
             structSpecOfInfo 0 [x05] TInterface);
      [reflexivity | exact I | discriminate | discriminate].
Defined.
